(** * gitpm: a shallow embedding of [gitpm.py] and its specification

    The development follows the layout of the source file: Python's
    string methods and JSON values first, then the identity resolver
    ([parse_repo_url]), the catalog reader ([load_config]), the manifest
    reader ([load_gitpm_json]), the dependency resolver, the remote
    verifier and finally the lifecycle operations ([install], [update],
    [remove]) over an explicit world state. *)

From stdpp Require Import gmap strings list pretty.
From Stdlib Require Import Ascii ZArith Lia.

Local Open Scope Z_scope.
Local Open Scope stdpp_scope.

(* ===================================================================== *)
(** ** Python [str] methods

    A Python [str] is modelled as a [string] whose characters are the
    code points below 256.  Every method is written by structural
    recursion so that it evaluates on literals. *)
(* ===================================================================== *)

(** [str.isspace] on a single code point below 256. *)
Definition is_space (c : ascii) : bool :=
  let n := nat_of_ascii c in
  ((9 <=? n) && (n <=? 13) || (28 <=? n) && (n <=? 32)
   || (n =? 133) || (n =? 160))%nat.

Definition char_is (c : ascii) : ascii → bool := Ascii.eqb c.

Fixpoint str_all (p : ascii → bool) (s : string) : bool :=
  match s with
  | EmptyString => true
  | String c s' => p c && str_all p s'
  end.

Fixpoint str_filter (p : ascii → bool) (s : string) : string :=
  match s with
  | EmptyString => EmptyString
  | String c s' => if p c then String c (str_filter p s') else str_filter p s'
  end.

Fixpoint str_map (f : ascii → ascii) (s : string) : string :=
  match s with
  | EmptyString => EmptyString
  | String c s' => String (f c) (str_map f s')
  end.

(** [s.lstrip(chars)], [s.rstrip(chars)], [s.strip(chars)] with the
    stripped set given as a predicate. *)
Fixpoint lstrip_by (p : ascii → bool) (s : string) : string :=
  match s with
  | EmptyString => EmptyString
  | String c s' => if p c then lstrip_by p s' else s
  end.

Fixpoint rstrip_by (p : ascii → bool) (s : string) : string :=
  match s with
  | EmptyString => EmptyString
  | String c s' =>
      match rstrip_by p s' with
      | EmptyString => if p c then EmptyString else String c EmptyString
      | r => String c r
      end
  end.

Definition strip_by (p : ascii → bool) (s : string) : string :=
  rstrip_by p (lstrip_by p s).

(** [s.strip()] *)
Definition str_strip (s : string) : string := strip_by is_space s.

(** [s.startswith(pre)] *)
Definition str_startswith (pre s : string) : bool := String.prefix pre s.

(** [s.endswith(suf)] *)
Fixpoint str_endswith (suf s : string) : bool :=
  String.eqb s suf ||
  match s with
  | EmptyString => false
  | String _ s' => str_endswith suf s'
  end.

(** [s[:-n]] for [n <= len(s)] (and the empty string otherwise). *)
Fixpoint drop_last (n : nat) (s : string) : string :=
  match s with
  | EmptyString => EmptyString
  | String c s' =>
      if (String.length s' <? n)%nat then EmptyString
      else String c (drop_last n s')
  end.

(** [pat in s] for strings. *)
Fixpoint str_contains (pat s : string) : bool :=
  String.prefix pat s ||
  match s with
  | EmptyString => false
  | String _ s' => str_contains pat s'
  end.

(** [s.partition]-like cut at the first character satisfying [p]: the
    part before it, and the rest starting with that character (empty when
    there is none). *)
Fixpoint break_at (p : ascii → bool) (s : string) : string * string :=
  match s with
  | EmptyString => (EmptyString, EmptyString)
  | String c s' =>
      if p c then (EmptyString, s)
      else let '(a, b) := break_at p s' in (String c a, b)
  end.

(** [s.split(sep)] for a one-character separator: never the empty list. *)
Fixpoint str_split (sep : ascii) (s : string) : list string :=
  match s with
  | EmptyString => [EmptyString]
  | String c s' =>
      if Ascii.eqb c sep then EmptyString :: str_split sep s'
      else match str_split sep s' with
           | h :: t => String c h :: t
           | [] => [String c EmptyString]
           end
  end.

(** [sep.join(l)] *)
Fixpoint str_join (sep : string) (l : list string) : string :=
  match l with
  | [] => EmptyString
  | [x] => x
  | x :: l' => x +:+ sep +:+ str_join sep l'
  end.

(** [s.replace(pat, '')] for a non-empty [pat]: occurrences are removed
    left to right, without overlap.  [skip] counts the characters of an
    occurrence that are still to be dropped. *)
Fixpoint str_remove_go (pat : string) (skip : nat) (s : string) : string :=
  match s with
  | EmptyString => EmptyString
  | String c s' =>
      match skip with
      | S k => str_remove_go pat k s'
      | O => if String.prefix pat s
             then str_remove_go pat (String.length pat - 1) s'
             else String c (str_remove_go pat 0 s')
      end
  end.

Definition str_remove (pat s : string) : string := str_remove_go pat 0 s.

(** [s.lower()] on the ASCII letters and the Latin-1 capitals. *)
Definition char_lower (c : ascii) : ascii :=
  let n := nat_of_ascii c in
  if ((65 <=? n) && (n <=? 90)
      || (192 <=? n) && (n <=? 222) && negb (n =? 215))%nat
  then ascii_of_nat (n + 32) else c.

Definition str_lower : string → string := str_map char_lower.

(** The last element of [s.split(sep)], that is [s.split(sep)[-1]]. *)
Definition last_segment (sep : ascii) (s : string) : string :=
  List.last (str_split sep s) EmptyString.

(** Python truthiness of a [str]. *)
Definition str_truthy (s : string) : bool :=
  match s with EmptyString => false | _ => true end.

(** [x if x else None] as used for the optional catalog fields. *)
Definition nonempty (s : string) : option string :=
  if str_truthy s then Some s else None.

(* ===================================================================== *)
(** ** [pathlib] paths

    A path is modelled by the text [str] gives for it.  [Path(a) / b]
    is [posixpath.join] followed by the normal form of a POSIX path:
    empty components and [.] components are dropped, a root of exactly
    two slashes is kept and any other run of leading slashes is one
    slash, and the empty path reads [.]. *)
(* ===================================================================== *)

(** [posixpath.join(a, b)] *)
Definition posix_join (a b : string) : string :=
  if str_startswith "/" b then b
  else if negb (str_truthy a) || str_endswith "/" a then a +:+ b
  else a +:+ "/" +:+ b.

(** The root of a POSIX path. *)
Definition path_root (p : string) : string :=
  match p with
  | String "/" (String "/" (String "/" _)) => "/"
  | String "/" (String "/" _) => "//"
  | String "/" _ => "/"
  | _ => ""
  end.

(** [str(PurePosixPath(p))] *)
Definition path_str (p : string) : string :=
  let parts :=
    List.filter (λ x, str_truthy x && negb (String.eqb x "."))
      (str_split "/" p) in
  let s := path_root p +:+ str_join "/" parts in
  if str_truthy s then s else ".".

(** [str(Path(base) / name)] *)
Definition path_join (base name : string) : string :=
  path_str (posix_join base name).

(* ===================================================================== *)
(** ** Exceptions and results *)
(* ===================================================================== *)

(** The Python exceptions that the modelled code can raise or catch:
    the class of the exception and [str(e)]. *)
Inductive exn_kind : Type :=
  | ValueError | JSONDecodeError | TypeError | KeyError | IndexError
  | AttributeError | TimeoutExpired | CalledProcessError
  | OSError | FileNotFoundError | OtherException
  | KeyboardInterrupt | SystemExit
  (** not a Python class: an input loop that has not ended within the
      number of rounds the model was given; no handler catches it *)
  | Unfinished.

Inductive exn : Type := Exn (kind : exn_kind) (msg : string).

Definition exn_str (e : exn) : string := let 'Exn _ msg := e in msg.
Definition exn_kind_of (e : exn) : exn_kind := let 'Exn k _ := e in k.

#[global] Instance exn_kind_eq_dec : EqDecision exn_kind.
Proof. solve_decision. Defined.

(** [isinstance(e, Exception)]: everything but the two [BaseException]s. *)
Definition is_Exception (e : exn) : bool :=
  match exn_kind_of e with
  | KeyboardInterrupt | SystemExit | Unfinished => false
  | _ => true
  end.

(** [isinstance(e, OSError)] ([IOError] is the same class). *)
Definition is_OSError (e : exn) : bool :=
  match exn_kind_of e with
  | OSError | FileNotFoundError => true
  | _ => false
  end.

(** A computation that returns a value or raises. *)
Inductive result (A : Type) : Type :=
  | Ok (a : A)
  | Raise (e : exn).
Arguments Ok {A} a.
Arguments Raise {A} e.

#[global] Instance result_ret : MRet result := λ A a, Ok a.
#[global] Instance result_bind : MBind result := λ A B k r,
  match r with
  | Ok a => k a
  | Raise e => Raise e
  end.

Definition returns {A} (r : result A) : Prop := ∃ a, r = Ok a.

(* ===================================================================== *)
(** ** [urllib.parse.urlparse] and [re.match]

    The two library functions [parse_repo_url] calls.  [urlparse]
    follows CPython 3.12 on [str] arguments; its validation of a
    bracketed host (an IP literal, which goes through the [ipaddress]
    module) is a parameter of the model.  For code points below 256 the
    NFKC check of the network location never fails, so it is omitted. *)
(* ===================================================================== *)

Record ParseResult : Type := mkParseResult {
  url_scheme : string;
  url_netloc : string;
  url_path : string;
  url_params : string;
  url_query : string;
  url_fragment : string
}.

Definition is_c0_or_space (c : ascii) : bool := (nat_of_ascii c <=? 32)%nat.

Definition is_unsafe_url_byte (c : ascii) : bool :=
  let n := nat_of_ascii c in ((n =? 9) || (n =? 13) || (n =? 10))%nat.

Definition is_ascii_alpha (c : ascii) : bool :=
  let n := nat_of_ascii c in
  ((65 <=? n) && (n <=? 90) || (97 <=? n) && (n <=? 122))%nat.

Definition is_ascii_digit (c : ascii) : bool :=
  let n := nat_of_ascii c in ((48 <=? n) && (n <=? 57))%nat.

Definition is_scheme_char (c : ascii) : bool :=
  is_ascii_alpha c || is_ascii_digit c
  || char_is "+" c || char_is "-" c || char_is "." c.

Definition uses_params : list string :=
  [""; "ftp"; "hdl"; "prospero"; "http"; "imap"; "https"; "shttp"; "rtsp";
   "rtspu"; "sip"; "sips"; "mms"; "sftp"; "tel"].

Definition str_in_list (s : string) (l : list string) : bool :=
  existsb (String.eqb s) l.

Definition is_netloc_delim (c : ascii) : bool :=
  char_is "/" c || char_is "?" c || char_is "#" c.

(** The text after the first character of the second component of
    [break_at], that is [s.split(c, 1)[1]]. *)
Definition str_tail (s : string) : string :=
  match s with
  | EmptyString => EmptyString
  | String _ s' => s'
  end.

(** [_splitparams]: the parameters start at the first [;] of the last
    path segment. *)
Fixpoint splitparams (url : string) : string * string :=
  match url with
  | EmptyString => (EmptyString, EmptyString)
  | String c s' =>
      if str_contains "/" s' then
        let '(a, b) := splitparams s' in (String c a, b)
      else
        let '(a, b) := break_at (char_is ";") url in (a, str_tail b)
  end.

Section Urlparse.
(** [_check_bracketed_host] accepts the text between [[] and []]. *)
Variable bracketed_host_ok : string → bool.

Definition urlparse (url : string) : result ParseResult :=
  let url := lstrip_by is_c0_or_space url in
  let url := str_filter (fun c => negb (is_unsafe_url_byte c)) url in
  let '(sch, url) :=
    let '(pre, rest) := break_at (char_is ":") url in
    match pre, rest with
    | String c0 _, String _ rest' =>
        if is_ascii_alpha c0 && str_all is_scheme_char pre
        then (str_lower pre, rest') else (EmptyString, url)
    | _, _ => (EmptyString, url)
    end in
  '(nl, url) ←
    match url with
    | String "/" (String "/" url') =>
        let '(nl, rest) := break_at is_netloc_delim url' in
        let has_open := str_contains "[" nl in
        let has_close := str_contains "]" nl in
        if xorb has_open has_close
        then Raise (Exn ValueError "Invalid IPv6 URL")
        else if has_open && has_close then
          let host :=
            fst (break_at (char_is "]")
                   (str_tail (snd (break_at (char_is "[") nl)))) in
          if bracketed_host_ok host then Ok (nl, rest)
          else Raise (Exn ValueError "invalid bracketed host")
        else Ok (nl, rest)
    | _ => Ok (EmptyString, url)
    end;
  let '(url, frag) :=
    let '(a, b) := break_at (char_is "#") url in (a, str_tail b) in
  let '(url, qry) :=
    let '(a, b) := break_at (char_is "?") url in (a, str_tail b) in
  let '(url, prm) :=
    if str_in_list sch uses_params && str_contains ";" url
    then splitparams url else (url, EmptyString) in
  Ok (mkParseResult sch nl url prm qry frag).
End Urlparse.

(** A regular expression made of literal characters and capture groups
    of the shape [([^c]+)], matched at the start of the text the way
    [re.match] does: greedily, with backtracking. *)
Inductive rx : Type :=
  | RLit (c : ascii)
  | RNotPlus (c : ascii).

Fixpoint re_match (p : list rx) (s : string) : option (list string) :=
  match p with
  | [] => Some []
  | RLit c :: p' =>
      match s with
      | String a s' => if Ascii.eqb a c then re_match p' s' else None
      | EmptyString => None
      end
  | RNotPlus c :: p' =>
      (fix go (s : string) : option (list string) :=
         match s with
         | EmptyString => None
         | String a s' =>
             if Ascii.eqb a c then None
             else match go s' with
                  | Some (g :: gs) => Some (String a g :: gs)
                  | _ =>
                      match re_match p' s' with
                      | Some gs => Some (String a EmptyString :: gs)
                      | None => None
                      end
                  end
         end) s
  end.

(** [r'git@([^:]+):([^/]+)/([^/]+)'] *)
Definition ssh_pattern : list rx :=
  [RLit "g"; RLit "i"; RLit "t"; RLit "@"; RNotPlus ":"; RLit ":";
   RNotPlus "/"; RLit "/"; RNotPlus "/"].

(* ===================================================================== *)
(** ** Identity resolver: [parse_repo_url] (gitpm.py, lines 122-160) *)
(* ===================================================================== *)

Section Identity.
Variable bracketed_host_ok : string → bool.

Definition parse_repo_url (url : string) : result (string * string * string) :=
  let url := str_strip url in
  let url := if str_endswith ".git" url then drop_last 4 url else url in
  let fallback :=
    Ok (url, "unknown", str_remove ".git" (last_segment "/" url)) in
  if str_startswith "http://" url || str_startswith "https://" url then
    parsed ← urlparse bracketed_host_ok url;
    match str_split "/" (strip_by (char_is "/") (url_path parsed)) with
    | user :: repo :: _ =>
        Ok (url_scheme parsed +:+ "://" +:+ url_netloc parsed +:+ "/" +:+ user
              +:+ "/" +:+ repo +:+ ".git", user, repo)
    | _ => fallback
    end
  else if str_startswith "git@" url then
    match re_match ssh_pattern url with
    | Some [host; user; repo] =>
        Ok ("git@" +:+ host +:+ ":" +:+ user +:+ "/" +:+ repo +:+ ".git",
            user, repo)
    | _ => fallback
    end
  else if str_contains "/" url && negb (str_startswith "http" url) then
    match str_split "/" url with
    | [user; repo] =>
        Ok ("https://github.com/" +:+ user +:+ "/" +:+ repo +:+ ".git",
            user, repo)
    | _ => fallback
    end
  else fallback.
End Identity.

(* ===================================================================== *)
(** ** Source catalog: the files and lines that [load_config] reads
    (gitpm.py, lines 37-115) *)
(* ===================================================================== *)

(** One parsed catalog line: the dictionary with keys [url], [branch],
    [name] and [source_file]. *)
Record RepoEntry : Type := mkRepoEntry {
  entry_url : string;
  entry_branch : option string;
  entry_name : option string;
  entry_source_file : string
}.

#[global] Instance RepoEntry_eq_dec : EqDecision RepoEntry.
Proof. solve_decision. Defined.

(** The body of the loop over the lines of one catalog file (lines
    103-115): [None] when the line adds no entry. *)
Definition parse_config_line (source_label line : string) : option RepoEntry :=
  let line := str_strip line in
  if str_truthy line && negb (str_startswith "#" line) then
    let parts := str_strip <$> str_split "," line in
    match parts !! 0%nat with
    | None => None
    | Some url =>
        if negb (str_truthy url) then None
        else Some {| entry_url := url;
                     entry_branch := parts !! 1%nat ≫= nonempty;
                     entry_name := parts !! 2%nat ≫= nonempty;
                     entry_source_file := source_label |}
    end
  else None.

(** What [load_config] observes of the file system: which directories
    and files exist, what [sorted(glob.glob(pattern))] returns, the
    lines of a file ([None] when opening it raises [IOError]), and the
    text [str(e)] of that [IOError]. *)
Record CatalogView : Type := mkCatalogView {
  cat_dir_exists : string → bool;
  cat_glob_sorted : string → list string;
  cat_file_exists : string → bool;
  cat_lines : string → option (list string);
  cat_error : string → string
}.

Section Catalog.
Variable view : CatalogView.
(** [self.system] and [Path.home()] *)
Variable system : bool.
Variable home : string.

(** One of the three blocks that extend [config_files] with the
    catalogs of a directory. *)
Definition scan_config_dir (dir : string) (config_files : list string)
  : list string :=
  if cat_dir_exists view dir then
    let config_files :=
      config_files ++ cat_glob_sorted view (path_join dir "repos*.conf") in
    let default := path_join dir "repos.conf" in
    if cat_file_exists view default
       && negb (bool_decide (default ∈ config_files))
    then config_files ++ [default] else config_files
  else config_files.

Definition find_config_files : list string :=
  let config_files := scan_config_dir "/etc/xdg/gitpm" [] in
  if negb system then scan_config_dir (path_join home ".config/gitpm") config_files
  else scan_config_dir "/etc/gitpm" config_files.

Definition source_label_of (config_file : string) : string :=
  let name := last_segment "/" config_file in
  if str_startswith "/etc" config_file then "[system]" +:+ name else name.

(** The entries that the lines of one catalog file add (lines
    100-115); none when the file cannot be opened. *)
Definition load_config_file (config_file : string) : list RepoEntry :=
  match cat_lines view config_file with
  | None => []
  | Some lines =>
      omap (parse_config_line (source_label_of config_file)) lines
  end.
End Catalog.

(** The line format of the catalog, [url,branch,name] with [branch] and
    [name] optional (docstring of [load_config], lines 42-43): the line
    that stands for given fields.  Trailing absent fields are left out;
    an absent branch before a name is the empty field. *)
Definition format_config_line
  (url : string) (branch name : option string) : string :=
  match branch, name with
  | None, None => url
  | Some b, None => url +:+ "," +:+ b
  | _, Some n => url +:+ "," +:+ default "" branch +:+ "," +:+ n
  end.

(* ===================================================================== *)
(** ** JSON values with Python's dynamic operations

    What [json.load] returns: [None], [bool], [int], [str], [list] and
    [dict] (with its items in file order).  JSON numbers are modelled by
    the integers. *)
(* ===================================================================== *)

#[local] Set Warnings "-register-all".
Inductive json : Type :=
  | JNull
  | JBool (b : bool)
  | JNum (n : Z)
  | JStr (s : string)
  | JArr (items : list json)
  | JObj (items : list (string * json)).

(** Python truthiness. *)
Definition truthy (v : json) : bool :=
  match v with
  | JNull => false
  | JBool b => b
  | JNum n => negb (n =? 0)
  | JStr s => str_truthy s
  | JArr l => match l with [] => false | _ => true end
  | JObj l => match l with [] => false | _ => true end
  end.

Definition as_number (v : json) : option Z :=
  match v with
  | JBool b => Some (if b then 1 else 0)
  | JNum n => Some n
  | _ => None
  end.

(** Python's [==] on JSON values: [True == 1], lists compare element by
    element, dictionaries regardless of the order of their items. *)
Fixpoint json_eqb (a b : json) : bool :=
  match a, b with
  | JNull, JNull => true
  | JStr s, JStr t => String.eqb s t
  | JArr l, JArr m =>
      (fix go (l m : list json) : bool :=
         match l, m with
         | [], [] => true
         | x :: l', y :: m' => json_eqb x y && go l' m'
         | _, _ => false
         end) l m
  | JObj l, JObj m =>
      (length l =? length m)%nat &&
      (fix go (l : list (string * json)) : bool :=
         match l with
         | [] => true
         | (k, v) :: l' =>
             (fix find (m : list (string * json)) : bool :=
                match m with
                | [] => false
                | (k', v') :: m' =>
                    if String.eqb k k' then json_eqb v v' else find m'
                end) m && go l'
         end) l
  | (JBool _ | JNum _), (JBool _ | JNum _) =>
      match as_number a, as_number b with
      | Some x, Some y => x =? y
      | _, _ => false
      end
  | _, _ => false
  end.

(** [d[k]] on the items of a dictionary. *)
Fixpoint assoc (k : string) (items : list (string * json)) : option json :=
  match items with
  | [] => None
  | (k', v) :: items' => if String.eqb k k' then Some v else assoc k items'
  end.

Definition is_hashable (v : json) : bool :=
  match v with
  | JArr _ | JObj _ => false
  | _ => true
  end.

(** [x in c] *)
Definition py_in (x c : json) : result bool :=
  match c with
  | JObj items =>
      match x with
      | JStr k => Ok (bool_decide (is_Some (assoc k items)))
      | _ => if is_hashable x then Ok false
             else Raise (Exn TypeError "unhashable type")
      end
  | JArr l => Ok (existsb (json_eqb x) l)
  | JStr s =>
      match x with
      | JStr pat => Ok (str_contains pat s)
      | _ => Raise (Exn TypeError "'in <string>' requires string as left operand")
      end
  | _ => Raise (Exn TypeError "argument is not iterable")
  end.

(** [l[i]] on a list, negative indices counting from the end. *)
Definition list_index {A} (l : list A) (i : Z) : option A :=
  let n := Z.of_nat (length l) in
  let j := if i <? 0 then i + n else i in
  if (0 <=? j) && (j <? n) then l !! Z.to_nat j else None.

(** [c[x]] *)
Definition py_index (c x : json) : result json :=
  match c with
  | JObj items =>
      match x with
      | JStr k =>
          match assoc k items with
          | Some v => Ok v
          | None => Raise (Exn KeyError k)
          end
      | _ => if is_hashable x then Raise (Exn KeyError "key")
             else Raise (Exn TypeError "unhashable type")
      end
  | JArr l =>
      match as_number x with
      | Some i =>
          match list_index l i with
          | Some v => Ok v
          | None => Raise (Exn IndexError "list index out of range")
          end
      | None => Raise (Exn TypeError "list indices must be integers or slices")
      end
  | JStr s =>
      match as_number x with
      | Some i =>
          match list_index (String.list_ascii_of_string s) i with
          | Some a => Ok (JStr (String a EmptyString))
          | None => Raise (Exn IndexError "string index out of range")
          end
      | None => Raise (Exn TypeError "string indices must be integers")
      end
  | _ => Raise (Exn TypeError "object is not subscriptable")
  end.

(** [c[k]] for a string key [k], and [c[0]]. *)
Definition py_getitem (c : json) (k : string) : result json := py_index c (JStr k).
Definition py_first (c : json) : result json := py_index c (JNum 0).

(** [c.get(k, default)] *)
Definition py_get (c : json) (k : string) (dflt : json) : result json :=
  match c with
  | JObj items => Ok (default dflt (assoc k items))
  | _ => Raise (Exn AttributeError "object has no attribute 'get'")
  end.

Fixpoint str_chars (s : string) : list json :=
  match s with
  | EmptyString => []
  | String c s' => JStr (String c EmptyString) :: str_chars s'
  end.

(** The values a [for] loop over [c] goes through. *)
Definition py_iter (c : json) : result (list json) :=
  match c with
  | JArr l => Ok l
  | JObj items => Ok (JStr ∘ fst <$> items)
  | JStr s => Ok (str_chars s)
  | _ => Raise (Exn TypeError "object is not iterable")
  end.

Definition is_list (v : json) : bool := match v with JArr _ => true | _ => false end.
Definition is_str (v : json) : bool := match v with JStr _ => true | _ => false end.
Definition is_dict (v : json) : bool := match v with JObj _ => true | _ => false end.

(* ===================================================================== *)
(** ** The world: file system, registry, and the trace of actions *)
(* ===================================================================== *)

(** What [json.load] does on a file: the value, a [JSONDecodeError]
    with its message, or another exception from opening or reading. *)
Inductive json_load : Type :=
  | Loaded (v : json)
  | Malformed (msg : string)
  | Unreadable (msg : string).

(** A path of the file system is a directory, or a regular file with
    its executable bit and what reading it as JSON gives. *)
Inductive node : Type :=
  | Dir
  | File (executable : bool) (content : json_load).

(** The value stored in [self.installed] under an install name
    (lines 1297-1308). *)
Record InstalledRecord : Type := mkInstalledRecord {
  r_url : string;
  r_user : string;
  r_name : string;
  r_repo_name : string;
  r_branch : option string;
  r_path : string;
  r_setup_script : option string;
  r_remove_script : option string;
  r_update_script : option string;
  r_check_script : option string
}.

(** What the program does to its surroundings, in order. *)
Inductive action : Type :=
  | ARun (argv : list string) (cwd : option string)
  | ARmtree (path : string)
  | AChmod (path : string)
  | AMkdtemp (path : string)
  | ASaveInstalled
  | AInput (prompt : string)
  | APrint (msg : string)
  | APrintErr (msg : string).

Record World : Type := mkWorld {
  fs : gmap string node;
  (** [self.installed] *)
  installed : gmap string InstalledRecord;
  (** the registry as persisted in [self.installed_file] *)
  installed_file : gmap string InstalledRecord;
  (** the actions so far, latest first *)
  trace : list action
}.

(** [subprocess.CompletedProcess] *)
Record CompletedProcess : Type := mkCompleted {
  returncode : Z;
  stdout : string;
  stderr : string
}.

(** The surroundings the program calls into.  Every answer may depend
    on the world at the time of the call, trace included. *)
Record Host : Type := mkHost {
  (** [urllib.parse._check_bracketed_host] *)
  bracketed_host_ok : string → bool;
  (** [str(v)] on a JSON value *)
  py_str : json → string;
  (** [int(s)]: the number, or [None] where [int] raises [ValueError] *)
  py_int : string → option Z;
  (** how many times a selection prompt is answered at most *)
  prompt_rounds : nat;
  (** [sys.executable] *)
  sys_executable : string;
  (** [os.geteuid() == 0] *)
  is_root : bool;
  (** [subprocess.run(argv, cwd=cwd)]: the completed process or the
      exception raised, and the file system the process leaves *)
  subprocess_run :
    World → list string → option string →
    result CompletedProcess * gmap string node;
  (** the exception [shutil.rmtree(path)] meets, if any *)
  rmtree_error : World → string → option exn;
  (** the exception [os.chmod(path, 0o755)] meets, if any *)
  chmod_error : World → string → option exn;
  (** [input(prompt)] *)
  read_input : World → string → result string;
  (** [tempfile.mkdtemp(prefix=prefix)] *)
  mkdtemp : World → string → string;
  (** what [load_config] sees of the catalog directories *)
  catalog_view : World → CatalogView;
  (** [Path.home()] *)
  home_dir : string
}.

(** [str(v)] and [f'{v}']: a [str] is itself. *)
Definition str_of (host : Host) (v : json) : string :=
  match v with
  | JStr s => s
  | _ => py_str host v
  end.

(** [str(e)] for the [CalledProcessError] of [subprocess.run(check=True)]. *)
Definition called_process_error (host : Host) (argv : list string) (rc : Z) : exn :=
  Exn CalledProcessError
    ("Command '" +:+ py_str host (JArr (JStr <$> argv))
     +:+ "' returned non-zero exit status " +:+ py_str host (JNum rc) +:+ ".").

(** *** Paths *)

(** [Path(p).suffix] of a file name without directory part. *)
Definition path_suffix (name : string) : string :=
  match str_split "." name with
  | [] | [_] => EmptyString
  | EmptyString :: [_] => EmptyString
  | parts =>
      let last := List.last parts EmptyString in
      if str_truthy last then "." +:+ last else EmptyString
  end.

Definition path_exists (w : World) (p : string) : bool :=
  bool_decide (is_Some (fs w !! p)).

Definition path_is_file (w : World) (p : string) : bool :=
  match fs w !! p with
  | Some (File _ _) => true
  | _ => false
  end.

(** [os.access(p, os.X_OK)] *)
Definition path_executable (w : World) (p : string) : bool :=
  match fs w !! p with
  | Some (File x _) => x
  | Some Dir => true
  | None => false
  end.

(** Whether [q] is [p] or lies below it. *)
Definition path_under (p q : string) : bool :=
  String.eqb p q || String.prefix (p +:+ "/") q.

(** The file system without the tree rooted at [p]. *)
Definition remove_tree (p : string) (m : gmap string node) : gmap string node :=
  filter (λ kv, path_under p kv.1 = false) m.

(** The file system after [os.chmod(p, 0o755)]. *)
Definition set_executable (p : string) (m : gmap string node) : gmap string node :=
  match m !! p with
  | Some (File _ c) => <[p := File true c]> m
  | _ => m
  end.

(* ===================================================================== *)
(** ** The monad of the lifecycle operations: state and exceptions *)
(* ===================================================================== *)

Definition M (A : Type) : Type := World → result A * World.

#[global] Instance M_ret : MRet M := λ A a w, (Ok a, w).
#[global] Instance M_bind : MBind M := λ A B k m w,
  match m w with
  | (Ok a, w') => k a w'
  | (Raise e, w') => (Raise e, w')
  end.

Definition get_world : M World := λ w, (Ok w, w).
Definition raise {A} (e : exn) : M A := λ w, (Raise e, w).
Definition lift_result {A} (r : result A) : M A := λ w, (r, w).

Definition record_action (a : action) : M unit := λ w,
  (Ok (), mkWorld (fs w) (installed w) (installed_file w) (a :: trace w)).

Definition set_fs (m : gmap string node) : M unit := λ w,
  (Ok (), mkWorld m (installed w) (installed_file w) (trace w)).

Definition set_installed (reg : gmap string InstalledRecord) : M unit := λ w,
  (Ok (), mkWorld (fs w) reg (installed_file w) (trace w)).

(** [try: body] followed by [except] clauses, each a test on the
    exception and a handler; the first clause that matches runs. *)
Fixpoint select_handler {A} (clauses : list ((exn → bool) * (exn → M A)))
  (e : exn) : option (M A) :=
  match clauses with
  | [] => None
  | (handles, handler) :: rest =>
      if handles e then Some (handler e) else select_handler rest e
  end.

Definition try_excepts {A} (body : M A)
  (clauses : list ((exn → bool) * (exn → M A))) : M A := λ w,
  match body w with
  | (Raise e, w') =>
      match select_handler clauses e with
      | Some h => h w'
      | None => (Raise e, w')
      end
  | r => r
  end.

Definition try_except {A} (body : M A) (handles : exn → bool)
  (handler : exn → M A) : M A := try_excepts body [(handles, handler)].

(** [for x in l: s = body(x, s)] *)
Fixpoint for_each {A S} (l : list A) (body : A → S → M S) (s : S) : M S :=
  match l with
  | [] => mret s
  | x :: l' => s' ← body x s; for_each l' body s'
  end.

(** [try: body finally: cleanup] *)
Definition try_finally {A} (body : M A) (cleanup : M unit) : M A := λ w,
  match body w with
  | (r, w') =>
      match cleanup w' with
      | (Ok _, w'') => (r, w'')
      | (Raise e, w'') => (Raise e, w'')
      end
  end.

Definition when (b : bool) (m : M unit) : M unit :=
  if b then m else mret ().

Definition print (msg : string) : M unit := record_action (APrint msg).
Definition print_err (msg : string) : M unit := record_action (APrintErr msg).

Section Primitives.
Variable host : Host.

(** [subprocess.run(argv, cwd=cwd, check=False)] *)
Definition run (argv : list string) (cwd : option string)
  : M CompletedProcess := λ w,
  let w1 := mkWorld (fs w) (installed w) (installed_file w)
              (ARun argv cwd :: trace w) in
  let '(r, m) := subprocess_run host w argv cwd in
  (r, mkWorld m (installed w1) (installed_file w1) (trace w1)).

(** [subprocess.run(argv, cwd=cwd, check=True)] *)
Definition run_checked (argv : list string) (cwd : option string)
  : M CompletedProcess :=
  r ← run argv cwd;
  if returncode r =? 0 then mret r
  else raise (called_process_error host argv (returncode r)).

(** [shutil.rmtree(p)]: a failing call leaves the tree in place. *)
Definition rmtree (p : string) : M unit := λ w,
  let w1 := mkWorld (fs w) (installed w) (installed_file w)
              (ARmtree p :: trace w) in
  match rmtree_error host w p with
  | Some e => (Raise e, w1)
  | None => (Ok (), mkWorld (remove_tree p (fs w)) (installed w1)
                      (installed_file w1) (trace w1))
  end.

(** [shutil.rmtree(p, ignore_errors=True)]: the errors of the
    deletion, which are [OSError]s, are dropped. *)
Definition rmtree_ignore_errors (p : string) : M unit :=
  try_except (rmtree p) is_OSError (λ _, mret ()).

(** [os.chmod(p, 0o755)] *)
Definition chmod (p : string) : M unit := λ w,
  let w1 := mkWorld (fs w) (installed w) (installed_file w)
              (AChmod p :: trace w) in
  match chmod_error host w p with
  | Some e => (Raise e, w1)
  | None => (Ok (), mkWorld (set_executable p (fs w)) (installed w1)
                      (installed_file w1) (trace w1))
  end.

(** [input(prompt)] *)
Definition input (prompt : string) : M string := λ w,
  (read_input host w prompt,
   mkWorld (fs w) (installed w) (installed_file w) (AInput prompt :: trace w)).

(** [save_installed] (lines 331-334): the registry file takes the
    content of [self.installed]; writing it is taken to succeed. *)
Definition save_installed : M unit := λ w,
  (Ok (), mkWorld (fs w) (installed w) (installed w)
            (ASaveInstalled :: trace w)).
End Primitives.

(* ===================================================================== *)
(** ** Manifest reader: [load_gitpm_json] (gitpm.py, lines 395-415) *)
(* ===================================================================== *)

(** The loop over [marker_files].  The result is the pair
    [(json_data, error_message)]; Python's [None] is [JNull] in the
    first component. *)
Fixpoint load_gitpm_json_from (w : World) (repo_path : string)
  (marker_files : list string) : json * option string :=
  match marker_files with
  | [] => (JNull, None)
  | marker_file :: rest =>
      match fs w !! path_join repo_path marker_file with
      | Some (File _ (Loaded v)) => (v, None)
      | Some (File _ (Malformed e)) =>
          (JNull, Some ("Invalid JSON in " +:+ marker_file +:+ ": " +:+ e))
      | Some (File _ (Unreadable e)) =>
          (JNull, Some ("Error reading " +:+ marker_file +:+ ": " +:+ e))
      | _ => load_gitpm_json_from w repo_path rest
      end
  end.

Definition marker_files : list string := ["gitpm.json"; ".gitpm.json"].

Definition load_gitpm_json (w : World) (repo_path : string)
  : json * option string :=
  load_gitpm_json_from w repo_path marker_files.

(** Truthiness of an optional string ([if json_error:]). *)
Definition opt_truthy (o : option string) : bool :=
  match o with
  | Some s => str_truthy s
  | None => false
  end.

(* ===================================================================== *)
(** ** Dependency resolver (gitpm.py, lines 417-744) *)
(* ===================================================================== *)

(** The fields of the manager object that the operations read. *)
Record Self : Type := mkSelf {
  self_system : bool;
  self_apps_dir : string;
  self_distro : string
}.

(** An entry of the dependency info list: the dictionary with keys
    [name], [url], [branch] and, for an alternative group,
    [alternatives]. *)
Record DepInfo : Type := mkDepInfo {
  dep_name : string;
  dep_url : string;
  dep_branch : option string;
  dep_alternatives : option (list json)
}.

(** The six-tuple [check_dependencies] returns. *)
Record DepReport : Type := mkDepReport {
  all_satisfied : bool;
  missing_system : list json;
  missing_gitpm : list string;
  can_install_system : bool;
  gitpm_dep_info : list DepInfo;
  json_error : option string
}.

Definition bytes_lower : string → string :=
  str_map (λ c, if is_ascii_alpha c && (nat_of_ascii c <? 97)%nat
                then ascii_of_nat (nat_of_ascii c + 32) else c).

Definition is_nil {A} (l : list A) : bool :=
  match l with [] => true | _ => false end.

Section Resolver.
Variable host : Host.
Variable self : Self.

Definition which (package : string) : M bool :=
  r ← run host ["which"; package] None;
  mret (returncode r =? 0).

(** [check_system_package] (lines 417-455) *)
Definition check_system_package (package : json) : M bool :=
  match package with
  | JStr p =>
      try_excepts
        (result ← run host [p; "-v"] None;
         if returncode result =? 0 then mret true
         else if str_truthy (stderr result)
                 && (str_contains "version" (bytes_lower (stderr result))
                     || str_contains "Version" (stderr result))
         then mret true
         else which p)
        [ (λ e, bool_decide (exn_kind_of e = TimeoutExpired)
                || bool_decide (exn_kind_of e = FileNotFoundError),
           λ _, try_except (which p) is_Exception (λ _, mret false));
          (is_Exception, λ _, mret false) ]
  | _ => mret false
  end.

(** [check_package_alternatives] (lines 457-464) *)
Fixpoint check_alternatives_loop (alternatives : list json)
  : M (bool * json) :=
  match alternatives with
  | [] => mret (false, JNull)
  | package :: rest =>
      found ← check_system_package package;
      if found : bool then mret (true, package)
      else check_alternatives_loop rest
  end.

Definition check_package_alternatives (alternatives : json)
  : M (bool * json) :=
  l ← lift_result (py_iter alternatives);
  check_alternatives_loop l.

(** The package to report for a command that is not present (lines
    496-506 and 512-522). *)
Definition package_for (distro_packages command : json) : result json :=
  known ← py_in command distro_packages;
  if known : bool then
    pkg_entry ← py_index distro_packages command;
    if is_list pkg_entry then py_first pkg_entry
    else if is_str pkg_entry then Ok pkg_entry
    else Ok (JStr (py_str host pkg_entry))
  else Ok command.

(** The first of [package_names] that [distro_packages] maps, with
    its value (lines 532-536). *)
Fixpoint first_mapped (distro_packages : json) (package_names : list json)
  : result json :=
  match package_names with
  | [] => Ok JNull
  | pkg_name :: rest =>
      known ← py_in pkg_name distro_packages;
      if known : bool then py_index distro_packages pkg_name
      else first_mapped distro_packages rest
  end.

Definition join_json (sep : string) (l : list json) : result string :=
  strs ← mapM (λ v, match v with
                    | JStr s => Ok s
                    | _ => Raise (Exn TypeError "expected str instance")
                    end) l;
  Ok (str_join sep strs).

(** [check_system_dependencies] (lines 466-581) *)
Definition check_system_dependencies (dependencies : json)
  : M (bool * list json * json) :=
  has_method ← lift_result (py_in (JStr "method") dependencies);
  install_method ←
    (if has_method : bool then lift_result (py_getitem dependencies "method")
     else
       has_distro_method ← lift_result
         (py_in (JStr (self_distro self +:+ "_method")) dependencies);
       if has_distro_method : bool
       then lift_result (py_getitem dependencies (self_distro self +:+ "_method"))
       else mret (JStr ""));
  check_commands ← lift_result (py_get dependencies "check_commands" (JArr []));
  distro_packages ← lift_result (py_get dependencies (self_distro self) (JObj []));
  missing ←
    (if truthy check_commands && is_list check_commands && is_dict distro_packages
     then
       entries ← lift_result (py_iter check_commands);
       for_each entries (λ command_entry missing,
         if is_list command_entry then
           '(is_installed, _) ← check_package_alternatives command_entry;
           if is_installed : bool then mret missing
           else
             primary_command ← lift_result (py_first command_entry);
             pkg ← lift_result (package_for distro_packages primary_command);
             mret (missing ++ [pkg])
         else if is_str command_entry then
           command_found ← check_system_package command_entry;
           if command_found : bool then mret missing
           else
             pkg ← lift_result (package_for distro_packages command_entry);
             mret (missing ++ [pkg])
         else mret missing) []
     else if truthy check_commands && is_dict check_commands then
       match check_commands with
       | JObj items =>
           for_each items (λ '(command, package_names) missing,
             found ← check_system_package (JStr command);
             if found : bool then mret missing
             else
               match package_names with
               | JArr names =>
                   distro_pkg ← lift_result (first_mapped distro_packages names);
                   if truthy distro_pkg then mret (missing ++ [distro_pkg])
                   else
                     first ← lift_result (py_first package_names);
                     mret (missing ++ [first])
               | _ =>
                   known ← lift_result (py_in package_names distro_packages);
                   if known : bool then
                     pkg ← lift_result (py_index distro_packages package_names);
                     mret (missing ++ [pkg])
                   else mret (missing ++ [package_names])
               end) []
       | _ => mret []
       end
     else
       has_distro ← lift_result (py_in (JStr (self_distro self)) dependencies);
       if has_distro : bool then
         distro_deps ← lift_result (py_getitem dependencies (self_distro self));
         match distro_deps with
         | JArr deps =>
             for_each deps (λ dep_entry missing,
               match dep_entry with
               | JStr _ =>
                   found ← check_system_package dep_entry;
                   if found : bool then mret missing
                   else mret (missing ++ [dep_entry])
               | JArr alts =>
                   '(is_installed, _) ← check_package_alternatives dep_entry;
                   if is_installed : bool then mret missing
                   else
                     names ← lift_result (join_json " or " alts);
                     mret (missing ++ [JStr ("(" +:+ names +:+ ")")])
               | _ => mret missing
               end) []
         | JObj items =>
             for_each items (λ '(_, pkg_value) missing,
               if is_str pkg_value then
                 found ← check_system_package pkg_value;
                 if found : bool then mret missing
                 else mret (missing ++ [pkg_value])
               else mret missing) []
         | _ => mret []
         end
       else mret []);
  _ ← (if is_nil missing then mret ()
       else _ ← run host ["sudo"; "-n"; "true"] None; mret ());
  mret (is_nil missing, missing, install_method).
End Resolver.

Section PeerDependencies.
Variable host : Host.
Variable self : Self.

(** [[p.strip() for p in dep.split(',')]] *)
Definition dep_parts (dep : json) : result (list string) :=
  match dep with
  | JStr s => Ok (str_strip <$> str_split "," s)
  | _ => Raise (Exn AttributeError "object has no attribute 'split'")
  end.

(** The name, URL and branch of a dependency descriptor (lines
    599-604, 622-630, 643-652): the declared name if there is one,
    else the repository name parsed from the URL. *)
Definition resolve_dep (parts : list string)
  : result (string * string * option string) :=
  let url := default "" (parts !! 0%nat) in
  let branch := parts !! 1%nat ≫= nonempty in
  match parts !! 2%nat ≫= nonempty with
  | Some name => Ok (name, url, branch)
  | None =>
      '(_, _, repo_name) ← parse_repo_url (bracketed_host_ok host) url;
      Ok (repo_name, url, branch)
  end.

Definition resolved_name (dep : json) : result string :=
  parts ← dep_parts dep;
  '(name, _, _) ← resolve_dep parts;
  Ok name.

(** The names to add to [system_only_deps] for an installed
    dependency (lines 610-614 and 668-673). *)
Definition scope_violation (w : World) (dep_name : string)
  : result (list string) :=
  if negb (self_system self) then
    match installed w !! dep_name with
    | None => Raise (Exn KeyError dep_name)
    | Some info =>
        let '(dep_json, _) := load_gitpm_json w (r_path info) in
        if truthy dep_json then
          so ← py_get dep_json "system_only" (JBool false);
          Ok (if truthy so then [dep_name] else [])
        else Ok []
    end
  else Ok [].

(** The loop over the alternatives of a group (lines 596-615): the
    name of the first alternative that is installed. *)
Fixpoint find_installed_alternative (w : World) (alternatives : list json)
  : result (option string) :=
  match alternatives with
  | [] => Ok None
  | dep :: rest =>
      name ← resolved_name dep;
      if bool_decide (is_Some (installed w !! name)) then Ok (Some name)
      else find_installed_alternative w rest
  end.

(** The three lists [check_gitpm_dependencies] builds. *)
Record PeerState : Type := mkPeerState {
  peer_missing : list string;
  peer_dep_info : list DepInfo;
  peer_system_only : list string
}.

(** The body of the loop over [gitpm_deps] (lines 592-673). *)
Definition check_gitpm_entry (w : World) (dep_entry : json) (st : PeerState)
  : result PeerState :=
  match dep_entry with
  | JArr alternatives =>
      found ← find_installed_alternative w alternatives;
      match found with
      | Some name =>
          violations ← scope_violation w name;
          Ok (mkPeerState (peer_missing st) (peer_dep_info st)
                (peer_system_only st ++ violations))
      | None =>
          primary_dep ← py_first dep_entry;
          parts ← dep_parts primary_dep;
          '(name, url, branch) ← resolve_dep parts;
          Ok (mkPeerState (peer_missing st ++ [name])
                (peer_dep_info st
                   ++ [mkDepInfo name url branch (Some alternatives)])
                (peer_system_only st))
      end
  | JStr _ =>
      parts ← dep_parts dep_entry;
      '(name, url, branch) ← resolve_dep parts;
      if bool_decide (is_Some (installed w !! name)) then
        violations ← scope_violation w name;
        Ok (mkPeerState (peer_missing st) (peer_dep_info st)
              (peer_system_only st ++ violations))
      else
        Ok (mkPeerState (peer_missing st ++ [name])
              (peer_dep_info st ++ [mkDepInfo name url branch None])
              (peer_system_only st))
  | _ => Ok st
  end.

Fixpoint check_gitpm_entries (w : World) (entries : list json) (st : PeerState)
  : result PeerState :=
  match entries with
  | [] => Ok st
  | dep_entry :: rest =>
      st' ← check_gitpm_entry w dep_entry st;
      check_gitpm_entries w rest st'
  end.

(** [check_gitpm_dependencies] (lines 583-675): it only reads the
    registry and the manifests of installed dependencies. *)
Definition check_gitpm_dependencies (w : World) (gitpm_deps : json)
  : result (bool * list string * list DepInfo * list string) :=
  entries ← py_iter gitpm_deps;
  st ← check_gitpm_entries w entries (mkPeerState [] [] []);
  Ok (is_nil (peer_missing st), peer_missing st, peer_dep_info st,
      peer_system_only st).

Definition scope_error : string :=
  "This package requires system-wide installation (use --system flag)".

Definition installed_scope_error (system_only_deps : list string) : string :=
  "Installed dependencies require system install: "
  +:+ str_join ", " system_only_deps
  +:+ ". This package must be installed with --system flag.".

Definition fatal_report (msg : string) : DepReport :=
  mkDepReport false [] [] false [] (Some msg).

Definition empty_report : DepReport :=
  mkDepReport true [] [] false [] None.

(** [check_dependencies] (lines 677-744) *)
Definition check_dependencies (repo_path : string) : M DepReport :=
  w ← get_world;
  let '(gitpm_json, json_err) := load_gitpm_json w repo_path in
  if opt_truthy json_err then
    mret (mkDepReport false [] [] false [] json_err)
  else if negb (truthy gitpm_json) then mret empty_report
  else
    has_deps ← lift_result (py_in (JStr "dependencies") gitpm_json);
    if negb has_deps then mret empty_report
    else
      deps ← lift_result (py_getitem gitpm_json "dependencies");
      has_system ← lift_result (py_in (JStr "system") deps);
      '(missing_sys, can_install) ←
        (if has_system : bool then
           system_deps ← lift_result (py_getitem deps "system");
           '(_, missing, _) ← check_system_dependencies host self system_deps;
           if negb (is_nil missing) && self_system self
           then mret (missing, true)
           else if negb (is_nil missing) && negb (self_system self) then
             sudo_check ← run host ["sudo"; "-n"; "true"] None;
             mret (missing, (returncode sudo_check =? 0) || is_root host)
           else mret (missing, false)
         else mret ([], false));
      has_gitpm ← lift_result (py_in (JStr "gitpm") deps);
      '(missing_peer, dep_info, system_only_deps) ←
        (if has_gitpm : bool then
           gitpm_deps ← lift_result (py_getitem deps "gitpm");
           w' ← get_world;
           '(_, missing, info, system_only) ←
             lift_result (check_gitpm_dependencies w' gitpm_deps);
           mret (missing, info, system_only)
         else mret ([], [], []));
      system_only ← lift_result (py_get gitpm_json "system_only" (JBool false));
      if truthy system_only && negb (self_system self) then
        mret (fatal_report scope_error)
      else if negb (is_nil system_only_deps) && negb (self_system self) then
        mret (fatal_report (installed_scope_error system_only_deps))
      else
        mret (mkDepReport (is_nil missing_sys && is_nil missing_peer)
                missing_sys missing_peer can_install dep_info None).
End PeerDependencies.

(* ===================================================================== *)
(** ** Remote verifier (gitpm.py, lines 775-920) *)
(* ===================================================================== *)

Definition tab : ascii := "009"%char.
Definition newline : ascii := "010"%char.

(** Whether a line of the [ls-remote] output is not blank and carries
    exactly [ref] after its first tab (lines 807-814 and 821-826). *)
Definition line_has_ref (ref line : string) : bool :=
  str_truthy (str_strip line) &&
  match str_split tab line with
  | _ :: r :: _ => String.eqb r ref
  | _ => false
  end.

(** [branch_refs] and [tag_refs]: the lines of the output with that ref. *)
Definition matching_refs (remote_refs ref : string) : list string :=
  List.filter (line_has_ref ref) (str_split newline remote_refs).

(** The branch check on the output of a successful [ls-remote] (lines
    800-834). *)
Definition verify_branch (remote_refs branch : string) : bool * string :=
  if is_nil (matching_refs remote_refs ("refs/heads/" +:+ branch)) then
    if is_nil (matching_refs remote_refs ("refs/tags/" +:+ branch)) then
      (false, "Branch '" +:+ branch +:+ "' not found in repository")
    else
      (false, "'" +:+ branch
              +:+ "' exists as a tag, not a branch. Please use a branch name.")
  else (true, "").

(** What [verify_repo] answers once [ls-remote] has completed (lines
    790-834). *)
Definition verify_completed (result : CompletedProcess) (branch : option string)
  : bool * string :=
  if negb (returncode result =? 0) then
    let error_msg :=
      if str_truthy (stderr result) then str_strip (stderr result)
      else "Unknown error" in
    let lowered := str_lower error_msg in
    if str_contains "not found" lowered || str_contains "does not exist" lowered
    then (false, "Repository not found or not accessible: " +:+ error_msg)
    else if str_contains "permission denied" lowered
            || str_contains "authentication" lowered
    then (false, "Permission denied or authentication required: " +:+ error_msg)
    else (false, "Error accessing repository: " +:+ error_msg)
  else
    match branch with
    | Some b => if str_truthy b then verify_branch (stdout result) b else (true, "")
    | None => (true, "")
    end.

Definition has_kind (k : exn_kind) (e : exn) : bool :=
  bool_decide (exn_kind_of e = k).

Section Verifier.
Variable host : Host.

(** [verify_repo] (lines 775-841) *)
Definition verify_repo (repo_url : string) (branch : option string)
  : M (bool * string) :=
  try_excepts
    (result ← run host ["git"; "ls-remote"; "--heads"; "--tags"; repo_url] None;
     mret (verify_completed result branch))
    [ (has_kind TimeoutExpired, λ _,
         mret (false, "Timeout while checking repository (network may be slow or repository unreachable)"));
      (has_kind FileNotFoundError, λ _,
         mret (false, "Git is not installed or not in PATH"));
      (is_Exception, λ e,
         mret (false, "Unexpected error while verifying repository: "
                      +:+ exn_str e)) ].

(** [tempfile.mkdtemp(prefix=prefix)] *)
Definition make_temp_dir (prefix : string) : M string := λ w,
  let p := mkdtemp host w prefix in
  (Ok p, mkWorld (<[p := Dir]> (fs w)) (installed w) (installed_file w)
           (AMkdtemp p :: trace w)).

Definition compat_markers : list string := [".gitpm"; "gitpm.json"; ".gitpm.json"].

Definition shallow_clone_cmd (repo_url dest : string) (branch : option string)
  : list string :=
  ["git"; "clone"; "--depth"; "1"; "--no-checkout"; repo_url; dest]
  ++ (if opt_truthy branch then ["--branch"; default "" branch] else []).

(** [s[:n]] *)
Fixpoint str_take (n : nat) (s : string) : string :=
  match n, s with
  | S n', String c s' => String c (str_take n' s')
  | _, _ => EmptyString
  end.

(** [check_repo_compatibility] (lines 843-920) *)
Definition check_repo_compatibility (repo_url : string) (branch : option string)
  : M (bool * string) := λ w0,
  let body : M (bool * string) :=
    temp_dir ← make_temp_dir "gitpm_check_";
    let temp_repo_path := path_join temp_dir "repo" in
    clone_result ←
      run host (shallow_clone_cmd repo_url temp_repo_path branch) None;
    clone_result ←
      (if negb (returncode clone_result =? 0) && opt_truthy branch
       then run host (shallow_clone_cmd repo_url temp_repo_path None) None
       else mret clone_result);
    if negb (returncode clone_result =? 0) then
      mret (false, "Could not check compatibility: "
                   +:+ str_take 100 (stderr clone_result))
    else
      _ ← run host ["git"; "checkout"; "HEAD"; "--"] (Some temp_repo_path);
      w ← get_world;
      if path_exists w temp_repo_path
         && existsb (λ marker, path_is_file w (path_join temp_repo_path marker))
              compat_markers
      then mret (true, "")
      else mret (false,
             "Repository is not marked as gitpm-compatible (missing marker file: "
             +:+ str_join ", " compat_markers +:+ ")") in
  let guarded : M (bool * string) :=
    try_excepts body
      [ (has_kind TimeoutExpired, λ _,
           mret (false, "Timeout while checking repository compatibility"));
        (is_Exception, λ e,
           mret (false, "Error checking compatibility: " +:+ exn_str e)) ] in
  (* the temporary directory is the one [mkdtemp] made in this call *)
  let temp_dir := mkdtemp host w0 "gitpm_check_" in
  try_finally guarded
    (w ← get_world;
     if path_exists w temp_dir
     then try_except (rmtree host temp_dir) is_Exception (λ _, mret ())
     else mret ()) w0.
End Verifier.

(* ===================================================================== *)
(** ** Hook discovery and execution (gitpm.py, lines 214-318) *)
(* ===================================================================== *)

(** The dictionary [check_scripts] returns.  Its [uninstall] entry is
    initialised to [None] and never assigned. *)
Record Scripts : Type := mkScripts {
  script_setup : option string;
  script_remove : option string;
  script_uninstall : option string;
  script_update : option string;
  script_check : option string
}.

(** The candidate names of one hook kind: the scope-specific ones
    first, then the generic ones (lines 230-259). *)
Definition hook_names (prefix a b : string) : list string :=
  [a +:+ "-" +:+ prefix +:+ ".sh"; b +:+ "-" +:+ prefix +:+ ".sh";
   a +:+ "-" +:+ prefix +:+ ".py"; b +:+ "-" +:+ prefix +:+ ".py";
   a +:+ ".sh"; b +:+ ".sh"; a +:+ ".py"; b +:+ ".py"].

Definition is_shell_suffix (sfx : string) : bool :=
  String.eqb sfx ".sh" || String.eqb sfx "".

Definition suffix_of (p : string) : string := path_suffix (last_segment "/" p).

(** [x or y] on optional [Path]s (a [Path] is always true). *)
Definition opt_or (x y : option string) : option string :=
  match x with
  | Some _ => x
  | None => y
  end.

Section Hooks.
Variable host : Host.
Variable self : Self.

Definition scope_prefix : string :=
  if self_system self then "system" else "user".

(** [os.chmod] inside [try: ... except Exception: pass] *)
Definition chmod_best_effort (p : string) : M unit :=
  try_except (chmod host p) is_Exception (λ _, mret ()).

(** The inner loop of [check_scripts] (lines 262-274). *)
Fixpoint find_script (repo_path : string) (names : list string)
  : M (option string) :=
  match names with
  | [] => mret None
  | name :: rest =>
      let script_path := path_join repo_path name in
      w ← get_world;
      if path_exists w script_path && path_is_file w script_path then
        _ ← when (is_shell_suffix (path_suffix name))
              (chmod_best_effort script_path);
        w' ← get_world;
        if String.eqb (path_suffix name) ".py" || path_executable w' script_path
        then mret (Some script_path)
        else find_script repo_path rest
      else find_script repo_path rest
  end.

(** [check_scripts] (lines 214-276) *)
Definition check_scripts (repo_path : string) : M Scripts :=
  setup ← find_script repo_path (hook_names scope_prefix "setup" "install");
  remove ← find_script repo_path (hook_names scope_prefix "remove" "uninstall");
  update ← find_script repo_path (hook_names scope_prefix "update" "upgrade");
  check ← find_script repo_path (hook_names scope_prefix "check" "check-updates");
  mret (mkScripts setup remove None update check).

(** The body of the [try] of [run_script] up to the result (lines
    284-307). *)
Definition run_script_process (script_path repo_path : string)
  : M CompletedProcess :=
  _ ← when (is_shell_suffix (suffix_of script_path))
        (chmod_best_effort script_path);
  let cmd :=
    if String.eqb (suffix_of script_path) ".py"
    then [sys_executable host; script_path] else ["bash"; script_path] in
  result ← run host cmd (Some repo_path);
  _ ← when (str_truthy (stdout result)) (print (stdout result));
  _ ← when (str_truthy (stderr result) && negb (returncode result =? 0))
        (print_err (stderr result));
  mret result.

Definition script_error (script_path : string) (e : exn) : M unit :=
  print_err ("Error running script " +:+ script_path +:+ ": " +:+ exn_str e).

(** [run_script(script_path, repo_path)]: success is exit status 0. *)
Definition run_script (script_path repo_path : string) : M bool :=
  try_except
    (result ← run_script_process script_path repo_path;
     mret (returncode result =? 0))
    is_Exception (λ e, _ ← script_error script_path e; mret false).

(** [run_script(script_path, repo_path, return_exit_code=True)] *)
Definition run_script_exit_code (script_path repo_path : string) : M Z :=
  try_except
    (result ← run_script_process script_path repo_path;
     mret (returncode result))
    is_Exception (λ e, _ ← script_error script_path e; mret 255).
End Hooks.

(* ===================================================================== *)
(** ** Lifecycle: [remove] and [update] (gitpm.py, lines 1315-1523) *)
(* ===================================================================== *)

Definition branch_info (branch : option string) : string :=
  match branch with
  | Some b => if str_truthy b then " (branch: " +:+ b +:+ ")" else ""
  | None => ""
  end.

(** [f'origin/{branch}' if branch else 'origin/HEAD'] *)
Definition remote_ref_of (branch : option string) : string :=
  match branch with
  | Some b => if str_truthy b then "origin/" +:+ b else "origin/HEAD"
  | None => "origin/HEAD"
  end.

Section Lifecycle.
Variable host : Host.
Variable self : Self.

(** [del self.installed[name]] *)
Definition del_installed (name : string) : M unit :=
  w ← get_world;
  match installed w !! name with
  | Some _ => set_installed (delete name (installed w))
  | None => raise (Exn KeyError name)
  end.

(** [remove] (lines 1478-1523) *)
Definition remove (name : string) (skip_uninstall : bool) : M bool :=
  w ← get_world;
  match installed w !! name with
  | None =>
      _ ← print ("Error: '" +:+ name +:+ "' is not installed");
      mret false
  | Some repo_info =>
      let repo_path := r_path repo_info in
      if negb (path_exists w repo_path) then
        _ ← print ("Warning: Installation path " +:+ repo_path
                   +:+ " does not exist");
        _ ← del_installed name;
        _ ← save_installed;
        mret true
      else
        _ ← when (negb skip_uninstall)
              (scripts ← check_scripts host self repo_path;
               match opt_or (script_remove scripts) (script_uninstall scripts) with
               | Some remove_script =>
                   _ ← print ("Running removal script: " +:+ remove_script);
                   _ ← run_script host remove_script repo_path;
                   mret ()
               | None =>
                   if opt_truthy (r_remove_script repo_info) then
                     let remove_script := default "" (r_remove_script repo_info) in
                     w' ← get_world;
                     when (path_exists w' remove_script)
                       (_ ← print ("Running removal script: " +:+ remove_script);
                        _ ← run_script host remove_script repo_path;
                        mret ())
                   else mret ()
               end);
        removed ← try_except
          (_ ← rmtree host repo_path;
           _ ← print ("Removed " +:+ repo_path);
           mret true)
          is_Exception
          (λ e, _ ← print_err ("Error removing directory: " +:+ exn_str e);
                mret false);
        if removed : bool then
          _ ← del_installed name;
          _ ← save_installed;
          _ ← print ("Successfully removed '" +:+ name +:+ "'");
          mret true
        else mret false
  end.

Definition git (args : list string) (repo_path : string) : M CompletedProcess :=
  run host ("git" :: args) (Some repo_path).

Definition git_checked (args : list string) (repo_path : string)
  : M CompletedProcess :=
  run_checked host ("git" :: args) (Some repo_path).

(** [self.installed[name][...] = ...] for the hook paths (lines
    1451-1454). *)
Definition refresh_hook_paths (name : string) (scripts : Scripts) : M unit :=
  w ← get_world;
  match installed w !! name with
  | None => raise (Exn KeyError name)
  | Some r =>
      let r1 :=
        if bool_decide (is_Some (script_update scripts))
        then mkInstalledRecord (r_url r) (r_user r) (r_name r) (r_repo_name r)
               (r_branch r) (r_path r) (r_setup_script r) (r_remove_script r)
               (script_update scripts) (r_check_script r)
        else r in
      let r2 :=
        if bool_decide (is_Some (script_check scripts))
        then mkInstalledRecord (r_url r1) (r_user r1) (r_name r1)
               (r_repo_name r1) (r_branch r1) (r_path r1) (r_setup_script r1)
               (r_remove_script r1) (r_update_script r1) (script_check scripts)
        else r1 in
      if bool_decide (is_Some (script_update scripts))
         || bool_decide (is_Some (script_check scripts))
      then _ ← set_installed (<[name := r2]> (installed w)); save_installed
      else mret ()
  end.

(** The branch [if name:] of [update] (lines 1320-1463). *)
Definition update_one (name : string) (check_only : bool) : M bool :=
  w ← get_world;
  match installed w !! name with
  | None =>
      _ ← print ("Error: '" +:+ name +:+ "' is not installed");
      mret false
  | Some repo_info =>
      let repo_path := r_path repo_info in
      if negb (path_exists w repo_path) then
        _ ← print ("Error: Installation path " +:+ repo_path
                   +:+ " does not exist");
        mret false
      else
        let branch := r_branch repo_info in
        _ ← print (if check_only
                   then "Checking for updates: " +:+ name +:+ "..."
                   else "Updating " +:+ name +:+ "...");
        try_except
          (_ ← git_checked ["fetch"; "origin"] repo_path;
           head ← git ["rev-parse"; "HEAD"] repo_path;
           let current_commit := str_strip (stdout head) in
           let remote_ref := remote_ref_of branch in
           remote ← git ["rev-parse"; remote_ref] repo_path;
           let remote_commit := str_strip (stdout remote) in
           let differ := negb (String.eqb current_commit remote_commit) in
           scripts ← check_scripts host self repo_path;
           updates_available ←
             match script_check scripts with
             | Some check =>
                 _ ← print ("Running check script: " +:+ check);
                 check_exit_code ← run_script_exit_code host check repo_path;
                 if check_exit_code =? 1 then mret true
                 else if check_exit_code =? 0 then mret false
                 else
                   _ ← print_err ("Warning: Check script returned error code "
                                  +:+ py_str host (JNum check_exit_code));
                   mret differ
             | None => mret differ
             end;
           if negb updates_available then
             _ ← print ("'" +:+ name +:+ "' is already up to date");
             mret true
           else if check_only then
             _ ← print ("Update available for '" +:+ name +:+ "'");
             mret true
           else
             _ ← when (opt_truthy branch)
                   (_ ← git_checked ["checkout"; default "" branch] repo_path;
                    mret ());
             status_result ← git ["status"; "--porcelain"] repo_path;
             _ ← (if str_truthy (str_strip (stdout status_result)) then
                    _ ← print ("Warning: Local changes detected in '" +:+ name
                               +:+ "'. Resetting to remote state...");
                    _ ← git_checked ["reset"; "--hard"; remote_ref_of branch] repo_path;
                    _ ← git_checked ["clean"; "-fd"] repo_path;
                    mret ()
                  else
                    _ ← git_checked ["pull"] repo_path;
                    mret ());
             scripts ← check_scripts host self repo_path;
             _ ← match script_update scripts, script_setup scripts with
                 | Some upd, _ =>
                     _ ← print ("Running update script: " +:+ upd);
                     ok ← run_script host upd repo_path;
                     when (negb ok)
                       (print "Warning: Update script failed, but repository was updated.")
                 | None, Some setup =>
                     _ ← print ("Re-running setup script: " +:+ setup);
                     _ ← run_script host setup repo_path;
                     mret ()
                 | None, None => mret ()
                 end;
             _ ← refresh_hook_paths name scripts;
             _ ← print ("Successfully updated '" +:+ name +:+ "'"
                        +:+ branch_info branch);
             mret true)
          (has_kind CalledProcessError)
          (λ e, _ ← print_err ("Error updating '" +:+ name +:+ "': "
                               +:+ exn_str e);
                mret false)
  end.

(** [update] (lines 1315-1476).  [depth] is the number of nested
    calls Python still allows: the loop over all packages calls
    [update] again for every key, and for the empty key that call
    takes the same branch. *)
Fixpoint update (depth : nat) (name : option string) (check_only : bool)
  : M bool :=
  match depth with
  | O => raise (Exn OtherException "maximum recursion depth exceeded")
  | S depth' =>
      if opt_truthy name then update_one (default "" name) check_only
      else
        w ← get_world;
        if bool_decide (installed w = ∅) then
          _ ← print "No packages installed.";
          mret true
        else
          _ ← print ("Updating " +:+ py_str host (JNum (Z.of_nat (size (installed w))))
                     +:+ " package(s)...");
          for_each (map_to_list (installed w)).*1
            (λ name success,
               ok ← update depth' (Some name) false;
               mret (if ok : bool then success else false))
            true
  end.
End Lifecycle.

(* ===================================================================== *)
(** ** Source catalog, read: [load_config] (gitpm.py, lines 37-120) *)
(* ===================================================================== *)

Section LoadConfig.
Variable host : Host.
Variable self : Self.

(** Lines 85-91: no catalog file was found. *)
Definition no_config_files : M (list RepoEntry) :=
  _ ← print "Error: No config files found";
  _ ← print "Please create a config file in one of these locations:";
  _ ← print ("  - " +:+ path_join (home_dir host) ".config/gitpm/repos.conf"
             +:+ " (user)");
  _ ← print "  - /etc/xdg/gitpm/repos.conf (system)";
  _ ← print "Format: url or url,branch,name";
  raise (Exn SystemExit "1").

(** The body of the loop over the catalog files (lines 94-118). *)
Definition read_config_file (view : CatalogView) (config_file : string)
  (repos : list RepoEntry) : M (list RepoEntry) :=
  match cat_lines view config_file with
  | Some lines =>
      mret (repos
            ++ omap (parse_config_line (source_label_of config_file)) lines)
  | None =>
      _ ← print_err ("Warning: Could not read config file " +:+ config_file
                     +:+ ": " +:+ cat_error view config_file);
      mret repos
  end.

(** [load_config] (lines 37-120).  The catalog directories are
    looked at once, as they are when the call starts. *)
Definition load_config : M (list RepoEntry) :=
  w ← get_world;
  let view := catalog_view host w in
  match find_config_files view (self_system self) (home_dir host) with
  | [] => no_config_files
  | config_files => for_each config_files (read_config_file view) []
  end.
End LoadConfig.

(* ===================================================================== *)
(** ** Lifecycle: [install] (gitpm.py, lines 162-212 and 922-1313) *)
(* ===================================================================== *)

(** A candidate offered by [prompt_selection]: the dictionary with keys
    [url], [user], [name], [repo_name] and [branch]. *)
Record Candidate : Type := mkCandidate {
  cand_url : string;
  cand_user : string;
  cand_name : string;
  cand_repo_name : string;
  cand_branch : option string
}.

Fixpoint str_repeat (c : ascii) (n : nat) : string :=
  match n with
  | O => EmptyString
  | S n' => String c (str_repeat c n')
  end.

Section Install.
Variable host : Host.
Variable self : Self.

Definition show_nat (n : nat) : string := py_str host (JNum (Z.of_nat n)).

(** [find_repos_by_name] (lines 162-185) *)
Definition find_repos_by_name (name : string) : M (list Candidate) :=
  repos ← load_config host self;
  for_each repos (λ repo_entry matches,
    '(_, user, repo_name) ← lift_result
      (parse_repo_url (bracketed_host_ok host) (entry_url repo_entry));
    let display_name :=
      match entry_name repo_entry with
      | Some n => if str_truthy n then n else repo_name
      | None => repo_name
      end in
    if String.eqb (str_lower display_name) (str_lower name)
    then mret (matches ++ [mkCandidate (entry_url repo_entry) user display_name
                             repo_name (entry_branch repo_entry)])
    else mret matches) [].

(** The [while True] loop of [prompt_selection] (lines 202-212);
    [None] when the loop goes round again. *)
Definition prompt_round (options : list Candidate)
  : M (option (option Candidate)) :=
  try_except
    (answer ← input host ("Select (1-" +:+ show_nat (length options) +:+ "): ");
     match py_int host (str_strip answer) with
     | None => raise (Exn ValueError "invalid literal for int()")
     | Some n =>
         let idx := n - 1 in
         if (0 <=? idx) && (idx <? Z.of_nat (length options))
         then mret (Some (options !! Z.to_nat idx))
         else
           _ ← print ("Please enter a number between 1 and "
                      +:+ show_nat (length options));
           mret None
     end)
    (λ e, has_kind ValueError e || has_kind KeyboardInterrupt e)
    (λ _, _ ← print (String newline "Cancelled."); mret (Some None)).

Fixpoint prompt_loop (rounds : nat) (options : list Candidate)
  : M (option Candidate) :=
  match rounds with
  | O => raise (Exn Unfinished "selection prompt")
  | S rounds' =>
      r ← prompt_round options;
      match r with
      | Some selected => mret selected
      | None => prompt_loop rounds' options
      end
  end.

Definition print_option (i : nat) (option : Candidate) : M unit :=
  _ ← print (show_nat i +:+ ". " +:+ cand_user option +:+ "/"
             +:+ cand_name option
             +:+ (if opt_truthy (cand_branch option)
                  then " [branch: " +:+ default "" (cand_branch option) +:+ "]"
                  else ""));
  print ("   " +:+ cand_url option).

(** [prompt_selection] (lines 187-212) *)
Definition prompt_selection (options : list Candidate) (prompt_text : string)
  : M (option Candidate) :=
  match options with
  | [] => mret None
  | [only] => mret (Some only)
  | _ =>
      _ ← print (String newline prompt_text);
      _ ← print (str_repeat "-" 80);
      _ ← for_each (imap (λ i o, (S i, o)) options)
            (λ '(i, o) _, print_option i o) ();
      _ ← print (str_repeat "-" 80);
      prompt_loop (prompt_rounds host) options
  end.

(** The clean-up written out at lines 1112-1118, 1182-1188,
    1246-1252, 1264-1270 and 1275-1281. *)
Definition cleanup_clone (cloned : bool) (repo_path : string) : M unit :=
  w ← get_world;
  when (cloned && path_exists w repo_path)
    (try_except
       (_ ← rmtree host repo_path;
        print_err ("Cleaned up cloned directory: " +:+ repo_path))
       is_Exception
       (λ e, print_err ("Warning: Could not clean up directory " +:+ repo_path
                        +:+ ": " +:+ exn_str e))).

(** The clean-up at lines 1225-1227. *)
Definition cleanup_clone_ignoring_errors (cloned : bool) (repo_path : string)
  : M unit :=
  w ← get_world;
  when (cloned && path_exists w repo_path)
    (_ ← rmtree_ignore_errors host repo_path;
     print_err ("Cleaned up cloned directory: " +:+ repo_path)).

(** The candidate built from one alternative (lines 1155-1173). *)
Definition alternative_option (alt_dep : json) : result Candidate :=
  parts ← dep_parts alt_dep;
  let raw := default "" (parts !! 0%nat) in
  '(alt_url_full, alt_user, alt_repo) ←
    parse_repo_url (bracketed_host_ok host) raw;
  let alt_url := if str_truthy alt_url_full then alt_url_full else raw in
  let alt_branch := parts !! 1%nat ≫= nonempty in
  match parts !! 2%nat ≫= nonempty with
  | Some alt_name => Ok (mkCandidate alt_url alt_user alt_name alt_repo alt_branch)
  | None => Ok (mkCandidate alt_url alt_user alt_repo alt_repo alt_branch)
  end.

(** The probe of a dependency's manifest before it is installed
    (lines 1204-1230): [true] when the parent install returns
    [False] from inside it. *)
Definition dependency_scope_abort (cloned : bool) (repo_path : string)
  (dep_name dep_url : string) (dep_branch : option string) : M bool :=
  '(is_compatible, _) ← check_repo_compatibility host dep_url dep_branch;
  if is_compatible : bool then
    temp_dir ← make_temp_dir host "gitpm_check_dep_";
    let temp_repo_path := path_join temp_dir "repo" in
    try_finally
      (_ ← run host (shallow_clone_cmd dep_url temp_repo_path dep_branch) None;
       _ ← run host ["git"; "checkout"; "HEAD"; "--"] (Some temp_repo_path);
       w ← get_world;
       let '(dep_json, _) := load_gitpm_json w temp_repo_path in
       system_only ←
         (if truthy dep_json
          then lift_result (py_get dep_json "system_only" (JBool false))
          else mret (JBool false));
       if truthy dep_json && truthy system_only && negb (self_system self) then
         _ ← print_err ("Error: Dependency '" +:+ dep_name
                        +:+ "' requires system-wide installation");
         _ ← print_err ("Please install this package with --system flag, or install '"
                        +:+ dep_name +:+ "' as system first");
         _ ← rmtree_ignore_errors host temp_dir;
         _ ← cleanup_clone_ignoring_errors cloned repo_path;
         mret true
       else mret false)
      (rmtree_ignore_errors host temp_dir)
  else mret false.

Section AfterClone.
(** [self.install(dep_name, skip_compatibility_check=False,
    skip_dependency_check=True)] *)
Variable install_dependency : string → M bool.

Variable repo_url user repo_name install_name repo_path : string.
Variable branch : option string.
Definition cloned : bool := true.

(** The loop over [gitpm_dep_info] (lines 1149-1253): [false] when
    [install] returns [False] from inside the loop. *)
Fixpoint install_peer_dependencies (deps : list DepInfo) : M bool :=
  match deps with
  | [] => mret true
  | dep :: rest =>
      chosen ←
        match dep_alternatives dep with
        | Some ((_ :: _) as alternatives) =>
            options ← lift_result (mapM alternative_option alternatives);
            selected ← prompt_selection options
              "Multiple alternatives available for dependency. Choose one:";
            match selected with
            | None =>
                _ ← print_err "Error: No alternative selected for dependency";
                _ ← cleanup_clone cloned repo_path;
                mret None
            | Some sel =>
                mret (Some (cand_name sel, cand_url sel, cand_branch sel))
            end
        | _ => mret (Some (dep_name dep, dep_url dep, dep_branch dep))
        end;
      match chosen with
      | None => mret false
      | Some (name, url, dbranch) =>
          abort ← dependency_scope_abort cloned repo_path name url dbranch;
          if abort : bool then mret false
          else
            _ ← print ("Installing dependency: " +:+ name);
            ok ← install_dependency name;
            if ok : bool then install_peer_dependencies rest
            else
              _ ← print_err ("Error: Failed to install dependency '"
                             +:+ name +:+ "'");
              _ ← cleanup_clone cloned repo_path;
              mret false
      end
  end.

(** Lines 1130-1131: the pair that [load_gitpm_json] returns is
    tested as if it were the manifest.  The pair is true, and
    ['dependencies' in pair] compares the string with its two
    components; when one is equal, [pair['dependencies']] raises
    [TypeError].  Either way lines 1132-1144, the call of
    [install_system_packages], are never reached. *)
Definition try_install_system_packages : M unit :=
  w ← get_world;
  let '(data, err) := load_gitpm_json w repo_path in
  if json_eqb (JStr "dependencies") data
     || bool_decide (err = Some "dependencies")
  then raise (Exn TypeError "tuple indices must be integers or slices, not str")
  else mret ().

(** Lines 1121-1282: what is done about unmet dependencies; [false]
    when [install] returns [False] there. *)
Definition resolve_missing (report : DepReport) : M bool :=
  _ ← print "Missing dependencies detected:";
  _ ← when (negb (is_nil (missing_system report)))
        (names ← lift_result (join_json ", " (missing_system report));
         print ("  System packages: " +:+ names));
  _ ← when (negb (is_nil (missing_gitpm report)))
        (print ("  GitPM packages: " +:+ str_join ", " (missing_gitpm report)));
  _ ← when (negb (is_nil (missing_system report)) && can_install_system report)
        try_install_system_packages;
  after ←
    (if negb (is_nil (missing_gitpm report))
        && negb (is_nil (gitpm_dep_info report))
     then
       _ ← print (String newline "Installing missing GitPM dependencies: "
                  +:+ str_join ", " (missing_gitpm report));
       done ← install_peer_dependencies (gitpm_dep_info report);
       if done : bool then
         again ← check_dependencies host self repo_path;
         mret (Some (all_satisfied again, missing_system again))
       else mret None
     else mret (Some (all_satisfied report, missing_system report)));
  match after with
  | None => mret false
  | Some (deps_satisfied, still_missing) =>
      if negb deps_satisfied then
        if negb (is_nil still_missing) && negb (can_install_system report) then
          _ ← print_err (String newline "Error: Missing system packages and cannot install them (no sudo access)");
          _ ← print_err "Please install the following packages manually:";
          _ ← for_each still_missing
                (λ pkg _, print_err ("  - " +:+ str_of host pkg)) ();
          _ ← cleanup_clone cloned repo_path;
          mret false
        else if negb (is_nil still_missing) then
          _ ← print_err (String newline "Error: Some system packages could not be installed");
          _ ← cleanup_clone cloned repo_path;
          mret false
        else mret true
      else mret true
  end.

(** Lines 1287-1313: the setup hook and the registration. *)
Definition register_installation : M bool :=
  scripts ← check_scripts host self repo_path;
  _ ← match script_setup scripts with
      | Some setup =>
          _ ← print ("Running setup script: " +:+ setup);
          ok ← run_script host setup repo_path;
          when (negb ok)
            (print "Warning: Setup script failed, but repository was cloned.")
      | None => mret ()
      end;
  w ← get_world;
  _ ← set_installed
        (<[install_name :=
             mkInstalledRecord repo_url user install_name repo_name branch
               repo_path (script_setup scripts) (script_remove scripts)
               (script_update scripts) (script_check scripts)]>
           (installed w));
  _ ← save_installed;
  _ ← print ("Successfully installed '" +:+ install_name +:+ "'"
             +:+ branch_info branch);
  mret true.

(** [install] from the dependency check on (lines 1102-1313), that
    is once [git clone] has succeeded. *)
Definition install_after_clone (skip_dependency_check : bool) : M bool :=
  if skip_dependency_check then register_installation
  else
    _ ← print "Checking dependencies...";
    report ← check_dependencies host self repo_path;
    if opt_truthy (json_error report) then
      _ ← print_err ("Error: " +:+ default "" (json_error report));
      _ ← cleanup_clone cloned repo_path;
      mret false
    else
      proceed ←
        (if negb (all_satisfied report) then resolve_missing report
         else mret true);
      if proceed : bool then
        _ ← print "All dependencies satisfied";
        register_installation
      else mret false.
End AfterClone.

(** The checkout of the declared branch after the clone (lines
    997-1095); nothing in it is fatal. *)
Definition checkout_branch (repo_path b : string) : M unit :=
  _ ← print ("Checking out branch '" +:+ b +:+ "'...");
  try_except
    (_ ← git host ["fetch"; "origin"] repo_path;
     local_branches ← git host ["branch"; "--list"; b] repo_path;
     remote_branches ←
       git host ["branch"; "-r"; "--list"; "origin/" +:+ b] repo_path;
     let has_local := str_truthy (str_strip (stdout local_branches)) in
     let has_remote := str_truthy (str_strip (stdout remote_branches)) in
     checkout_result ←
       (if has_local then git host ["checkout"; b] repo_path
        else if has_remote
        then git host ["checkout"; "--track"; "origin/" +:+ b] repo_path
        else
          direct ← git host ["checkout"; b] repo_path;
          if negb (returncode direct =? 0)
          then git host ["checkout"; "-b"; b; "origin/" +:+ b] repo_path
          else mret direct);
     if returncode checkout_result =? 0 then
       print ("Successfully checked out branch '" +:+ b +:+ "'")
     else
       current_result ← git host ["branch"; "--show-current"] repo_path;
       let current_branch :=
         if returncode current_result =? 0
         then str_strip (stdout current_result) else "unknown" in
       _ ← print_err ("Warning: Could not checkout branch '" +:+ b
                      +:+ "' (branch may not exist)");
       _ ← print_err ("         Remaining on branch: " +:+ current_branch);
       let out := str_strip (stdout checkout_result) in
       match List.filter
               (λ line, str_contains "fatal" (str_lower line)
                        || str_contains "error" (str_lower line))
               (if str_truthy out then str_split newline out else []) with
       | first :: _ => print_err ("         Git message: " +:+ first)
       | [] => mret ()
       end)
    is_Exception
    (λ e,
       _ ← print_err ("Warning: Error while checking out branch '" +:+ b
                      +:+ "': " +:+ exn_str e);
       print_err "         Installation will continue with default branch").

(** [install] (lines 922-1313).  [depth] is the number of nested
    calls still allowed; the call for a dependency skips the
    dependency check and so does not go deeper. *)
Fixpoint install (depth : nat) (name : string)
  (skip_compatibility_check skip_dependency_check : bool) : M bool :=
  match depth with
  | O => raise (Exn OtherException "maximum recursion depth exceeded")
  | S depth' =>
      matches ← find_repos_by_name name;
      if is_nil matches then
        _ ← print ("Error: No repository found with name '" +:+ name +:+ "'");
        mret false
      else
        selected ← prompt_selection matches
          ("Multiple repositories found with name '" +:+ name +:+ "':");
        match selected with
        | None => _ ← print "Installation cancelled."; mret false
        | Some sel =>
            let repo_url := cand_url sel in
            let branch := cand_branch sel in
            '(_, user, repo_name) ← lift_result
              (parse_repo_url (bracketed_host_ok host) repo_url);
            let install_name := cand_name sel in
            let repo_path := path_join (self_apps_dir self) install_name in
            w ← get_world;
            go_on ←
              match installed w !! install_name with
              | Some info =>
                  _ ← print ("'" +:+ install_name +:+ "' is already installed at "
                             +:+ r_path info);
                  response ← input host "Reinstall? (y/N): ";
                  if String.eqb (str_lower (str_strip response)) "y" then
                    _ ← remove host self install_name true;
                    mret true
                  else mret false
              | None => mret true
              end;
            if negb go_on then mret false
            else
              _ ← print ("Verifying repository " +:+ repo_url +:+ "...");
              '(is_valid, error_msg) ← verify_repo host repo_url branch;
              if negb is_valid then
                _ ← print_err ("Error: " +:+ error_msg);
                mret false
              else
                _ ← print ("Repository verified" +:+ branch_info branch);
                compatible ←
                  (if skip_compatibility_check then mret true
                   else
                     _ ← print "Checking repository compatibility...";
                     '(is_compatible, compat_msg) ←
                       check_repo_compatibility host repo_url branch;
                     if is_compatible : bool then
                       _ ← print "Repository is compatible with gitpm";
                       mret true
                     else
                       _ ← print_err ("Error: " +:+ compat_msg);
                       _ ← print_err (String newline "To make a repository compatible with gitpm, add one of these marker files to the root:");
                       _ ← print_err "  - .gitpm";
                       _ ← print_err "  - gitpm.json";
                       _ ← print_err "  - .gitpm.json";
                       _ ← print_err (String newline "Use --force flag to skip compatibility check and install anyway.");
                       mret false);
                if negb compatible then mret false
                else
                  _ ← print ("Cloning " +:+ repo_url +:+ " to " +:+ repo_path
                             +:+ "...");
                  clone ← run host ["git"; "clone"; repo_url; repo_path] None;
                  if negb (returncode clone =? 0) then
                    _ ← print_err ("Error cloning repository: " +:+ exn_str
                           (called_process_error host
                              ["git"; "clone"; repo_url; repo_path]
                              (returncode clone)));
                    _ ← when (str_truthy (stderr clone)) (print_err (stderr clone));
                    mret false
                  else
                    _ ← when (opt_truthy branch)
                          (checkout_branch repo_path (default "" branch));
                    install_after_clone
                      (λ dep, install depth' dep false true)
                      repo_url user repo_name install_name repo_path branch
                      skip_dependency_check
        end
  end.
End Install.

(* ===================================================================== *)
(** ** The URL forms of the identity rules

    What the rules of [parse_repo_url] ask of a host, an owner and a
    repository name, form by form. *)
(* ===================================================================== *)

Definition lacks (c : ascii) (s : string) : Prop :=
  str_all (λ x, negb (Ascii.eqb x c)) s = true.

(** An owner or a repository name: not empty, and without a slash. *)
Definition segment (s : string) : Prop := s ≠ "" ∧ lacks "/" s.

(** A repository name at the end of a URL, followed by [.git] or not:
    a segment without white space at its end that does not itself end
    in [.git]. *)
Definition repo_segment (s : string) : Prop :=
  segment s ∧ rstrip_by is_space s = s ∧ str_endswith ".git" s = false.

(** A character that [urlparse] leaves where it is in a network
    location or a path: not a tab, a carriage return or a line feed,
    which it removes, and not [?] or [#], which end the path. *)
Definition url_char (c : ascii) : bool :=
  negb (is_unsafe_url_byte c) && negb (char_is "?" c) && negb (char_is "#" c).

Definition url_text (s : string) : Prop := str_all url_char s = true.

(** The brackets of a network location pass [urlparse]: there is
    none, or there are both and [_check_bracketed_host] accepts the
    text between them. *)
Definition brackets_ok (accepts : string → bool) (nl : string)
  : bool :=
  let has_open := str_contains "[" nl in
  let has_close := str_contains "]" nl in
  if xorb has_open has_close then false
  else if has_open && has_close then
    accepts
      (fst (break_at (char_is "]") (str_tail (snd (break_at (char_is "[") nl)))))
  else true.

(** The host part of an http(s) URL, with or without user information
    and port: text of a URL without a slash, whose brackets pass. *)
Definition http_host (accepts : string → bool) (host : string)
  : Prop :=
  url_text host ∧ lacks "/" host ∧ brackets_ok accepts host = true.

(** The URL that [parse_repo_url] works on after lines 127-131:
    stripped, and without one trailing [.git]. *)
Definition trimmed_url (url : string) : string :=
  let url := str_strip url in
  if str_endswith ".git" url then drop_last 4 url else url.

(** The trimmed URLs that [parse_repo_url] leaves to its last rule: an
    http(s) URL that [urlparse] accepts and whose path has fewer than
    two segments; a text that starts with [git@] and that the SSH
    pattern does not match; and any other text that has no slash,
    starts with [http], or does not split into two parts at its
    slashes. *)
Definition falls_back (accepts : string → bool) (u : string) : Prop :=
  if str_startswith "http://" u || str_startswith "https://" u then
    ∃ parsed,
      urlparse accepts u = Ok parsed
      ∧ (length (str_split "/" (strip_by (char_is "/") (url_path parsed)))
         < 2)%nat
  else if str_startswith "git@" u then re_match ssh_pattern u = None
  else
    str_contains "/" u = false ∨ str_startswith "http" u = true
    ∨ length (str_split "/" u) ≠ 2%nat.

(** A field of a catalog line as it can be read back: not empty,
    without a comma, and without white space at either end. *)
Definition valid_field (s : string) : Prop :=
  s ≠ "" ∧ lacks "," s
  ∧ lstrip_by is_space s = s ∧ rstrip_by is_space s = s.

Definition valid_opt_field (o : option string) : Prop :=
  match o with
  | Some s => valid_field s
  | None => True
  end.

(** The fields of a valid catalog line: a URL that does not start a
    comment, and an optional branch and name. *)
Definition valid_fields (url : string) (branch name : option string) : Prop :=
  valid_field url ∧ str_startswith "#" url = false
  ∧ valid_opt_field branch ∧ valid_opt_field name.

(** The output of [git ls-remote --heads --tags] for a remote with the
    given refs: a line [<hash><tab><ref>] for each. *)
Fixpoint ls_remote_output (refs : list (string * string)) : string :=
  match refs with
  | [] => ""
  | (hash, ref) :: rest =>
      hash +:+ String tab ref +:+ String newline (ls_remote_output rest)
  end.

(** Object names without white space and refs without tab or newline. *)
Definition wf_ref (hr : string * string) : Prop :=
  hr.1 ≠ "" ∧ str_all (λ c, negb (is_space c)) hr.1 = true
  ∧ lacks tab hr.2 ∧ lacks newline hr.2.

(** Whether a path is a regular file ([exists() and is_file()]). *)
Definition is_file_node (n : option node) : Prop :=
  match n with
  | Some (File _ _) => True
  | _ => False
  end.

(** What a candidate file that exists makes [load_gitpm_json] return. *)
Definition manifest_answer (marker_file : string) (c : json_load)
  : json * option string :=
  match c with
  | Loaded v => (v, None)
  | Malformed e => (JNull, Some ("Invalid JSON in " +:+ marker_file +:+ ": " +:+ e))
  | Unreadable e => (JNull, Some ("Error reading " +:+ marker_file +:+ ": " +:+ e))
  end.


(** Whether a name is a key of [self.installed]. *)
Definition is_installed (w : World) (name : string) : bool :=
  bool_decide (is_Some (installed w !! name)).

(** The first of the names that is installed. *)
Definition first_installed (w : World) (names : list string) : option string :=
  List.find (is_installed w) names.

(** The alternatives of a group are descriptors whose names resolve to
    [names], in order. *)
Definition resolve_all (host : Host) (alternatives : list json)
  (names : list string) : Prop :=
  Forall2 (λ dep name, resolved_name host dep = Ok name) alternatives names.

(* ===================================================================== *)
(** ** Invariants of the lifecycle operations *)
(* ===================================================================== *)

(** [keeps Inv Q E m]: run from a world where [Inv] holds, [m] ends in
    a world where [Inv] holds, with a value that satisfies [Q] there or
    an exception that satisfies [E]. *)
Definition keeps {A} (Inv : World → Prop) (Q : A → World → Prop)
  (E : exn → Prop) (m : M A) : Prop :=
  ∀ w r w', Inv w → m w = (r, w') →
    Inv w' ∧ match r with Ok a => Q a w' | Raise e => E e end.

(** No condition on the value. *)
Definition any {A} : A → World → Prop := λ _ _, True.

(** With respect to a starting world [w0]: the registry, in memory and
    on disk, is as in [w0], and every action since [w0] satisfies
    [allowed]. *)
Definition registry_kept (allowed : action → Prop) (w0 w : World) : Prop :=
  installed w = installed w0 ∧ installed_file w = installed_file w0
  ∧ ∃ new, trace w = new ++ trace w0 ∧ Forall allowed new.

(** The world [w] after the given actions, the latest first, and
    nothing else. *)
Definition after_actions (acts : list action) (w : World) : World :=
  mkWorld (fs w) (installed w) (installed_file w) (acts ++ trace w).

(** The exceptions that [except Exception] lets through. *)
Definition escapes (e : exn) : Prop := is_Exception e = false.

(** The candidate names of all hook kinds. *)
Definition all_hook_names (self : Self) : list string :=
  let prefix := if self_system self then "system" else "user" in
  hook_names prefix "setup" "install" ++ hook_names prefix "remove" "uninstall"
  ++ hook_names prefix "update" "upgrade"
  ++ hook_names prefix "check" "check-updates".

(** A hook candidate of the repository at [repo_path], of the given
    names. *)
Definition is_hook_path (repo_path : string) (names : list string) (p : string)
  : Prop :=
  ∃ name, name ∈ names ∧ p = path_join repo_path name.

(** What hook discovery does to the surroundings: it marks candidates
    executable. *)
Definition discovery_action (self : Self) (repo_path : string) (a : action) : Prop :=
  match a with
  | AChmod p => is_hook_path repo_path (all_hook_names self) p
  | _ => False
  end.

(** What a check-only update of the package at [repo_path] does to its
    surroundings: it prints, fetches, reads two commits, marks hook
    candidates executable and runs the check hook. *)
Definition check_only_action (host : Host) (self : Self) (repo_path : string)
  (a : action) : Prop :=
  match a with
  | APrint _ | APrintErr _ => True
  | AChmod p => is_hook_path repo_path (all_hook_names self) p
  | ARun argv cwd =>
      cwd = Some repo_path
      ∧ (argv = ["git"; "fetch"; "origin"]
         ∨ (∃ ref, argv = ["git"; "rev-parse"; ref])
         ∨ ∃ check,
             is_hook_path repo_path
               (hook_names (if self_system self then "system" else "user")
                  "check" "check-updates") check
             ∧ (argv = ["bash"; check] ∨ argv = [sys_executable host; check]))
  | _ => False
  end.

(** What [check_scripts] returns: hook candidates of the four kinds. *)
Definition scripts_ok (self : Self) (repo_path : string) (s : Scripts) : Prop :=
  let prefix := if self_system self then "system" else "user" in
  (∀ p, script_setup s = Some p →
     is_hook_path repo_path (hook_names prefix "setup" "install") p)
  ∧ (∀ p, script_remove s = Some p →
     is_hook_path repo_path (hook_names prefix "remove" "uninstall") p)
  ∧ (∀ p, script_update s = Some p →
     is_hook_path repo_path (hook_names prefix "update" "upgrade") p)
  ∧ (∀ p, script_check s = Some p →
     is_hook_path repo_path (hook_names prefix "check" "check-updates") p)
  ∧ script_uninstall s = None.

(** The last thing a check-only update printed says whether an update
    is available. *)
Definition availability_reported (name : string) (w : World) : Prop :=
  ∃ rest,
    trace w = APrint ("'" +:+ name +:+ "' is already up to date") :: rest
    ∨ trace w = APrint ("Update available for '" +:+ name +:+ "'") :: rest.

(** The last action was a message. *)
Definition message_printed (w : World) : Prop :=
  ∃ msg rest, trace w = APrint msg :: rest ∨ trace w = APrintErr msg :: rest.

(** What a check-only update answers: [True] after the report, or
    [False] after an error message. *)
Definition check_only_answer (name : string) (b : bool) (w : World) : Prop :=
  if b then availability_reported name w else message_printed w.

(** What [update] takes for an update being available (lines
    1365-1381): a check hook decides with the exit status 1 (available)
    or 0 (up to date); without a check hook, or when it exits with
    another status, an update is available when the two commits
    differ. *)
Definition updates_available (check_exit_code : option Z)
  (current_commit remote_commit : string) : bool :=
  match check_exit_code with
  | Some code =>
      if code =? 1 then true
      else if code =? 0 then false
      else negb (String.eqb current_commit remote_commit)
  | None => negb (String.eqb current_commit remote_commit)
  end.

(** The report of a check-only update. *)
Definition availability_message (name : string) (available : bool) : string :=
  if available then "Update available for '" +:+ name +:+ "'"
  else "'" +:+ name +:+ "' is already up to date".

(** A check-only update of the package [name], recorded as [info],
    that started in [w] and got to its report: [git fetch origin]
    exited with status 0, the two [git rev-parse] completed as [head]
    and [remote], and the check hook, if hook discovery found one,
    exited with [code]. *)
Definition check_only_run (host : Host) (self : Self) (name : string)
  (info : InstalledRecord) (w : World) (head remote : CompletedProcess)
  (code : option Z) : Prop :=
  let repo_path := r_path info in
  ∃ fetch w1 w2 w3 scripts w4,
    run host ["git"; "fetch"; "origin"] (Some repo_path)
      (after_actions [APrint ("Checking for updates: " +:+ name +:+ "...")] w)
    = (Ok fetch, w1)
    ∧ returncode fetch = 0
    ∧ run host ["git"; "rev-parse"; "HEAD"] (Some repo_path) w1
      = (Ok head, w2)
    ∧ run host ["git"; "rev-parse"; remote_ref_of (r_branch info)]
        (Some repo_path) w2
      = (Ok remote, w3)
    ∧ check_scripts host self repo_path w3 = (Ok scripts, w4)
    ∧ match script_check scripts with
      | Some check =>
          ∃ exit_code w5,
            run_script_exit_code host check repo_path
              (after_actions [APrint ("Running check script: " +:+ check)] w4)
            = (Ok exit_code, w5)
            ∧ code = Some exit_code
      | None => code = None
      end.

(** What a check-only update that answers [False] printed last: that
    the package is not installed, that its path does not exist, or the
    failure of a [git] command. *)
Definition check_only_error (name : string) (w0 w : World) : Prop :=
  (installed w0 !! name = None
   ∧ trace w = APrint ("Error: '" +:+ name +:+ "' is not installed")
               :: trace w0)
  ∨ (∃ info,
       installed w0 !! name = Some info
       ∧ path_exists w0 (r_path info) = false
       ∧ trace w = APrint ("Error: Installation path " +:+ r_path info
                           +:+ " does not exist") :: trace w0)
  ∨ (∃ e rest,
       exn_kind_of e = CalledProcessError
       ∧ trace w = APrintErr ("Error updating '" +:+ name +:+ "': "
                              +:+ exn_str e) :: rest).

(** The installation path the registry of [w] records for [name]. *)
Definition recorded_path (w : World) (name : string) : string :=
  from_option r_path EmptyString (installed w !! name).

(** The clone at [repo_path] is gone, or its deletion is one of the
    last [n + 1] actions. *)
Definition clone_cleaned (n : nat) (repo_path : string) (w : World) : Prop :=
  path_exists w repo_path = false
  ∨ ∃ pre rest,
      trace w = pre ++ ARmtree repo_path :: rest ∧ (length pre ≤ n)%nat.

(** Whether an action is a run of [git pull]. *)
Definition is_git_pull (a : action) : bool :=
  match a with
  | ARun ["git"; "pull"] _ => true
  | _ => false
  end.

(** Whether exactly [msg] was printed to the error stream. *)
Definition printed_err (msg : string) (w : World) : bool :=
  existsb (λ a, match a with
                | APrintErr m => String.eqb m msg
                | _ => false
                end) (trace w).

(** Whether a failure of the clean-up was reported (the message of
    lines 1118, 1188, 1252, 1270 and 1281). *)
Definition cleanup_failure_reported (w : World) : bool :=
  existsb (λ a, match a with
                | APrintErr m =>
                    str_startswith "Warning: Could not clean up directory" m
                | _ => false
                end) (trace w).

(* ===================================================================== *)
(** ** Concrete surroundings for the examples *)
(* ===================================================================== *)

Definition user_self : Self := mkSelf false "/home/user/.local/share/apps" "Debian".

Definition no_catalog : CatalogView :=
  mkCatalogView (λ _, false) (λ _, []) (λ _, false) (λ _, None) (λ _, "").

(** A host on which every command exits with status 0 and prints
    nothing, and nothing fails. *)
Definition quiet_host : Host := {|
  bracketed_host_ok := λ _, true;
  py_str := λ v, match v with
                 | JNum n => pretty n
                 | JStr s => s
                 | _ => ""
                 end;
  py_int := λ _, None;
  prompt_rounds := 3;
  sys_executable := "python3";
  is_root := false;
  subprocess_run := λ w _ _, (Ok (mkCompleted 0 "" ""), fs w);
  rmtree_error := λ _ _, None;
  chmod_error := λ _ _, None;
  read_input := λ _ _, Ok "";
  mkdtemp := λ _ prefix, "/tmp/" +:+ prefix +:+ "0";
  catalog_view := λ _, no_catalog;
  home_dir := "/home/user"
|}.

Definition tool_path : string := "/home/user/.local/share/apps/tool".

Definition tool_record : InstalledRecord :=
  mkInstalledRecord "https://example.com/acme/tool.git" "acme" "tool" "tool"
    None tool_path None None None None.

(** The manifest that only says [{"system_only": true}]. *)
Definition system_only_manifest : json := JObj [("system_only", JBool true)].

(** The clone of [tool] with a manifest that only says
    [{"system_only": true}], and nothing installed. *)
Definition system_only_world : World :=
  mkWorld
    (list_to_map
       [(tool_path, Dir);
        (path_join tool_path "gitpm.json",
         File false (Loaded system_only_manifest))])
    ∅ ∅ [].

(** A shell script: a file that is not JSON and not yet executable. *)
Definition script_file : node := File false (Malformed "not JSON").

(** [tool] installed, with a set-up hook that is not executable. *)
Definition installed_world : World :=
  mkWorld
    (list_to_map
       [(tool_path, Dir); (path_join tool_path "setup.sh", script_file)])
    {[ "tool" := tool_record ]} {[ "tool" := tool_record ]} [].

(** [tool] is in the registry but its directory is gone. *)
Definition stale_world : World :=
  mkWorld ∅ {[ "tool" := tool_record ]} {[ "tool" := tool_record ]} [].

(** Nothing installed, nothing on disk. *)
Definition empty_world : World := mkWorld ∅ ∅ ∅ [].

(** A host like [quiet_host] on which the remote has a new commit. *)
Definition busy_host : Host := {|
  bracketed_host_ok := bracketed_host_ok quiet_host;
  py_str := py_str quiet_host;
  py_int := py_int quiet_host;
  prompt_rounds := prompt_rounds quiet_host;
  sys_executable := sys_executable quiet_host;
  is_root := is_root quiet_host;
  subprocess_run := λ w argv _,
    match argv with
    | ["git"; "rev-parse"; "HEAD"] => (Ok (mkCompleted 0 "1111" ""), fs w)
    | ["git"; "rev-parse"; _] => (Ok (mkCompleted 0 "2222" ""), fs w)
    | _ => (Ok (mkCompleted 0 "" ""), fs w)
    end;
  rmtree_error := rmtree_error quiet_host;
  chmod_error := chmod_error quiet_host;
  read_input := read_input quiet_host;
  mkdtemp := mkdtemp quiet_host;
  catalog_view := catalog_view quiet_host;
  home_dir := home_dir quiet_host
|}.

(** The refs of a remote with one branch and one tag. *)
Definition remote_refs : list (string * string) :=
  [("1111", "refs/heads/main"); ("2222", "refs/tags/v1")].

(** A host like [quiet_host] on which every command prints the refs of
    that remote. *)
Definition remote_host : Host := {|
  bracketed_host_ok := bracketed_host_ok quiet_host;
  py_str := py_str quiet_host;
  py_int := py_int quiet_host;
  prompt_rounds := prompt_rounds quiet_host;
  sys_executable := sys_executable quiet_host;
  is_root := is_root quiet_host;
  subprocess_run := λ w _ _,
    (Ok (mkCompleted 0 (ls_remote_output remote_refs) ""), fs w);
  rmtree_error := rmtree_error quiet_host;
  chmod_error := chmod_error quiet_host;
  read_input := read_input quiet_host;
  mkdtemp := mkdtemp quiet_host;
  catalog_view := catalog_view quiet_host;
  home_dir := home_dir quiet_host
|}.

(** The manifest of [tool]: one peer dependency, [dep]. *)
Definition tool_manifest : json :=
  JObj [("dependencies",
         JObj [("gitpm", JArr [JStr "https://example.com/acme/dep.git"])])].

(** A user catalog with the single line of [tool]. *)
Definition tool_catalog : CatalogView := {|
  cat_dir_exists := String.eqb "/home/user/.config/gitpm";
  cat_glob_sorted := λ pattern,
    if String.eqb pattern "/home/user/.config/gitpm/repos*.conf"
    then ["/home/user/.config/gitpm/repos.conf"] else [];
  cat_file_exists := String.eqb "/home/user/.config/gitpm/repos.conf";
  cat_lines := λ file,
    if String.eqb file "/home/user/.config/gitpm/repos.conf"
    then Some ["https://example.com/acme/tool.git"] else None;
  cat_error := λ file, "[Errno 13] Permission denied: '" +:+ file +:+ "'"
|}.

(** A host on which [tool] can be cloned and comes with
    [tool_manifest], every shallow clone (of [tool] or of [dep]) shows
    a manifest that is [system_only], and the clone of [tool] cannot be
    deleted. *)
Definition stubborn_host : Host := {|
  bracketed_host_ok := bracketed_host_ok quiet_host;
  py_str := py_str quiet_host;
  py_int := py_int quiet_host;
  prompt_rounds := prompt_rounds quiet_host;
  sys_executable := sys_executable quiet_host;
  is_root := is_root quiet_host;
  subprocess_run := λ w argv _,
    match argv with
    | ["git"; "clone"; _; dest] =>
        (Ok (mkCompleted 0 "" ""),
         <[path_join dest "gitpm.json" := File false (Loaded tool_manifest)]>
           (<[dest := Dir]> (fs w)))
    | "git" :: "clone" :: "--depth" :: _ :: "--no-checkout" :: _ :: dest :: _ =>
        (Ok (mkCompleted 0 "" ""),
         <[path_join dest "gitpm.json" := File false (Loaded system_only_manifest)]>
           (<[dest := Dir]> (fs w)))
    | _ => (Ok (mkCompleted 0 "" ""), fs w)
    end;
  rmtree_error := λ _ p,
    if String.eqb p tool_path then Some (Exn OSError "Permission denied")
    else None;
  chmod_error := chmod_error quiet_host;
  read_input := read_input quiet_host;
  mkdtemp := mkdtemp quiet_host;
  catalog_view := λ _, tool_catalog;
  home_dir := home_dir quiet_host
|}.

(** The catalog of [tool_catalog] together with a system catalog that
    cannot be read. *)
Definition locked_catalog : CatalogView := {|
  cat_dir_exists := λ dir,
    String.eqb dir "/etc/xdg/gitpm" || cat_dir_exists tool_catalog dir;
  cat_glob_sorted := λ pattern,
    if String.eqb pattern "/etc/xdg/gitpm/repos*.conf"
    then ["/etc/xdg/gitpm/repos.conf"] else cat_glob_sorted tool_catalog pattern;
  cat_file_exists := λ file,
    String.eqb file "/etc/xdg/gitpm/repos.conf"
    || cat_file_exists tool_catalog file;
  cat_lines := cat_lines tool_catalog;
  cat_error := cat_error tool_catalog
|}.

Definition locked_host : Host := {|
  bracketed_host_ok := bracketed_host_ok quiet_host;
  py_str := py_str quiet_host;
  py_int := py_int quiet_host;
  prompt_rounds := prompt_rounds quiet_host;
  sys_executable := sys_executable quiet_host;
  is_root := is_root quiet_host;
  subprocess_run := subprocess_run quiet_host;
  rmtree_error := rmtree_error quiet_host;
  chmod_error := chmod_error quiet_host;
  read_input := read_input quiet_host;
  mkdtemp := mkdtemp quiet_host;
  catalog_view := λ _, locked_catalog;
  home_dir := home_dir quiet_host
|}.

(** An alternative group: [tool] or [other]. *)
Definition tool_or_other : list json :=
  [JStr "https://example.com/acme/tool.git";
   JStr "https://example.com/acme/other.git"].

(* ===================================================================== *)
(** ** What the further properties are stated with *)
(* ===================================================================== *)

(** The name a catalog entry is offered under (line 174): its custom
    name if it has one, else the name of its repository. *)
Definition display_name_of (e : RepoEntry) (repo_name : string) : string :=
  match entry_name e with
  | Some n => if str_truthy n then n else repo_name
  | None => repo_name
  end.

(** The candidate [find_repos_by_name] builds from a catalog entry
    (lines 170-183). *)
Definition candidate_of (host : Host) (e : RepoEntry) : result Candidate :=
  '(_, user, repo_name) ←
    parse_repo_url (bracketed_host_ok host) (entry_url e);
  Ok (mkCandidate (entry_url e) user (display_name_of e repo_name) repo_name
        (entry_branch e)).

(** The catalog files [load_config] finds in the world [w]. *)
Definition config_files_of (host : Host) (self : Self) (w : World)
  : list string :=
  find_config_files (catalog_view host w) (self_system self) (home_dir host).

(** The warning [load_config] prints for a catalog file that it cannot
    read (line 117). *)
Definition read_warning (view : CatalogView) (file : string) : option action :=
  match cat_lines view file with
  | None =>
      Some (APrintErr ("Warning: Could not read config file " +:+ file
                       +:+ ": " +:+ cat_error view file))
  | Some _ => None
  end.

(** Whether a candidate goes by [name], ignoring case (line 176). *)
Definition named (name : string) (c : Candidate) : bool :=
  String.eqb (str_lower (cand_name c)) (str_lower name).

(** [install_name] is registered in [w] with the path
    [self.apps_dir / install_name], the registry is saved, and the last
    thing printed is the success message. *)
Definition registered (self : Self) (install_name : string) (w : World) : Prop :=
  ∃ rec,
    installed w !! install_name = Some rec
    ∧ r_name rec = install_name
    ∧ r_path rec = path_join (self_apps_dir self) install_name
    ∧ installed_file w = installed w
    ∧ ∃ rest,
        trace w = APrint ("Successfully installed '" +:+ install_name +:+ "'"
                          +:+ branch_info (r_branch rec)) :: rest.

(** The candidate of [tool] in [tool_catalog]. *)
Definition tool_candidate : Candidate :=
  mkCandidate "https://example.com/acme/tool.git" "acme" "tool" "tool" None.

(** What identifies an installed package: everything in its record but
    the hook paths. *)
Definition record_identity (r : InstalledRecord)
  : string * string * string * string * option string * string :=
  (r_url r, r_user r, r_name r, r_repo_name r, r_branch r, r_path r).

(** The registry of [w] has the packages of [w0], each with the
    identity it has there. *)
Definition same_packages (w0 w : World) : Prop :=
  ∀ n, record_identity <$> installed w !! n
       = record_identity <$> installed w0 !! n.

(** A hook that [check_scripts] can hand out: a candidate of the given
    names that is a regular file and is a Python script or executable. *)
Definition found_script (w : World) (repo_path : string) (names : list string)
  (p : string) : Prop :=
  ∃ name,
    name ∈ names ∧ p = path_join repo_path name
    ∧ path_is_file w p = true
    ∧ (path_suffix name = ".py" ∨ path_executable w p = true).

(** From [w] to [w'] no regular file is lost and none loses its
    executable bit. *)
Definition files_kept (w w' : World) : Prop :=
  ∀ p, (path_is_file w p = true → path_is_file w' p = true)
       ∧ (path_executable w p = true → path_executable w' p = true).

(** The command [run_script] runs for a script (lines 292-295). *)
Definition script_command (host : Host) (script_path : string) : list string :=
  if String.eqb (suffix_of script_path) ".py"
  then [sys_executable host; script_path] else ["bash"; script_path].

(** The clone of [tool] with a set-up script for the user scope and a
    generic one, neither executable. *)
Definition two_hooks_world : World :=
  mkWorld
    (list_to_map
       [(tool_path, Dir);
        (path_join tool_path "setup.sh", script_file);
        (path_join tool_path "setup-user.sh", script_file)])
    ∅ ∅ [].

(** What running the hook [script_path] in [repo_path] does to the
    surroundings: it prints, makes the script executable and runs it. *)
Definition hook_run_action (host : Host) (script_path repo_path : string)
  (a : action) : Prop :=
  match a with
  | APrint _ | APrintErr _ => True
  | AChmod p => p = script_path
  | ARun argv cwd =>
      cwd = Some repo_path
      ∧ (argv = ["bash"; script_path]
         ∨ argv = [sys_executable host; script_path])
  | _ => False
  end.

(** The two commands [check_system_package] runs for [package]. *)
Definition probe_action (package : string) (a : action) : Prop :=
  a = ARun [package; "-v"] None ∨ a = ARun ["which"; package] None.

(** The commands that probe one of the packages named in a list. *)
Definition probes_of (packages : list json) (a : action) : Prop :=
  ∃ p, JStr p ∈ packages ∧ probe_action p a.

(** The install method of a [system] section (lines 474-478): the
    global [method] if there is one, else the method of the distro,
    else the empty string. *)
Definition install_method_of (self : Self) (items : list (string * json))
  : json :=
  match assoc "method" items with
  | Some m => m
  | None => default (JStr "") (assoc (self_distro self +:+ "_method") items)
  end.

(** The clone of [tool] with a manifest that is not JSON. *)
Definition broken_manifest_world : World :=
  mkWorld
    (list_to_map
       [(tool_path, Dir);
        (path_join tool_path "gitpm.json",
         File false (Malformed "Expecting value: line 1 column 1 (char 0)"))])
    ∅ ∅ [].

(** The manager in system scope. *)
Definition system_self : Self := mkSelf true "/opt/apps" "Debian".

(** The clone of [tool] with a manifest that has an empty
    [dependencies] section and says [system_only]. *)
Definition scoped_world : World :=
  mkWorld
    (list_to_map
       [(tool_path, Dir);
        (path_join tool_path "gitpm.json",
         File false (Loaded (JObj [("dependencies", JObj []);
                                   ("system_only", JBool true)])))])
    ∅ ∅ [].

(* ===================================================================== *)
(** ** Distribution detection: [detect_distro] (gitpm.py, lines 336-393) *)
(* ===================================================================== *)

(** [s.split(sep, 1)]: the text before the first [sep], and the text
    after it when there is one. *)
Definition str_split_once (sep : ascii) (s : string) : list string :=
  match break_at (Ascii.eqb sep) s with
  | (before, String _ after) => [before; after]
  | (before, EmptyString) => [before]
  end.

(** [s.split()]: the maximal runs of characters that are not white
    space. *)
Fixpoint split_at_spaces (s : string) : list string :=
  match s with
  | EmptyString => [EmptyString]
  | String c s' =>
      if is_space c then EmptyString :: split_at_spaces s'
      else match split_at_spaces s' with
           | h :: t => String c h :: t
           | [] => [String c EmptyString]
           end
  end.

Definition str_words (s : string) : list string :=
  List.filter str_truthy (split_at_spaces s).

Definition double_quote : ascii := "034"%char.
Definition single_quote : ascii := "039"%char.

(** [line.split('=', 1)[1]], stripped of white space, then of double
    quotes, then of single quotes (lines 352 and 357). *)
Definition os_release_value (line : string) : result string :=
  match str_split_once "=" line !! 1%nat with
  | Some v =>
      Ok (strip_by (Ascii.eqb single_quote)
            (strip_by (Ascii.eqb double_quote) (str_strip v)))
  | None => Raise (Exn IndexError "list index out of range")
  end.

(** The body of the loop over the lines of [/etc/os-release] (lines
    348-357), on the pair [(distro_id, distro_id_like)]. *)
Definition os_release_step (line : string)
  (st : option string * option string)
  : result (option string * option string) :=
  let '(distro_id, distro_id_like) := st in
  if str_startswith "ID_LIKE=" line then
    v ← os_release_value line;
    if str_contains " " v then
      match str_words v !! 0%nat with
      | Some first => Ok (distro_id, Some first)
      | None => Raise (Exn IndexError "list index out of range")
      end
    else Ok (distro_id, Some v)
  else if str_startswith "ID=" line then
    v ← os_release_value line;
    Ok (Some v, distro_id_like)
  else Ok st.

Fixpoint os_release_scan (lines : list string)
  (st : option string * option string)
  : result (option string * option string) :=
  match lines with
  | [] => Ok st
  | line :: rest =>
      st' ← os_release_step line st;
      os_release_scan rest st'
  end.

(** [distro_map] (lines 365-376) *)
Definition distro_map : list (string * string) :=
  [("arch", "Arch"); ("archlinux", "Arch"); ("debian", "Debian");
   ("ubuntu", "Ubuntu"); ("fedora", "Fedora"); ("rhel", "RHEL");
   ("centos", "CentOS"); ("opensuse", "openSUSE"); ("sles", "SLES");
   ("suse", "openSUSE")].

Fixpoint dict_get (k : string) (d : list (string * string)) (dflt : string)
  : string :=
  match d with
  | [] => dflt
  | (k', v) :: d' => if String.eqb k k' then v else dict_get k d' dflt
  end.

(** What [detect_distro] reads: [/etc/os-release] ([None] when it does
    not exist; its lines, each with its line end, or the exception that
    opening or reading it raises), and which other files exist. *)
Record DistroView : Type := mkDistroView {
  os_release : option (result (list string));
  release_file_exists : string → bool
}.

Section DetectDistro.
(** [str.capitalize] *)
Variable capitalize : string → string.
Variable view : DistroView.

(** [distro_map.get(distro.lower(), distro.capitalize())] *)
Definition distro_name (distro : string) : string :=
dict_get (str_lower distro) distro_map (capitalize distro).

(** Lines 380-392. *)
Definition distro_fallback : string :=
if release_file_exists view "/etc/arch-release" then "Arch"
else if release_file_exists view "/etc/debian_version" then "Debian"
else if release_file_exists view "/etc/fedora-release" then "Fedora"
else if release_file_exists view "/etc/redhat-release" then "RHEL"
else if release_file_exists view "/etc/SuSE-release" then "openSUSE"
else "Unknown".

(** [detect_distro] (lines 336-393) *)
Definition detect_distro : result string :=
let body : result string :=
  match os_release view with
  | Some content =>
      lines ← content;
      '(distro_id, distro_id_like) ← os_release_scan lines (None, None);
      let distro_to_check :=
        if opt_truthy distro_id_like then distro_id_like else distro_id in
      if opt_truthy distro_to_check
      then Ok (distro_name (default "" distro_to_check))
      else Ok distro_fallback
  | None => Ok distro_fallback
  end in
match body with
| Raise e => if is_Exception e then Ok "Unknown" else Raise e
| r => r
end.
End DetectDistro.

(** A name as [/etc/os-release] gives it: not empty, and without white
    space or quotes. *)
Definition release_word (v : string) : Prop :=
  v ≠ ""
  ∧ str_all (λ c, negb (is_space c) && negb (Ascii.eqb double_quote c)
                  && negb (Ascii.eqb single_quote c)) v = true.

(** The [os-release] of an Arch derivative. *)
Definition garuda_release : list string :=
  ["NAME=" +:+ String double_quote ("Garuda Linux" +:+ String double_quote (String newline ""));
   "ID=garuda" +:+ String newline "";
   "ID_LIKE=arch" +:+ String newline "";
   "BUILD_ID=rolling" +:+ String newline ""].

(** A machine without [/etc/os-release] and without release files. *)
Definition bare_view : DistroView :=
  mkDistroView None (λ _, false).

(** A list of plain descriptors (strings, no alternative groups) whose
    names resolve to [names], in order. *)
Definition resolve_plain (host : Host) (deps : list json)
  (names : list string) : Prop :=
  Forall2 (λ dep name, is_str dep = true ∧ resolved_name host dep = Ok name)
    deps names.

(** The names that are not keys of the registry. *)
Definition not_installed (w : World) (names : list string) : list string :=
  List.filter (λ n, negb (is_installed w n)) names.

(** What the dependency check runs: the probes of commands, and
    [sudo -n true]. *)
Definition dependency_probe (a : action) : Prop :=
  match a with
  | ARun argv None =>
      argv = ["sudo"; "-n"; "true"]
      ∨ ∃ p, argv = [p; "-v"] ∨ argv = ["which"; p]
  | _ => False
  end.

(** The clone of [tool] with a manifest that asks for the command
    [git]. *)
Definition probing_world : World :=
  mkWorld
    (list_to_map
       [(tool_path, Dir);
        (path_join tool_path "gitpm.json",
         File false
           (Loaded
              (JObj [("dependencies",
                      JObj [("system",
                             JObj [("check_commands", JArr [JStr "git"]);
                                   ("Debian", JObj [("git", JStr "git")])])])])))])
    ∅ ∅ [].

(* ===================================================================== *)
(** * Verification *)
(* ===================================================================== *)

(** ** Facts about the string methods *)

Lemma app_cons (c : ascii) (s t : string) : String c s +:+ t = String c (s +:+ t).
Proof. reflexivity. Qed.

Lemma app_empty_l (t : string) : "" +:+ t = t.
Proof. reflexivity. Qed.

Lemma app_empty_r (s : string) : s +:+ "" = s.
Proof. induction s as [|c s IH]; [done|]. by rewrite app_cons, IH. Qed.

Lemma app_assoc_str (a b c : string) : (a +:+ b) +:+ c = a +:+ (b +:+ c).
Proof. induction a as [|x a IH]; [done|]. by rewrite !app_cons, IH. Qed.

Lemma str_all_app p a b : str_all p (a +:+ b) = str_all p a && str_all p b.
Proof.
  induction a as [|x a IH]; [done|].
  rewrite app_cons. simpl. rewrite IH. by rewrite andb_assoc.
Qed.

Lemma str_all_impl (p q : ascii → bool) s :
  (∀ c, p c = true → q c = true) → str_all p s = true → str_all q s = true.
Proof.
  intros Hpq. induction s as [|c s IH]; [done|]. simpl.
  intros [Hc Hs]%andb_true_iff. rewrite (Hpq _ Hc). by apply IH.
Qed.

Lemma str_filter_id p s : str_all p s = true → str_filter p s = s.
Proof.
  induction s as [|c s IH]; [done|]. simpl.
  intros [Hc Hs]%andb_true_iff. rewrite Hc. by rewrite IH.
Qed.

Lemma break_at_none p s :
  str_all (λ c, negb (p c)) s = true → break_at p s = (s, "").
Proof.
  induction s as [|c s IH]; [done|]. simpl.
  intros [Hc Hs]%andb_true_iff. apply negb_true_iff in Hc. rewrite Hc.
  by rewrite IH.
Qed.

Lemma break_at_app p a c b :
  str_all (λ c, negb (p c)) a = true → p c = true →
  break_at p (a +:+ String c b) = (a, String c b).
Proof.
  intros Ha Hc. induction a as [|x a IH].
  - rewrite app_empty_l. simpl. by rewrite Hc.
  - rewrite app_cons. simpl in *. apply andb_true_iff in Ha as [Hx Ha].
    apply negb_true_iff in Hx. rewrite Hx. by rewrite IH.
Qed.

Lemma str_split_none sep s :
  str_all (λ c, negb (Ascii.eqb c sep)) s = true → str_split sep s = [s].
Proof.
  induction s as [|c s IH]; [done|]. simpl.
  intros [Hc Hs]%andb_true_iff. apply negb_true_iff in Hc. rewrite Hc.
  by rewrite IH.
Qed.

Lemma str_split_app sep a b :
  str_all (λ c, negb (Ascii.eqb c sep)) a = true →
  str_split sep (a +:+ String sep b) = a :: str_split sep b.
Proof.
  intros Ha. induction a as [|x a IH].
  - rewrite app_empty_l. simpl. by rewrite Ascii.eqb_refl.
  - rewrite app_cons. simpl in *. apply andb_true_iff in Ha as [Hx Ha].
    apply negb_true_iff in Hx. rewrite Hx. by rewrite IH.
Qed.

Lemma lstrip_by_id p c s : p c = false → lstrip_by p (String c s) = String c s.
Proof. intros H. simpl. by rewrite H. Qed.

Lemma rstrip_by_nonempty p s :
  str_all (λ c, negb (p c)) s = true → rstrip_by p s = s.
Proof.
  induction s as [|c s IH]; [done|]. simpl.
  intros [Hc Hs]%andb_true_iff. apply negb_true_iff in Hc.
  rewrite IH by done. rewrite Hc. by destruct s.
Qed.

Lemma rstrip_by_app p a b :
  str_all (λ c, negb (p c)) b = true → b ≠ "" →
  rstrip_by p (a +:+ b) = a +:+ b.
Proof.
  intros Hb Hne. induction a as [|x a IH].
  - rewrite app_empty_l. by apply rstrip_by_nonempty.
  - rewrite app_cons. simpl. rewrite IH.
    destruct (a +:+ b) eqn:E; [|done].
    destruct a, b; try done.
Qed.

Lemma strip_by_id p s :
  str_all (λ c, negb (p c)) s = true → strip_by p s = s.
Proof.
  intros H. unfold strip_by. destruct s as [|c s]; [done|].
  simpl in H. apply andb_true_iff in H as [Hc Hs].
  rewrite lstrip_by_id by by apply negb_true_iff.
  apply rstrip_by_nonempty. simpl. by rewrite Hc, Hs.
Qed.

Lemma prefix_empty s : String.prefix "" s = true.
Proof. by destruct s. Qed.

Lemma str_contains_char_false c s :
  str_all (λ x, negb (Ascii.eqb x c)) s = true →
  str_contains (String c "") s = false.
Proof.
  induction s as [|x s IH]; [done|]. simpl.
  intros [Hx Hs]%andb_true_iff. apply negb_true_iff in Hx.
  rewrite IH by done. destruct (ascii_dec c x) as [->|]; [|done].
  by rewrite Ascii.eqb_refl in Hx.
Qed.

Lemma str_contains_char_app c a b :
  str_contains (String c "") (a +:+ String c b) = true.
Proof.
  induction a as [|x a IH].
  - rewrite app_empty_l. simpl. destruct (ascii_dec c c); [|done].
    by rewrite prefix_empty.
  - rewrite app_cons. simpl. rewrite IH. by rewrite orb_true_r.
Qed.
(** A separator that does not occur in [p] hides what follows it. *)
Lemma prefix_app_sep p a c b :
  str_all (λ x, negb (Ascii.eqb x c)) p = true →
  String.prefix p (a +:+ String c b) = String.prefix p a.
Proof.
  revert a. induction p as [|x p IH]; intros a Hp.
  - by rewrite !prefix_empty.
  - simpl in Hp. apply andb_true_iff in Hp as [Hx Hp].
    apply negb_true_iff in Hx. destruct a as [|y a].
    + rewrite app_empty_l. simpl. destruct (ascii_dec x c) as [->|]; [|done].
      by rewrite Ascii.eqb_refl in Hx.
    + rewrite app_cons. simpl. destruct (ascii_dec x y); [|done]. by apply IH.
Qed.

Lemma prefix_app_l p q s :
  String.prefix (p +:+ q) s = true → String.prefix p s = true.
Proof.
  revert s. induction p as [|x p IH]; intros s.
  - by rewrite prefix_empty.
  - rewrite app_cons. destruct s as [|y s]; [done|]. simpl.
    destruct (ascii_dec x y); [|done]. apply IH.
Qed.

Lemma prefix_needs_char p c s :
  str_all (λ x, negb (Ascii.eqb x c)) s = true →
  str_contains (String c "") p = true →
  String.prefix p s = false.
Proof.
  revert s. induction p as [|x p IH]; intros s Hs Hp; [done|].
  destruct s as [|y s]; [done|]. simpl in *.
  apply andb_true_iff in Hs as [Hy Hs]. apply negb_true_iff in Hy.
  destruct (ascii_dec x y) as [->|]; [|done].
  destruct (ascii_dec c y) as [->|].
  - by rewrite Ascii.eqb_refl in Hy.
  - by apply IH.
Qed.

Lemma eqb_app_sep_false a c b suf :
  str_all (λ x, negb (Ascii.eqb x c)) suf = true →
  String.eqb (a +:+ String c b) suf = false.
Proof.
  intros Hsuf. apply String.eqb_neq. intros E. subst suf.
  rewrite str_all_app in Hsuf. simpl in Hsuf.
  rewrite Ascii.eqb_refl in Hsuf. simpl in Hsuf.
  by rewrite andb_false_r in Hsuf.
Qed.

Lemma str_endswith_cons suf x s :
  str_endswith suf (String x s)
  = String.eqb (String x s) suf || str_endswith suf s.
Proof. reflexivity. Qed.

(** A separator that does not occur in [suf] hides what precedes it. *)
Lemma str_endswith_sep suf a c b :
  str_all (λ x, negb (Ascii.eqb x c)) suf = true →
  str_endswith suf (a +:+ String c b) = str_endswith suf b.
Proof.
  intros Hsuf. induction a as [|x a IH].
  - rewrite app_empty_l, str_endswith_cons.
    change (String c b) with ("" +:+ String c b) at 1.
    by rewrite eqb_app_sep_false.
  - rewrite app_cons, str_endswith_cons, IH.
    change (String x (a +:+ String c b)) with (String x a +:+ String c b).
    by rewrite eqb_app_sep_false.
Qed.

Lemma str_endswith_app suf a : str_endswith suf (a +:+ suf) = true.
Proof.
  induction a as [|x a IH].
  - rewrite app_empty_l. destruct suf; [done|].
    by rewrite str_endswith_cons, String.eqb_refl.
  - by rewrite app_cons, str_endswith_cons, IH, orb_true_r.
Qed.

Lemma length_app_str a b :
  String.length (a +:+ b) = (String.length a + String.length b)%nat.
Proof. induction a as [|x a IH]; [done|]. rewrite app_cons. simpl. by rewrite IH. Qed.

Lemma drop_last_all s : drop_last (String.length s) s = "".
Proof.
  destruct s as [|c s]; [done|]. simpl.
  by rewrite (proj2 (Nat.ltb_lt _ _)) by lia.
Qed.

Lemma drop_last_app a suf : drop_last (String.length suf) (a +:+ suf) = a.
Proof.
  induction a as [|x a IH].
  - rewrite app_empty_l. apply drop_last_all.
  - rewrite app_cons. simpl. rewrite length_app_str.
    rewrite (proj2 (Nat.ltb_ge _ _)) by lia. by rewrite IH.
Qed.

Lemma last_segment_app sep a b :
  str_all (λ c, negb (Ascii.eqb c sep)) a = true →
  last_segment sep (a +:+ String sep b) = last_segment sep b.
Proof.
  intros Ha. unfold last_segment. rewrite str_split_app by done.
  destruct (str_split sep b) eqn:E; [|done].
  by destruct b; simpl in E; repeat case_match.
Qed.

Lemma last_segment_none sep s :
  str_all (λ c, negb (Ascii.eqb c sep)) s = true → last_segment sep s = s.
Proof. intros H. unfold last_segment. by rewrite str_split_none. Qed.

Lemma rstrip_by_cons p c s :
  rstrip_by p (String c s)
  = match rstrip_by p s with
    | "" => if p c then "" else String c ""
    | r => String c r
    end.
Proof. reflexivity. Qed.

Lemma rstrip_by_idem p s : rstrip_by p (rstrip_by p s) = rstrip_by p s.
Proof.
  induction s as [|c s IH]; [done|]. rewrite rstrip_by_cons.
  destruct (rstrip_by p s) as [|d r] eqn:E.
  - destruct (p c) eqn:Hc; [done|]. rewrite rstrip_by_cons. cbn [rstrip_by].
    by rewrite Hc.
  - by rewrite rstrip_by_cons, IH.
Qed.

Lemma lstrip_by_head p s :
  lstrip_by p s = "" ∨ ∃ c t, lstrip_by p s = String c t ∧ p c = false.
Proof.
  induction s as [|c s IH]; [by left|]. cbn [lstrip_by].
  destruct (p c) eqn:Hc; [done|]. right. by exists c, s.
Qed.

Lemma lstrip_by_idem p s : lstrip_by p (lstrip_by p s) = lstrip_by p s.
Proof.
  destruct (lstrip_by_head p s) as [->|(c & t & -> & Hc)]; [done|].
  by apply lstrip_by_id.
Qed.

Lemma rstrip_by_head p c t :
  p c = false → ∃ t', rstrip_by p (String c t) = String c t'.
Proof.
  intros Hc. rewrite rstrip_by_cons. destruct (rstrip_by p t); [|by eexists].
  rewrite Hc. by eexists.
Qed.

Lemma strip_by_lstrip p s : lstrip_by p (strip_by p s) = strip_by p s.
Proof.
  unfold strip_by.
  destruct (lstrip_by_head p s) as [->|(c & t & -> & Hc)]; [done|].
  destruct (rstrip_by_head p c t Hc) as [t' ->]. by apply lstrip_by_id.
Qed.

Lemma strip_by_rstrip p s : rstrip_by p (strip_by p s) = strip_by p s.
Proof. apply rstrip_by_idem. Qed.

Lemma strip_by_fixed p s :
  lstrip_by p s = s → rstrip_by p s = s → strip_by p s = s.
Proof. intros H1 H2. unfold strip_by. by rewrite H1. Qed.

Lemma rstrip_by_app_fixed p a b :
  rstrip_by p b = b → b ≠ "" → rstrip_by p (a +:+ b) = a +:+ b.
Proof.
  intros Hb Hne. induction a as [|x a IH]; [done|].
  rewrite app_cons, rstrip_by_cons, IH.
  destruct (a +:+ b) eqn:E; [|done]. by destruct a, b.
Qed.

Lemma lstrip_by_app_fixed p a b :
  lstrip_by p a = a → a ≠ "" → lstrip_by p (a +:+ b) = a +:+ b.
Proof.
  intros Ha Hne. destruct a as [|c a]; [done|].
  rewrite app_cons. cbn [lstrip_by] in *.
  destruct (p c); [|done].
  (* the first character would have been stripped *)
  exfalso. assert (String.length (lstrip_by p a) ≤ String.length a)%nat as Hlen.
  { clear. induction a as [|x a IH]; [done|]. cbn [lstrip_by].
    destruct (p x); simpl; lia. }
  rewrite Ha in Hlen. simpl in Hlen. lia.
Qed.

Lemma str_all_lstrip q p s : str_all q s = true → str_all q (lstrip_by p s) = true.
Proof.
  induction s as [|c s IH]; [done|]. cbn [lstrip_by].
  destruct (p c); [|done]. cbn [str_all]. intros [_ H]%andb_true_iff. auto.
Qed.

Lemma str_all_rstrip q p s : str_all q s = true → str_all q (rstrip_by p s) = true.
Proof.
  induction s as [|c s IH]; [done|]. rewrite rstrip_by_cons. cbn [str_all].
  intros [Hc Hs]%andb_true_iff. specialize (IH Hs).
  destruct (rstrip_by p s); [destruct (p c)|]; cbn [str_all] in *;
    rewrite ?Hc; done.
Qed.

Lemma str_all_strip q p s : str_all q s = true → str_all q (strip_by p s) = true.
Proof. intros. by apply str_all_rstrip, str_all_lstrip. Qed.
(** ** Facts about the URL forms *)

Lemma lacks_not (p : ascii → bool) c s :
  (∀ x, p x = true → x = c) → lacks c s →
  str_all (λ x, negb (p x)) s = true.
Proof.
  intros Hp. apply str_all_impl. intros x Hx. apply negb_true_iff in Hx.
  apply Ascii.eqb_neq in Hx. apply negb_true_iff.
  destruct (p x) eqn:E; [|done]. by apply Hp in E.
Qed.

Lemma char_is_eq c x : char_is c x = true → x = c.
Proof. unfold char_is. by intros ->%Ascii.eqb_eq. Qed.

Lemma eqb_char_eq c x : Ascii.eqb x c = true → x = c.
Proof. by intros ->%Ascii.eqb_eq. Qed.

Lemma lacks_not_char_is c s :
  lacks c s → str_all (λ x, negb (char_is c x)) s = true.
Proof. apply lacks_not, char_is_eq. Qed.

Lemma lacks_app c a b : lacks c a → lacks c b → lacks c (a +:+ b).
Proof. unfold lacks. intros Ha Hb. by rewrite str_all_app, Ha, Hb. Qed.

Lemma lacks_cons c x s : x ≠ c → lacks c s → lacks c (String x s).
Proof.
  unfold lacks. intros Hx Hs. cbn [str_all].
  by rewrite Hs, (proj2 (Ascii.eqb_neq _ _)).
Qed.

Lemma url_text_parts s :
  url_text s →
  str_all (λ c, negb (is_unsafe_url_byte c)) s = true
  ∧ lacks "?" s ∧ lacks "#" s.
Proof.
  intros Hs. repeat split; revert Hs; apply str_all_impl; intros c;
    unfold url_char, char_is; rewrite !andb_true_iff, !negb_true_iff;
    intros [[H1 H2] H3]; rewrite ?(Ascii.eqb_sym c); done.
Qed.

(** Splits [str_all p] over the pieces of a concatenation. *)
Ltac str_all_split :=
  repeat first
    [ rewrite str_all_app | rewrite app_cons | rewrite app_empty_l
    | progress cbn [str_all] ].

(** The parameters of a path are looked for in its last segment
    only. *)
Lemma splitparams_last a repo :
  lacks "/" repo → lacks ";" repo →
  splitparams (a +:+ String "/" repo) = (a +:+ String "/" repo, "").
Proof.
  intros Hslash Hsemi. induction a as [|c a IH].
  - rewrite app_empty_l. cbn [splitparams].
    rewrite str_contains_char_false by done.
    rewrite break_at_none; [done|].
    cbn [str_all]. by rewrite (lacks_not_char_is ";" repo).
  - rewrite app_cons. cbn [splitparams].
    by rewrite str_contains_char_app, IH.
Qed.

Section UrlparseFacts.
Variable bho : string → bool.

(** [urlparse] on an http(s) URL with a host and a path of two
    segments. *)
Lemma urlparse_form sch host owner repo :
  sch = "http" ∨ sch = "https" →
  http_host bho host →
  lacks "/" owner → url_text owner →
  lacks "/" repo → url_text repo → lacks ";" repo →
  urlparse bho (sch +:+ "://" +:+ host +:+ "/" +:+ owner +:+ "/" +:+ repo)
  = Ok (mkParseResult sch host ("/" +:+ owner +:+ "/" +:+ repo) "" "" "").
Proof.
  intros Hsch (Hh & Hhslash & Hbr) Hoslash Ho Hrslash Hr Hrsemi.
  set (path := "/" +:+ owner +:+ "/" +:+ repo).
  destruct (url_text_parts _ Hh) as (Hhsafe & Hhq & Hhf).
  destruct (url_text_parts _ Ho) as (Hosafe & Hoq & Hof).
  destruct (url_text_parts _ Hr) as (Hrsafe & Hrq & Hrf).
  assert (Hnodelim : str_all (λ c, negb (is_netloc_delim c)) host = true).
  { clear -Hh Hhslash. unfold url_text, lacks in *.
    induction host as [|c s IH]; [done|]. cbn [str_all] in *.
    apply andb_true_iff in Hh as [Hc Hs].
    apply andb_true_iff in Hhslash as [Hc' Hs'].
    rewrite IH by done. rewrite andb_true_r.
    unfold url_char in Hc. unfold is_netloc_delim, char_is in *.
    apply andb_true_iff in Hc as [[_ H1]%andb_true_iff H2].
    apply negb_true_iff in H1, H2, Hc'.
    by rewrite (Ascii.eqb_sym "/" c), Hc', H1, H2. }
  assert (Hpath : ∀ c, c ≠ "/"%char → lacks c owner → lacks c repo →
                       lacks c path).
  { intros c Hne H1 H2. unfold path.
    rewrite !app_cons, !app_empty_l. apply lacks_cons; [done|].
    apply lacks_app; [done|]. by apply lacks_cons. }
  assert (E1 : str_filter (λ c, negb (is_unsafe_url_byte c))
                 (lstrip_by is_c0_or_space (sch +:+ "://" +:+ host +:+ path))
               = sch +:+ String ":" ("//" +:+ host +:+ path)).
  { assert (lstrip_by is_c0_or_space (sch +:+ "://" +:+ host +:+ path)
            = sch +:+ "://" +:+ host +:+ path) as ->
      by (destruct Hsch as [-> | ->]; reflexivity).
    apply str_filter_id. unfold path. str_all_split.
    rewrite Hhsafe, Hosafe, Hrsafe.
    destruct Hsch as [-> | ->]; reflexivity. }
  assert (E2 : break_at (char_is ":") (sch +:+ String ":" ("//" +:+ host +:+ path))
               = (sch, String ":" ("//" +:+ host +:+ path))).
  { apply break_at_app; [|done]. destruct Hsch as [-> | ->]; reflexivity. }
  assert (E3 : break_at is_netloc_delim (host +:+ path) = (host, path)).
  { unfold path. rewrite app_cons, app_empty_l. by apply break_at_app. }
  assert (E4 : ∀ c, c ≠ "/"%char → lacks c owner → lacks c repo →
                    break_at (char_is c) path = (path, "")).
  { intros c Hne H1 H2. apply break_at_none.
    eapply lacks_not; [apply char_is_eq|]. by apply Hpath. }
  assert (E5 : splitparams path = (path, "")).
  { unfold path. rewrite <- app_assoc_str.
    rewrite (app_cons "/" "" repo), app_empty_l.
    by apply splitparams_last. }
  assert (Hfinish : ∀ sch0,
    (mbind (M := result)
       (λ '(nl, url0),
          let '(url1, frag) :=
            let '(a, b) := break_at (char_is "#") url0 in (a, str_tail b) in
          let '(url2, qry) :=
            let '(a, b) := break_at (char_is "?") url1 in (a, str_tail b) in
          let '(url3, prm) :=
            if str_in_list sch0 uses_params && str_contains ";" url2
            then splitparams url2 else (url2, "") in
          Ok (mkParseResult sch0 nl url3 prm qry frag))
       (let '(nl, rest) := break_at is_netloc_delim (host +:+ path) in
        if xorb (str_contains "[" nl) (str_contains "]" nl)
        then Raise (Exn ValueError "Invalid IPv6 URL")
        else if str_contains "[" nl && str_contains "]" nl
        then if bho (break_at (char_is "]")
                       (str_tail (break_at (char_is "[") nl).2)).1
             then Ok (nl, rest)
             else Raise (Exn ValueError "invalid bracketed host")
        else Ok (nl, rest)))
    = Ok (mkParseResult sch0 host path "" "" "")).
  { intros sch0. rewrite E3. unfold brackets_ok in Hbr. cbv zeta in Hbr.
    destruct (xorb _ _); [done|].
    assert ((if str_contains "[" host && str_contains "]" host
             then if bho (break_at (char_is "]")
                            (str_tail (break_at (char_is "[") host).2)).1
                  then Ok (host, path)
                  else Raise (Exn ValueError "invalid bracketed host")
             else Ok (host, path)) = Ok (host, path)) as ->.
    { destruct (_ && _); [|done]. by rewrite Hbr. }
    cbn [mbind result_bind].
    rewrite (E4 "#"%char), (E4 "?"%char) by done. cbn [str_tail].
    destruct (str_in_list sch0 uses_params && str_contains ";" path);
      [rewrite E5|]; reflexivity. }
  unfold urlparse. rewrite E1, E2.
  destruct Hsch as [-> | ->]; cbv beta iota zeta.
  - change (is_ascii_alpha "h" && str_all is_scheme_char "http") with true.
    change (str_lower "http") with "http". cbv beta iota zeta.
    rewrite !app_cons, app_empty_l. by apply Hfinish.
  - change (is_ascii_alpha "h" && str_all is_scheme_char "https") with true.
    change (str_lower "https") with "https". cbv beta iota zeta.
    rewrite !app_cons, app_empty_l. by apply Hfinish.
Qed.
End UrlparseFacts.

(** ** Facts about [re_match] *)

Lemma re_match_notplus_cons c p' x s :
  re_match (RNotPlus c :: p') (String x s)
  = if Ascii.eqb x c then None
    else match re_match (RNotPlus c :: p') s with
         | Some (g :: gs) => Some (String x g :: gs)
         | _ => match re_match p' s with
                | Some gs => Some (String x "" :: gs)
                | None => None
                end
         end.
Proof. reflexivity. Qed.

Lemma re_match_lit_cons c p' x s :
  re_match (RLit c :: p') (String x s)
  = if Ascii.eqb x c then re_match p' s else None.
Proof. reflexivity. Qed.

(** A group [([^c]+)] followed by the literal [c] takes everything up
    to the first [c]. *)
Lemma re_match_group_sep c p' a r :
  a ≠ "" → lacks c a →
  re_match (RNotPlus c :: RLit c :: p') (a +:+ String c r)
  = match re_match p' r with
    | Some gs => Some (a :: gs)
    | None => None
    end.
Proof.
  intros Hne Ha. induction a as [|x a IH]; [done|]. clear Hne.
  unfold lacks in Ha. cbn [str_all] in Ha.
  apply andb_true_iff in Ha as [Hx Ha]. apply negb_true_iff in Hx.
  rewrite app_cons, re_match_notplus_cons, Hx.
  destruct a as [|y a].
  - rewrite app_empty_l, re_match_notplus_cons, Ascii.eqb_refl.
    rewrite re_match_lit_cons, Ascii.eqb_refl. by destruct (re_match p' r).
  - rewrite IH by done. destruct (re_match p' r); [done|].
    rewrite app_cons, re_match_lit_cons.
    cbn [str_all] in Ha. apply andb_true_iff in Ha as [Hy _].
    apply negb_true_iff in Hy. by rewrite Hy.
Qed.

(** A final group [([^c]+)] takes a text without [c] whole. *)
Lemma re_match_group_end c a :
  a ≠ "" → lacks c a → re_match [RNotPlus c] a = Some [a].
Proof.
  intros Hne Ha. induction a as [|x a IH]; [done|]. clear Hne.
  unfold lacks in Ha. cbn [str_all] in Ha.
  apply andb_true_iff in Ha as [Hx Ha]. apply negb_true_iff in Hx.
  rewrite re_match_notplus_cons, Hx. destruct a as [|y a]; [done|].
  by rewrite IH.
Qed.

(** ** The identity resolver on the three URL forms *)

(** Decides [str_startswith] of a literal on a text that starts with
    literal characters. *)
Ltac solve_prefix :=
  unfold str_startswith; rewrite ?app_cons, ?app_empty_l;
  cbn [String.prefix]; simpl ascii_dec; cbv iota;
  rewrite ?prefix_empty; reflexivity.

Section IdentityFacts.
Variable bho : string → bool.
#[local] Abbreviation parse := (parse_repo_url bho).

Lemma parse_repo_url_unfold url :
  parse url =
  let u := trimmed_url url in
  let fallback := Ok (u, "unknown", str_remove ".git" (last_segment "/" u)) in
  if str_startswith "http://" u || str_startswith "https://" u then
    parsed ← urlparse bho u;
    match str_split "/" (strip_by (char_is "/") (url_path parsed)) with
    | user :: repo :: _ =>
        Ok (url_scheme parsed +:+ "://" +:+ url_netloc parsed +:+ "/" +:+ user
              +:+ "/" +:+ repo +:+ ".git", user, repo)
    | _ => fallback
    end
  else if str_startswith "git@" u then
    match re_match ssh_pattern u with
    | Some [host; user; repo] =>
        Ok ("git@" +:+ host +:+ ":" +:+ user +:+ "/" +:+ repo +:+ ".git",
            user, repo)
    | _ => fallback
    end
  else if str_contains "/" u && negb (str_startswith "http" u) then
    match str_split "/" u with
    | [user; repo] =>
        Ok ("https://github.com/" +:+ user +:+ "/" +:+ repo +:+ ".git",
            user, repo)
    | _ => fallback
    end
  else fallback.
Proof. reflexivity. Qed.

(** Trimming a URL that ends in a repository name, with or without
    the [.git] suffix. *)
Lemma trimmed_url_form pre repo sfx :
  lstrip_by is_space (pre +:+ "/") = pre +:+ "/" →
  repo_segment repo →
  sfx = "" ∨ sfx = ".git" →
  trimmed_url (pre +:+ "/" +:+ repo +:+ sfx) = pre +:+ "/" +:+ repo.
Proof.
  intros Hpre ((Hne & Hslash) & Hr & Hgit) Hsfx.
  assert (Hstrip : str_strip (pre +:+ "/" +:+ repo +:+ sfx)
                   = pre +:+ "/" +:+ repo +:+ sfx).
  { apply strip_by_fixed.
    - rewrite <- (app_assoc_str pre "/" (repo +:+ sfx)).
      apply lstrip_by_app_fixed; [done|]. by destruct pre.
    - destruct Hsfx as [-> | ->].
      + rewrite app_empty_r, <- (app_assoc_str pre "/" repo).
        by apply rstrip_by_app_fixed.
      + rewrite <- (app_assoc_str "/" repo ".git"),
          <- (app_assoc_str pre ("/" +:+ repo) ".git").
        by apply rstrip_by_app_fixed. }
  unfold trimmed_url. rewrite Hstrip.
  destruct Hsfx as [-> | ->].
  - rewrite app_empty_r, app_cons, app_empty_l.
    rewrite str_endswith_sep by done. by rewrite Hgit.
  - rewrite <- (app_assoc_str "/" repo ".git"),
      <- (app_assoc_str pre ("/" +:+ repo) ".git").
    rewrite str_endswith_app.
    apply (drop_last_app (pre +:+ "/" +:+ repo) ".git").
Qed.

Lemma segment_lstrip_slash s rest :
  segment s → lstrip_by (char_is "/") (s +:+ rest) = s +:+ rest.
Proof.
  intros [Hne Hs]. destruct s as [|c s']; [done|]. rewrite app_cons.
  apply lstrip_by_id. unfold lacks in Hs. cbn [str_all] in Hs.
  apply andb_true_iff in Hs as [Hc _]. apply negb_true_iff in Hc.
  unfold char_is. by rewrite Ascii.eqb_sym.
Qed.

Lemma parse_http sch host owner repo sfx :
  sch = "http" ∨ sch = "https" → sfx = "" ∨ sfx = ".git" →
  segment owner → repo_segment repo →
  http_host bho host → url_text owner → url_text repo → lacks ";" repo →
  parse (sch +:+ "://" +:+ host +:+ "/" +:+ owner +:+ "/" +:+ repo +:+ sfx)
  = Ok (sch +:+ "://" +:+ host +:+ "/" +:+ owner +:+ "/" +:+ repo +:+ ".git",
        owner, repo).
Proof.
  intros Hsch Hsfx Ho Hr Hh Hot Hrt Hsemi. rewrite parse_repo_url_unfold.
  assert (trimmed_url (sch +:+ "://" +:+ host +:+ "/" +:+ owner +:+ "/"
                       +:+ repo +:+ sfx)
          = sch +:+ "://" +:+ host +:+ "/" +:+ owner +:+ "/" +:+ repo) as ->.
  { rewrite <- !(app_assoc_str _ _ ("/" +:+ repo +:+ sfx)).
    rewrite trimmed_url_form; [by rewrite !app_assoc_str|..]; try done.
    destruct Hsch as [-> | ->]; reflexivity. }
  cbv zeta.
  assert (str_startswith "http://"
            (sch +:+ "://" +:+ host +:+ "/" +:+ owner +:+ "/" +:+ repo)
          || str_startswith "https://"
            (sch +:+ "://" +:+ host +:+ "/" +:+ owner +:+ "/" +:+ repo) = true)
    as -> by (destruct Hsch as [-> | ->]; solve_prefix).
  destruct Ho as [Hone Hoslash]. destruct Hr as ([Hrne Hrslash] & _ & _).
  rewrite urlparse_form by done. cbn [mbind result_bind url_path].
  unfold strip_by. rewrite app_cons, app_empty_l.
  cbn [lstrip_by]. change (char_is "/" "/") with true. cbv iota.
  rewrite segment_lstrip_slash by done.
  rewrite <- app_assoc_str.
  rewrite rstrip_by_app; [|by apply lacks_not_char_is|done].
  rewrite app_assoc_str, app_cons, app_empty_l.
  rewrite str_split_app by done.
  rewrite str_split_none by done.
  done.
Qed.

Lemma parse_ssh host owner repo sfx :
  sfx = "" ∨ sfx = ".git" →
  segment owner → repo_segment repo →
  host ≠ "" → lacks ":" host →
  parse ("git@" +:+ host +:+ ":" +:+ owner +:+ "/" +:+ repo +:+ sfx)
  = Ok ("git@" +:+ host +:+ ":" +:+ owner +:+ "/" +:+ repo +:+ ".git",
        owner, repo).
Proof.
  intros Hsfx Ho Hr Hhne Hh. rewrite parse_repo_url_unfold.
  assert (trimmed_url ("git@" +:+ host +:+ ":" +:+ owner +:+ "/" +:+ repo +:+ sfx)
          = "git@" +:+ host +:+ ":" +:+ owner +:+ "/" +:+ repo) as ->.
  { rewrite <- !(app_assoc_str _ _ ("/" +:+ repo +:+ sfx)).
    rewrite trimmed_url_form; [by rewrite !app_assoc_str|..]; done. }
  cbv zeta.
  assert (∀ x, str_startswith "http://" ("git@" +:+ x) = false) as ->
    by (intros x; solve_prefix).
  assert (∀ x, str_startswith "https://" ("git@" +:+ x) = false) as ->
    by (intros x; solve_prefix).
  assert (∀ x, str_startswith "git@" ("git@" +:+ x) = true) as ->
    by (intros x; solve_prefix).
  destruct Ho as [Hone Hoslash]. destruct Hr as ([Hrne Hrslash] & _ & _).
  cbn [orb]. rewrite !app_cons, app_empty_l.
  unfold ssh_pattern. rewrite !re_match_lit_cons. cbn [Ascii.eqb Bool.eqb].
  cbv iota. rewrite ?app_cons, ?app_empty_l.
  rewrite re_match_group_sep by done.
  rewrite re_match_group_sep by done.
  rewrite re_match_group_end by done.
  done.
Qed.

Lemma parse_bare owner repo sfx :
  sfx = "" ∨ sfx = ".git" →
  segment owner → repo_segment repo →
  lstrip_by is_space owner = owner →
  str_startswith "http" owner = false →
  str_startswith "git@" owner = false →
  parse (owner +:+ "/" +:+ repo +:+ sfx)
  = Ok ("https://github.com/" +:+ owner +:+ "/" +:+ repo +:+ ".git",
        owner, repo).
Proof.
  intros Hsfx Ho Hr Hstrip Hhttp Hgit. rewrite parse_repo_url_unfold.
  rewrite trimmed_url_form; [|by apply lstrip_by_app_fixed; [|apply Ho]|done..].
  destruct Ho as [Hone Hoslash]. destruct Hr as ([Hrne Hrslash] & _ & _).
  cbv zeta. rewrite app_cons, app_empty_l.
  assert (Hh : str_startswith "http" (owner +:+ String "/" repo) = false).
  { unfold str_startswith. by rewrite prefix_app_sep. }
  assert (str_startswith "http://" (owner +:+ String "/" repo) = false) as ->.
  { apply not_true_is_false. intros H.
    apply (prefix_app_l "http" "://") in H. unfold str_startswith in Hh.
    congruence. }
  assert (str_startswith "https://" (owner +:+ String "/" repo) = false) as ->.
  { apply not_true_is_false. intros H.
    apply (prefix_app_l "http" "s://") in H. unfold str_startswith in Hh.
    congruence. }
  assert (str_startswith "git@" (owner +:+ String "/" repo) = false) as ->.
  { unfold str_startswith. by rewrite prefix_app_sep. }
  rewrite Hh, str_contains_char_app. cbn [orb andb negb].
  rewrite str_split_app by done.
  rewrite str_split_none by done.
  done.
Qed.

(** The inputs left to the last rule. *)
Lemma parse_fallback url :
  let u := trimmed_url url in
  falls_back bho u →
  parse url = Ok (u, "unknown", str_remove ".git" (last_segment "/" u)).
Proof.
  intros u. rewrite parse_repo_url_unfold. fold u. cbv zeta.
  unfold falls_back.
  destruct (str_startswith "http://" u || str_startswith "https://" u).
  { intros (parsed & -> & Hlen). cbn [mbind result_bind].
    destruct (str_split _ _) as [|? [|? ?]]; [done..|].
    cbn [length] in Hlen. lia. }
  destruct (str_startswith "git@" u); [by intros ->|].
  intros H4.
  destruct (str_contains "/" u && negb (str_startswith "http" u)) eqn:E;
    [|done].
  apply andb_true_iff in E as [E1 E2]. apply negb_true_iff in E2.
  destruct H4 as [H4|[H4|H4]]; [congruence..|].
  by destruct (str_split "/" u) as [|? [|? [|? ?]]].
Qed.

(** The only way [parse_repo_url] fails is [urlparse] raising on an
    http(s) URL. *)
Lemma parse_raises url e :
  parse url = Raise e →
  (str_startswith "http://" (trimmed_url url)
   || str_startswith "https://" (trimmed_url url) = true)
  ∧ urlparse bho (trimmed_url url) = Raise e.
Proof.
  rewrite parse_repo_url_unfold. cbv zeta.
  destruct (str_startswith "http://" _ || str_startswith "https://" _).
  - destruct (urlparse bho _) as [p|e']; cbn [mbind result_bind].
    + by destruct (str_split _ _) as [|? [|? ?]].
    + by intros [= ->].
  - destruct (str_startswith "git@" _).
    + by destruct (re_match _ _) as [[|? [|? [|? [|? ?]]]]|].
    + destruct (_ && _); [|done].
      by destruct (str_split _ _) as [|? [|? [|? ?]]].
Qed.
End IdentityFacts.

(** C4 (amended).  [parse_repo_url] is a function of its argument.
    For an owner and a repository name, each not empty and without a
    slash, the repository name without white space at its end and not
    itself ending in [.git]:
    an [http(s)://host/owner/repo[.git]] URL, whose host may carry user
    information and a port, gives [scheme://host/owner/repo.git], as
    long as [urlparse] leaves the three parts in place;
    the SSH form [git@host:owner/repo[.git]], with the user [git] and a
    host that is not empty and has no colon, gives
    [git@host:owner/repo.git];
    the bare [owner/repo[.git]], for an owner that does not start with
    white space, with [http] or with [git@], gives
    [https://github.com/owner/repo.git];
    and the three give the same owner and repository name.
    Every input left to the last rule, among them an http(s) URL whose
    path has fewer than two segments and a text that starts with
    [git@] and that the SSH pattern does not match, gives the owner
    ["unknown"], the last path segment with every [.git] removed, and
    the stripped URL without its [.git] suffix.  The only failure is a
    [ValueError] of [urlparse] on an http(s) URL. *)
Theorem parse_repo_url_rules (bho : string → bool) :
  (∀ sch host owner repo sfx,
     sch = "http" ∨ sch = "https" → sfx = "" ∨ sfx = ".git" →
     segment owner → repo_segment repo →
     http_host bho host → url_text owner → url_text repo → lacks ";" repo →
     parse_repo_url bho
       (sch +:+ "://" +:+ host +:+ "/" +:+ owner +:+ "/" +:+ repo +:+ sfx)
     = Ok (sch +:+ "://" +:+ host +:+ "/" +:+ owner +:+ "/" +:+ repo +:+ ".git",
           owner, repo))
  ∧ (∀ host owner repo sfx,
     sfx = "" ∨ sfx = ".git" →
     segment owner → repo_segment repo →
     host ≠ "" → lacks ":" host →
     parse_repo_url bho
       ("git@" +:+ host +:+ ":" +:+ owner +:+ "/" +:+ repo +:+ sfx)
     = Ok ("git@" +:+ host +:+ ":" +:+ owner +:+ "/" +:+ repo +:+ ".git",
           owner, repo))
  ∧ (∀ owner repo sfx,
     sfx = "" ∨ sfx = ".git" →
     segment owner → repo_segment repo →
     lstrip_by is_space owner = owner →
     str_startswith "http" owner = false →
     str_startswith "git@" owner = false →
     parse_repo_url bho (owner +:+ "/" +:+ repo +:+ sfx)
     = Ok ("https://github.com/" +:+ owner +:+ "/" +:+ repo +:+ ".git",
           owner, repo))
  ∧ (∀ url,
       falls_back bho (trimmed_url url) →
       parse_repo_url bho url
       = Ok (trimmed_url url, "unknown",
             str_remove ".git" (last_segment "/" (trimmed_url url))))
  ∧ (∀ url e,
       parse_repo_url bho url = Raise e →
       (str_startswith "http://" (trimmed_url url)
        || str_startswith "https://" (trimmed_url url) = true)
       ∧ urlparse bho (trimmed_url url) = Raise e)
  ∧ (∀ url r1 r2,
       parse_repo_url bho url = r1 → parse_repo_url bho url = r2 → r1 = r2).
Proof.
  repeat split.
  - intros sch host owner repo sfx Hsch Hsfx Ho Hr Hh Hot Hrt Hsemi.
    by apply parse_http.
  - intros host owner repo sfx Hsfx Ho Hr Hne Hh. by apply parse_ssh.
  - intros owner repo sfx Hsfx Ho Hr H1 H2 H3. by apply parse_bare.
  - intros url. apply parse_fallback.
  - by eapply parse_raises.
  - by eapply parse_raises.
  - congruence.
Qed.

Lemma parse_repo_url_rules_witness :
  segment "acme" ∧ repo_segment "tool"
  ∧ http_host (λ _, true) "bob@example.com:8443"
  ∧ parse_repo_url (λ _, true) "https://bob@example.com:8443/acme/tool.git"
    = Ok ("https://bob@example.com:8443/acme/tool.git", "acme", "tool")
  ∧ parse_repo_url (λ _, true) "git@example.com:acme/tool.git"
    = Ok ("git@example.com:acme/tool.git", "acme", "tool")
  ∧ parse_repo_url (λ _, true) "acme/tool"
    = Ok ("https://github.com/acme/tool.git", "acme", "tool")
  ∧ parse_repo_url (λ _, true) "https://example.com/tool.git"
    = Ok ("https://example.com/tool", "unknown", "tool")
  ∧ parse_repo_url (λ _, true) "git@example.com"
    = Ok ("git@example.com", "unknown", "git@example.com").
Proof.
  assert (Ho : segment "acme") by (split; [discriminate|reflexivity]).
  assert (Hr : repo_segment "tool")
    by (repeat split; (discriminate || reflexivity)).
  assert (Hh : http_host (λ _, true) "bob@example.com:8443")
    by (by repeat split).
  destruct (parse_repo_url_rules (λ _, true))
    as (Hhttp & Hssh & Hbare & Hother & _).
  split; [exact Ho|]. split; [exact Hr|]. split; [exact Hh|].
  split; [|split; [|split; [|split]]].
  - apply (Hhttp "https" "bob@example.com:8443" "acme" "tool" ".git");
      try (by right); try reflexivity; done.
  - apply (Hssh "example.com" "acme" "tool" ".git");
      [by right|done|done|discriminate|reflexivity].
  - apply (Hbare "acme" "tool" ""); [by left|done|done|reflexivity..].
  - apply (Hother "https://example.com/tool.git").
    eexists. split; [reflexivity|]. vm_compute. lia.
  - apply (Hother "git@example.com"). reflexivity.
Defined.

(** C4 as stated fails on the code: an SSH URL whose user is not [git]
    is read as a bare [owner/repo]; a bare [owner/repo] whose owner
    starts with [http] gets the owner ["unknown"]; the fall-back URL is
    the stripped text without its [.git] suffix, not the input; and an
    http URL with an unbalanced bracket in its host raises. *)
Lemma parse_repo_url_claim_counterexample :
  parse_repo_url (λ _, true) "alice@example.com:acme/tool.git"
  = Ok ("https://github.com/alice@example.com:acme/tool.git",
        "alice@example.com:acme", "tool")
  ∧ parse_repo_url (λ _, true) "alice@example.com:acme/tool.git"
    ≠ Ok ("alice@example.com:acme/tool.git", "acme", "tool")
  ∧ parse_repo_url (λ _, true) "httpie/cli"
    = Ok ("httpie/cli", "unknown", "cli")
  ∧ parse_repo_url (λ _, true) "httpie/cli"
    ≠ Ok ("https://github.com/httpie/cli.git", "httpie", "cli")
  ∧ parse_repo_url (λ _, true) "https://example.com/tool.git"
    = Ok ("https://example.com/tool", "unknown", "tool")
  ∧ parse_repo_url (λ _, true) "http://[example/acme/tool"
    = Raise (Exn ValueError "Invalid IPv6 URL").
Proof. repeat split; (reflexivity || discriminate). Qed.

(** ** The catalog line parser *)

Lemma str_split_lacks sep s : Forall (lacks sep) (str_split sep s).
Proof.
  induction s as [|c s IH]; [by repeat constructor|]. cbn [str_split].
  destruct (Ascii.eqb c sep) eqn:Hc; [by constructor|].
  destruct (str_split sep s) as [|h t].
  { constructor; [|done]. unfold lacks. cbn [str_all]. by rewrite Hc. }
  inversion IH as [|?? Hh Ht]; subst. constructor; [|done].
  unfold lacks in *. cbn [str_all]. by rewrite Hc, Hh.
Qed.

Lemma str_split_head sep c s :
  Ascii.eqb c sep = false →
  ∃ h t, str_split sep (String c s) = String c h :: t.
Proof.
  intros Hc. cbn [str_split]. rewrite Hc.
  destruct (str_split sep s); by eexists _, _.
Qed.

Lemma str_split_sep sep b :
  str_split sep (String sep b) = "" :: str_split sep b.
Proof. cbn [str_split]. by rewrite Ascii.eqb_refl. Qed.

Lemma valid_field_strip s : valid_field s → str_strip s = s.
Proof. intros (_ & _ & H1 & H2). by apply strip_by_fixed. Qed.

(** What was stripped out of a comma-separated part is a valid field,
    unless it is empty. *)
Lemma strip_part_valid line part :
  part ∈ str_split "," line → str_strip part ≠ "" → valid_field (str_strip part).
Proof.
  intros Hin Hne. repeat split; [done|..].
  - apply str_all_strip. pose proof (str_split_lacks "," line) as H.
    rewrite Forall_forall in H. by apply H.
  - apply strip_by_lstrip.
  - apply strip_by_rstrip.
Qed.

Lemma nonempty_Some s t : nonempty s = Some t → s = t ∧ t ≠ "".
Proof. unfold nonempty. destruct s; [done|]. by intros [= <-]. Qed.

Lemma nonempty_valid s : s ≠ "" → nonempty s = Some s.
Proof. by destruct s. Qed.

Lemma str_truthy_ne s : s ≠ "" → str_truthy s = true.
Proof. by destruct s. Qed.

(** Parsing the line written for valid fields gives the fields back. *)
Lemma parse_format_line label url branch name :
  valid_fields url branch name →
  parse_config_line label (format_config_line url branch name)
  = Some (mkRepoEntry url branch name label).
Proof.
  intros ((Hune & Hucomma & Hul & Hur) & Hhash & Hb & Hn).
  assert (Hustrip : str_strip url = url) by (by apply strip_by_fixed).
  assert (Hline : ∀ rest,
            (rest = "" ∨ (rstrip_by is_space rest = rest ∧ rest ≠ "")) →
            str_strip (url +:+ rest) = url +:+ rest).
  { intros rest [->|[Hr Hrne]]; [by rewrite app_empty_r|].
    unfold str_strip, strip_by. rewrite lstrip_by_app_fixed by done.
    by apply rstrip_by_app_fixed. }
  assert (Hhash' : ∀ rest, str_startswith "#" (url +:+ rest) = false).
  { intros rest. destruct url as [|c url']; [done|]. rewrite app_cons.
    unfold str_startswith in *. cbn [String.prefix] in *.
    destruct (ascii_dec "#" c); [by rewrite prefix_empty in Hhash|done]. }
  assert (Htruthy : ∀ rest, str_truthy (url +:+ rest) = true).
  { intros rest. destruct url; [done|]. by rewrite app_cons. }
  assert (Htail : ∀ s, valid_field s →
            rstrip_by is_space ("," +:+ s) = "," +:+ s ∧ "," +:+ s ≠ "").
  { intros s (Hne & _ & _ & Hr). split; [|done].
    by apply rstrip_by_app_fixed. }
  unfold parse_config_line.
  destruct branch as [b|], name as [n|];
    cbn [format_config_line default from_option id].
  - (* url,branch,name *)
    pose proof Hb as Hb'. pose proof Hn as Hn'.
    destruct Hb as (Hbne & Hbcomma & Hbl & Hbr).
    destruct Hn as (Hnne & Hncomma & Hnl & Hnr).
    rewrite Hline, Htruthy, Hhash'.
    2:{ right. split; [|done].
        rewrite <- (app_assoc_str b "," n), <- (app_assoc_str "," (b +:+ ",") n).
        by apply rstrip_by_app_fixed. }
    cbn [andb negb].
    rewrite !app_cons, !app_empty_l.
    rewrite !str_split_app, str_split_none by done.
    cbn [fmap list_fmap lookup list_lookup].
    rewrite Hustrip, (valid_field_strip b), (valid_field_strip n) by done.
    rewrite str_truthy_ne by done. cbn [negb mbind option_bind].
    by rewrite !nonempty_valid by done.
  - (* url,branch *)
    pose proof Hb as Hb'. destruct Hb as (Hbne & Hbcomma & Hbl & Hbr).
    rewrite Hline, Htruthy, Hhash' by (right; by apply Htail).
    cbn [andb negb]. rewrite !app_cons, !app_empty_l.
    rewrite !str_split_app, str_split_none by done.
    cbn [fmap list_fmap lookup list_lookup].
    rewrite Hustrip, (valid_field_strip b) by done.
    rewrite str_truthy_ne by done. cbn [negb mbind option_bind].
    by rewrite !nonempty_valid by done.
  - (* url,,name *)
    pose proof Hn as Hn'. destruct Hn as (Hnne & Hncomma & Hnl & Hnr).
    rewrite Hline, Htruthy, Hhash'.
    2:{ right. split; [|done]. rewrite app_empty_l.
        change ("," +:+ "," +:+ n) with (",," +:+ n).
        by apply rstrip_by_app_fixed. }

    cbn [andb negb]. rewrite !app_cons, !app_empty_l.
    rewrite str_split_app, str_split_sep, str_split_none by done.
    cbn [fmap list_fmap lookup list_lookup].
    rewrite Hustrip, (valid_field_strip n) by done.
    rewrite str_truthy_ne by done. cbn [negb mbind option_bind].
    change (nonempty (str_strip "")) with (@None string).
    by rewrite nonempty_valid by done.
  - (* url *)
    rewrite Hustrip, Hhash, str_truthy_ne by done.
    cbn [andb negb]. rewrite str_split_none by done.
    cbn [fmap list_fmap lookup list_lookup].
    rewrite Hustrip, str_truthy_ne by done. done.
Qed.

Lemma str_strip_head s :
  str_strip s = "" ∨ ∃ c t, str_strip s = String c t ∧ is_space c = false.
Proof.
  unfold str_strip, strip_by.
  destruct (lstrip_by_head is_space s) as [->|(c & t & -> & Hc)]; [by left|].
  right. destruct (rstrip_by_head is_space c t Hc) as [t' ->]. by exists c, t'.
Qed.

Lemma strip_lookup_valid line parts i s :
  parts = str_strip <$> str_split "," line →
  parts !! i = Some s → s ≠ "" → valid_field s.
Proof.
  intros -> Hi Hne. rewrite list_lookup_fmap in Hi.
  destruct (str_split "," line !! i) as [part|] eqn:E; [|done].
  injection Hi as <-. apply (strip_part_valid line); [|done].
  by eapply list_elem_of_lookup_2.
Qed.

Lemma strip_lookup_opt_valid line parts i :
  parts = str_strip <$> str_split "," line →
  valid_opt_field (parts !! i ≫= nonempty).
Proof.
  intros Hparts. destruct (parts !! i) as [s|] eqn:E; [|done].
  cbn [mbind option_bind]. destruct (nonempty s) as [t|] eqn:Et; [|done].
  apply nonempty_Some in Et as [-> Hne]. cbn [valid_opt_field].
  by eapply strip_lookup_valid.
Qed.

(** Every entry the parser produces has valid fields, taken from the
    first three comma-separated parts of the stripped line. *)
Lemma parse_config_line_valid label line e :
  parse_config_line label line = Some e →
  let parts := str_strip <$> str_split "," (str_strip line) in
  parts !! 0%nat = Some (entry_url e)
  ∧ entry_branch e = parts !! 1%nat ≫= nonempty
  ∧ entry_name e = parts !! 2%nat ≫= nonempty
  ∧ entry_source_file e = label
  ∧ valid_fields (entry_url e) (entry_branch e) (entry_name e).
Proof.
  unfold parse_config_line.
  destruct (str_truthy (str_strip line) && negb (str_startswith "#" (str_strip line)))
    eqn:Hcond; [|done].
  apply andb_true_iff in Hcond as [Htruthy Hhash]. apply negb_true_iff in Hhash.
  set (parts := str_strip <$> str_split "," (str_strip line)).
  destruct (parts !! 0%nat) as [url|] eqn:E0; [|done].
  destruct (str_truthy url) eqn:Hurl; [|done]. cbn [negb].
  intros [= <-]. cbn [entry_url entry_branch entry_name entry_source_file].
  repeat split; try done.
  - destruct url; [done|discriminate].
  - by eapply (strip_lookup_valid (str_strip line) parts 0%nat url);
      [| |destruct url].
  - by eapply (strip_lookup_valid (str_strip line) parts 0%nat url);
      [| |destruct url].
  - by eapply (strip_lookup_valid (str_strip line) parts 0%nat url);
      [| |destruct url].
  - (* the URL starts with the first character of the line *)
    destruct (str_strip_head line) as [Hl|(c & t & Hl & Hc)];
      [by rewrite Hl in Htruthy|].
    subst parts. rewrite Hl in *. rewrite list_lookup_fmap in E0.
    destruct (Ascii.eqb c ",") eqn:Hcomma.
    + apply Ascii.eqb_eq in Hcomma as ->. rewrite str_split_sep in E0.
      injection E0 as <-. done.
    + destruct (str_split_head "," c t Hcomma) as (h & tl & Hsplit).
      rewrite Hsplit in E0. injection E0 as <-.
      unfold str_strip, strip_by. rewrite lstrip_by_id by done.
      destruct (rstrip_by_head is_space c h Hc) as [t' ->].
      unfold str_startswith in *. cbn [String.prefix] in *.
      destruct (ascii_dec "#" c); [|done]. by rewrite prefix_empty in Hhash.
  - by apply (strip_lookup_opt_valid (str_strip line)).
  - by apply (strip_lookup_opt_valid (str_strip line)).
Qed.

(** C9.  For valid fields (a URL that is not empty, has no comma, no
    white space at its ends and does not start with [#]; an optional
    branch and name that are likewise non-empty, comma-free and
    stripped): parsing the line [url[,branch[,name]]] gives exactly
    these fields, so a line with only the URL gives no branch and no
    name.  An empty line, a line that starts with [#], and a line
    whose first field is blank give no entry.  Every entry comes from
    the first three comma-separated, stripped fields of the line, and
    writing its fields out and parsing them again gives the same
    entry. *)
Theorem parse_config_line_round_trip
  (label url : string) (branch name : option string) :
  valid_fields url branch name →
  parse_config_line label (format_config_line url branch name)
  = Some (mkRepoEntry url branch name label)
  ∧ parse_config_line label url = Some (mkRepoEntry url None None label)
  ∧ (∀ line, str_strip line = "" → parse_config_line label line = None)
  ∧ (∀ line, str_startswith "#" (str_strip line) = true →
       parse_config_line label line = None)
  ∧ (∀ line first rest,
       str_split "," (str_strip line) = first :: rest → str_strip first = "" →
       parse_config_line label line = None)
  ∧ (∀ line e,
       parse_config_line label line = Some e →
       (str_strip <$> str_split "," (str_strip line)) !! 0%nat = Some (entry_url e)
       ∧ entry_branch e
         = (str_strip <$> str_split "," (str_strip line)) !! 1%nat ≫= nonempty
       ∧ entry_name e
         = (str_strip <$> str_split "," (str_strip line)) !! 2%nat ≫= nonempty
       ∧ parse_config_line label
           (format_config_line (entry_url e) (entry_branch e) (entry_name e))
         = Some e).
Proof.
  intros Hvalid. split; [by apply parse_format_line|].
  split.
  { destruct Hvalid as (Hu & Hhash & _ & _).
    by apply (parse_format_line label url None None). }
  split; [|split; [|split]].
  - intros line Hl. unfold parse_config_line. by rewrite Hl.
  - intros line Hl. unfold parse_config_line. rewrite Hl.
    by rewrite andb_false_r.
  - intros line first rest Hsplit Hfirst. unfold parse_config_line.
    destruct (_ && _); [|done]. rewrite Hsplit.
    cbn [fmap list_fmap lookup list_lookup]. by rewrite Hfirst.
  - intros line e He.
    destruct (parse_config_line_valid label line e He) as (H0 & H1 & H2 & H3 & H4).
    repeat split; try done.
    rewrite (parse_format_line label _ _ _ H4). f_equal.
    destruct e; cbn in *. by subst.
Qed.

Lemma parse_config_line_round_trip_witness :
  valid_fields "https://example.com/acme/tool.git" None (Some "tool")
  ∧ parse_config_line "repos.conf" "https://example.com/acme/tool.git,,tool"
    = Some (mkRepoEntry "https://example.com/acme/tool.git" None (Some "tool")
              "repos.conf").
Proof.
  assert (H : valid_fields "https://example.com/acme/tool.git" None (Some "tool")).
  { repeat split; (discriminate || reflexivity). }
  split; [exact H|].
  exact (proj1 (parse_config_line_round_trip "repos.conf" _ _ _ H)).
Defined.

(** ** The remote verifier *)

Lemma no_space_lacks c s :
  is_space c = true → str_all (λ c, negb (is_space c)) s = true → lacks c s.
Proof.
  intros Hc. apply str_all_impl. intros x Hx. apply negb_true_iff.
  apply Ascii.eqb_neq. intros ->. by rewrite Hc in Hx.
Qed.

Lemma line_has_ref_line ref hash r :
  wf_ref (hash, r) →
  line_has_ref ref (hash +:+ String tab r) = String.eqb r ref.
Proof.
  intros (Hne & Hsp & Htab & _). cbn [fst snd] in *. unfold line_has_ref.
  rewrite str_split_app by (by apply no_space_lacks).
  rewrite str_split_none by done.
  destruct hash as [|c h]; [done|]. cbn [str_all] in Hsp.
  apply andb_true_iff in Hsp as [Hc _]. apply negb_true_iff in Hc.
  rewrite app_cons. unfold str_strip, strip_by. rewrite lstrip_by_id by done.
  by destruct (rstrip_by_head is_space c (h +:+ String tab r) Hc) as [t' ->].
Qed.

Lemma matching_refs_output refs ref :
  Forall wf_ref refs →
  matching_refs (ls_remote_output refs) ref
  = (λ hr, hr.1 +:+ String tab hr.2) <$> List.filter (λ hr, String.eqb hr.2 ref) refs.
Proof.
  unfold matching_refs. induction 1 as [|[hash r] refs Hwf Hrefs IH]; [done|].
  cbn [ls_remote_output]. rewrite <- app_assoc_str.
  rewrite str_split_app.
  2:{ destruct Hwf as (_ & Hsp & _ & Hnl). cbn [fst snd] in *.
      rewrite str_all_app. cbn [str_all]. unfold lacks in Hnl. rewrite Hnl.
      rewrite (no_space_lacks newline hash) by done. done. }
  cbn [List.filter]. rewrite IH, line_has_ref_line by done.
  cbn [snd]. by destruct (String.eqb r ref).
Qed.

Lemma matching_refs_nil refs ref :
  Forall wf_ref refs →
  is_nil (matching_refs (ls_remote_output refs) ref) = true ↔ ref ∉ refs.*2.
Proof.
  intros Hwf. rewrite matching_refs_output by done. clear Hwf.
  induction refs as [|[h r] refs IH]; cbn [List.filter fmap list_fmap snd].
  - split; [|done]. intros _. apply not_elem_of_nil.
  - destruct (String.eqb_spec r ref) as [->|Hne]; cbn [fmap list_fmap is_nil].
    + split; [discriminate|]. intros Hn. exfalso. apply Hn, list_elem_of_here.
    + rewrite IH, not_elem_of_cons.
      split; [intros ?; split; [congruence|done]|by intros [_ ?]].
Qed.

Lemma is_nil_false {A} (l : list A) : is_nil l = false ↔ l ≠ [].
Proof. by destruct l. Qed.

Lemma verify_branch_output refs b :
  Forall wf_ref refs →
  verify_branch (ls_remote_output refs) b =
    if bool_decide ("refs/heads/" +:+ b ∈ refs.*2) then (true, "")
    else if bool_decide ("refs/tags/" +:+ b ∈ refs.*2)
    then (false, "'" +:+ b
                 +:+ "' exists as a tag, not a branch. Please use a branch name.")
    else (false, "Branch '" +:+ b +:+ "' not found in repository").
Proof.
  intros Hwf. unfold verify_branch.
  pose proof (matching_refs_nil refs ("refs/heads/" +:+ b) Hwf) as Hh.
  pose proof (matching_refs_nil refs ("refs/tags/" +:+ b) Hwf) as Ht.
  destruct (is_nil (matching_refs _ ("refs/heads/" +:+ b))).
  - rewrite bool_decide_eq_false_2 by (by apply Hh).
    destruct (is_nil (matching_refs _ ("refs/tags/" +:+ b))).
    + by rewrite bool_decide_eq_false_2 by (by apply Ht).
    + rewrite bool_decide_eq_true_2; [done|].
      destruct (decide ("refs/tags/" +:+ b ∈ refs.*2)); [done|].
      by apply Ht in n.
  - rewrite bool_decide_eq_true_2; [done|].
    destruct (decide ("refs/heads/" +:+ b ∈ refs.*2)); [done|].
    by apply Hh in n.
Qed.

Lemma verify_repo_completed host repo_url branch w cp m :
  subprocess_run host w ["git"; "ls-remote"; "--heads"; "--tags"; repo_url] None
  = (Ok cp, m) →
  (verify_repo host repo_url branch w).1 = Ok (verify_completed cp branch).
Proof.
  intros Hrun. unfold verify_repo, try_excepts, run, mbind, M_bind.
  by rewrite Hrun.
Qed.

(** C7.  When [git ls-remote] completes with status 0 on a remote with
    the given refs, [verify_repo] with a branch succeeds exactly when
    [refs/heads/<branch>] is one of the refs; when it is not but
    [refs/tags/<branch>] is, it fails with the message that the name
    exists as a tag; when neither is, it fails with the message that the
    branch was not found. *)
Theorem verify_repo_branch (host : Host) (w : World)
  (repo_url b : string) (refs : list (string * string))
  (cp : CompletedProcess) (m : gmap string node) :
  subprocess_run host w ["git"; "ls-remote"; "--heads"; "--tags"; repo_url] None
  = (Ok cp, m) →
  returncode cp = 0 → stdout cp = ls_remote_output refs →
  Forall wf_ref refs → b ≠ "" →
  let answer := (verify_repo host repo_url (Some b) w).1 in
  ((∃ msg, answer = Ok (true, msg)) ↔ "refs/heads/" +:+ b ∈ refs.*2)
  ∧ ("refs/heads/" +:+ b ∈ refs.*2 → answer = Ok (true, ""))
  ∧ ("refs/heads/" +:+ b ∉ refs.*2 → "refs/tags/" +:+ b ∈ refs.*2 →
     answer = Ok (false, "'" +:+ b
                +:+ "' exists as a tag, not a branch. Please use a branch name."))
  ∧ ("refs/heads/" +:+ b ∉ refs.*2 → "refs/tags/" +:+ b ∉ refs.*2 →
     answer = Ok (false, "Branch '" +:+ b +:+ "' not found in repository")).
Proof.
  intros Hrun Hrc Hout Hwf Hb answer. subst answer.
  rewrite (verify_repo_completed _ _ _ _ _ _ Hrun).
  unfold verify_completed. rewrite Hrc, Hout. cbn [Z.eqb negb].
  rewrite str_truthy_ne by done. rewrite verify_branch_output by done.
  repeat split.
  - intros [msg Hmsg]. by repeat case_bool_decide.
  - intros Hin. rewrite bool_decide_eq_true_2 by done. by eexists.
  - intros Hin. by rewrite bool_decide_eq_true_2.
  - intros Hh Ht. rewrite bool_decide_eq_false_2 by done.
    by rewrite bool_decide_eq_true_2.
  - intros Hh Ht. by rewrite !bool_decide_eq_false_2.
Qed.

(** ** The manifest reader *)

(** C6.  [load_gitpm_json] looks at [gitpm.json] first and at
    [.gitpm.json] second.  When the first is a regular file the answer
    is decided by it alone, whatever the second is: its parsed content
    with no error, or no content and a non-empty error message when it
    cannot be parsed or read.  When the first is not a regular file,
    the second decides in the same way.  When neither is a regular
    file, the answer is no content and no error. *)
Theorem load_gitpm_json_order (w : World) (repo_path : string) :
  (∀ x c, fs w !! path_join repo_path "gitpm.json" = Some (File x c) →
     load_gitpm_json w repo_path = manifest_answer "gitpm.json" c)
  ∧ (∀ x c, ¬ is_file_node (fs w !! path_join repo_path "gitpm.json") →
     fs w !! path_join repo_path ".gitpm.json" = Some (File x c) →
     load_gitpm_json w repo_path = manifest_answer ".gitpm.json" c)
  ∧ (¬ is_file_node (fs w !! path_join repo_path "gitpm.json") →
     ¬ is_file_node (fs w !! path_join repo_path ".gitpm.json") →
     load_gitpm_json w repo_path = (JNull, None))
  ∧ (∀ marker_file v, manifest_answer marker_file (Loaded v) = (v, None))
  ∧ (∀ marker_file c, (∀ v, c ≠ Loaded v) →
     (manifest_answer marker_file c).1 = JNull
     ∧ opt_truthy (manifest_answer marker_file c).2 = true).
Proof.
  unfold load_gitpm_json, marker_files. cbn [load_gitpm_json_from].
  repeat split.
  - intros x c ->. by destruct c.
  - intros x c Hfirst ->.
    destruct (fs w !! path_join repo_path "gitpm.json") as [[|? ?]|];
      [|by destruct Hfirst|]; by destruct c.
  - intros Hfirst Hsecond.
    destruct (fs w !! path_join repo_path "gitpm.json") as [[|? ?]|];
      [|by destruct Hfirst|];
      by destruct (fs w !! path_join repo_path ".gitpm.json") as [[|? ?]|];
        [|by destruct Hsecond|].
  - destruct c; [by edestruct H|done..].
  - destruct c; [by edestruct H|done..].
Qed.

(** ** Peer dependencies *)

Lemma py_first_cons x l : py_first (JArr (x :: l)) = Ok x.
Proof.
  unfold py_first, py_index, list_index. cbn [as_number].
  change (0 <? 0) with false. cbv iota.
  assert ((0 <=? 0) && (0 <? Z.of_nat (length (x :: l))) = true) as ->.
  { apply andb_true_iff. split; [done|]. apply Z.ltb_lt. cbn [length]. lia. }
  done.
Qed.

Section PeerFacts.
Variable host : Host.
Variable self : Self.

#[local] Abbreviation resolve_all := (resolve_all host).

Lemma find_installed_alternative_names w alternatives names :
  resolve_all alternatives names →
  find_installed_alternative host w alternatives = Ok (first_installed w names).
Proof.
  induction 1 as [|dep name alts names Hdep _ IH]; [done|].
  cbn [find_installed_alternative]. rewrite Hdep. cbn [mbind result_bind].
  unfold first_installed, is_installed in *. cbn [List.find].
  by destruct (bool_decide (is_Some (installed w !! name))).
Qed.

Lemma first_installed_Some w names n :
  first_installed w names = Some n →
  n ∈ names ∧ is_Some (installed w !! n)
  ∧ ∃ before after, names = before ++ n :: after
      ∧ Forall (λ x, installed w !! x = None) before.
Proof.
  unfold first_installed. induction names as [|x names IH]; [done|].
  cbn [List.find]. destruct (is_installed w x) eqn:Hx.
  - intros [= ->]. unfold is_installed in Hx. apply bool_decide_eq_true in Hx.
    split; [apply list_elem_of_here|]. split; [done|]. by exists [], names.
  - intros (Hin & Hsome & before & after & -> & Hbefore)%IH.
    split; [by apply list_elem_of_further|]. split; [done|].
    exists (x :: before), after. split; [done|]. constructor; [|done].
    unfold is_installed in Hx. apply bool_decide_eq_false in Hx.
    by apply eq_None_not_Some.
Qed.

Lemma first_installed_None w names :
  first_installed w names = None ↔ ∀ n, n ∈ names → installed w !! n = None.
Proof.
  unfold first_installed. induction names as [|x names IH].
  - split; [|done]. intros _ n Hn. by apply elem_of_nil in Hn.
  - cbn [List.find]. destruct (is_installed w x) eqn:Hx.
    + split; [done|]. intros H. unfold is_installed in Hx.
      apply bool_decide_eq_true in Hx. rewrite (H x) in Hx.
      * by destruct Hx. * apply list_elem_of_here.
    + rewrite IH. unfold is_installed in Hx. apply bool_decide_eq_false in Hx.
      apply eq_None_not_Some in Hx. split.
      * intros H n [->|Hn]%elem_of_cons; auto.
      * intros H n Hn. apply H. by apply list_elem_of_further.
Qed.

(** A scope violation names the dependency itself, and only in user
    scope. *)
Lemma scope_violation_names w n v :
  scope_violation self w n = Ok v →
  (v = [] ∨ v = [n]) ∧ (self_system self = true → v = []).
Proof.
  unfold scope_violation. destruct (self_system self); cbn [negb].
  - by intros [= <-]; split; [left|].
  - destruct (installed w !! n) as [info|]; [|done].
    destruct (load_gitpm_json w (r_path info)) as [dep_json err].
    destruct (truthy dep_json); [|by intros [= <-]; split; [left|]].
    destruct (py_get dep_json "system_only" (JBool false)) as [so|];
      cbn [mbind result_bind]; [|done].
    intros [= <-]. split; [|done]. destruct (truthy so); [by right|by left].
Qed.

Lemma app_singleton_ne {A} (l : list A) x : l ++ [x] ≠ l.
Proof.
  intros H. apply (f_equal length) in H. rewrite length_app in H.
  simpl in H. lia.
Qed.

End PeerFacts.

(** ** The dependency check and the installation scope *)

(** Unfolds the plumbing of the monad [M]. *)
Ltac munfold :=
  unfold mbind, M_bind, mret, M_ret, lift_result, get_world, raise,
    when, print, print_err, record_action, set_fs, set_installed in *.

Section ScopeFacts.
Variable host : Host.
Variable self : Self.

(** X20.  In system scope the only error message
    [check_dependencies] can return is the one of the manifest
    reader. *)
Lemma check_dependencies_system_scope repo_path w report w' :
  self_system self = true →
  check_dependencies host self repo_path w = (Ok report, w') →
  json_error report = None
  ∨ (json_error report = (load_gitpm_json w repo_path).2
     ∧ opt_truthy (load_gitpm_json w repo_path).2 = true).
Proof.
  intros Hsys. unfold check_dependencies. munfold. rewrite Hsys.
  destruct (load_gitpm_json w repo_path) as [gitpm_json err] eqn:Hload.
  cbn [snd negb andb].
  destruct (opt_truthy err) eqn:Herr.
  { intros [= <- <-]. by right. }
  intros H. left.
  repeat (case_match; simplify_eq/=; try done);
    rewrite ?andb_false_r in *; done.
Qed.

(** X21.  In user scope a manifest with a [dependencies] section
    and a true [system_only] gets the fatal scope error whenever the
    dependency checks before it return. *)
Lemma check_dependencies_user_scope items deps repo_path w report w' :
  self_system self = false →
  load_gitpm_json w repo_path = (JObj items, None) →
  assoc "dependencies" items = Some deps →
  truthy (default (JBool false) (assoc "system_only" items)) = true →
  check_dependencies host self repo_path w = (Ok report, w') →
  report = fatal_report scope_error.
Proof.
  intros Hsys Hload Hdeps Hso. unfold check_dependencies. munfold.
  rewrite Hsys, Hload. cbn [opt_truthy negb andb truthy].
  destruct items as [|item items]; [done|].
  unfold py_in, py_getitem, py_index, py_get. rewrite Hdeps.
  rewrite bool_decide_eq_true_2 by done. cbn [negb].
  rewrite Hso. cbn [andb].
  intros H. repeat (case_match; simplify_eq; try done).
Qed.

(** Without a [dependencies] section the manifest is not looked at
    any further: the flag [system_only] has no effect. *)
Lemma check_dependencies_no_section items repo_path w :
  load_gitpm_json w repo_path = (JObj items, None) →
  assoc "dependencies" items = None →
  check_dependencies host self repo_path w = (Ok empty_report, w).
Proof.
  intros Hload Hdeps. unfold check_dependencies. munfold.
  rewrite Hload. cbn [opt_truthy].
  destruct (truthy (JObj items)); [|done]. cbn [negb].
  unfold py_in. rewrite Hdeps.
  by rewrite bool_decide_eq_false_2 by (by intros []).
Qed.
End ScopeFacts.

(** C1 (code defect).  In user scope, on a manifest that declares
    [system_only] true and has no [dependencies] section,
    [check_dependencies] reports that everything is satisfied and
    returns no error: the return at line 699 comes before the test of
    [system_only] at line 734. *)
Theorem check_dependencies_system_only_unchecked :
  self_system user_self = false
  ∧ load_gitpm_json system_only_world tool_path
    = (JObj [("system_only", JBool true)], None)
  ∧ check_dependencies quiet_host user_self tool_path system_only_world
    = (Ok (mkDepReport true [] [] false [] None), system_only_world).
Proof. repeat split; by vm_compute. Qed.

(** ** Rules for [keeps] *)

Section Keeps.
Variable Inv : World → Prop.
Variable allowed : action → Prop.
Hypothesis Inv_fs : ∀ w m,
  Inv w → Inv (mkWorld m (installed w) (installed_file w) (trace w)).
Hypothesis Inv_action : ∀ w a,
  allowed a → Inv w →
  Inv (mkWorld (fs w) (installed w) (installed_file w) (a :: trace w)).

Lemma keeps_ret {A} (Q : A → World → Prop) E a :
  (∀ w, Q a w) → keeps Inv Q E (mret a).
Proof. intros Ha w r w' Hw [= <- <-]. done. Qed.

Lemma keeps_bind {A B} (Q1 : A → World → Prop) (Q : B → World → Prop) E
  (m : M A) (k : A → M B) :
  keeps Inv Q1 E m → (∀ a w1, Q1 a w1 → keeps Inv Q E (k a)) →
  keeps Inv Q E (m ≫= k).
Proof.
  intros Hm Hk w r w' Hw. unfold mbind, M_bind.
  destruct (m w) as [[a|e] w1] eqn:Em.
  - destruct (Hm _ _ _ Hw Em) as [Hw1 Ha]. by apply (Hk a w1).
  - intros [= <- <-]. by apply (Hm _ _ _ Hw Em).
Qed.

Lemma keeps_weaken {A} (Q Q' : A → World → Prop) (E E' : exn → Prop) m :
  keeps Inv Q E m → (∀ a w, Q a w → Q' a w) → (∀ e, E e → E' e) →
  keeps Inv Q' E' m.
Proof.
  intros Hm HQ HE w r w' Hw Em. destruct (Hm _ _ _ Hw Em) as [? Hr].
  split; [done|]. destruct r; auto.
Qed.

Lemma keeps_get_world E : keeps Inv any E get_world.
Proof. by intros w r w' Hw [= <- <-]. Qed.

Lemma keeps_lift_result {A} (r : result A) :
  keeps Inv any (λ _, True) (lift_result r).
Proof. intros w r' w' Hw [= <- <-]. by destruct r. Qed.

Lemma keeps_raise {A} (Q : A → World → Prop) (E : exn → Prop) e :
  E e → keeps Inv Q E (raise e).
Proof. by intros He w r w' Hw [= <- <-]. Qed.

Lemma keeps_action E a : allowed a → keeps Inv any E (record_action a).
Proof. intros Ha w r w' Hw [= <- <-]. split; [by apply Inv_action|done]. Qed.

Lemma keeps_print E msg : allowed (APrint msg) → keeps Inv any E (print msg).
Proof. intros. by apply keeps_action. Qed.

Lemma keeps_print_err E msg :
  allowed (APrintErr msg) → keeps Inv any E (print_err msg).
Proof. intros. by apply keeps_action. Qed.

Lemma keeps_when E (b : bool) (m : M unit) :
  (b = true → keeps Inv any E m) → keeps Inv any E (when b m).
Proof. intros Hm. destruct b; [by apply Hm|by apply keeps_ret]. Qed.

Lemma keeps_try_excepts {A} (Q : A → World → Prop) (E' E : exn → Prop)
  (body : M A) clauses :
  keeps Inv Q E' body →
  (∀ e h, E' e → select_handler clauses e = Some h → keeps Inv Q E h) →
  (∀ e, E' e → select_handler clauses e = None → E e) →
  keeps Inv Q E (try_excepts body clauses).
Proof.
  intros Hbody Hh Hnone w r w' Hw. unfold try_excepts.
  destruct (body w) as [[a|e] w1] eqn:Eb.
  - intros [= <- <-]. by apply (Hbody _ _ _ Hw Eb).
  - destruct (Hbody _ _ _ Hw Eb) as [Hw1 He].
    destruct (select_handler clauses e) as [h|] eqn:Eh.
    + by apply (Hh e h).
    + intros [= <- <-]. split; [done|]. by apply Hnone.
Qed.

(** [try: body except Exception: handler]: only what is not an
    [Exception] gets out. *)
Lemma keeps_try_Exception {A} (Q : A → World → Prop) (E' : exn → Prop)
  (body : M A) handler :
  keeps Inv Q E' body →
  (∀ e, keeps Inv Q escapes (handler e)) →
  keeps Inv Q escapes (try_except body is_Exception handler).
Proof.
  intros Hbody Hh. unfold try_except.
  apply (keeps_try_excepts Q E' escapes); [done|..].
  - intros e h _. cbn [select_handler].
    destruct (is_Exception e); [|done]. intros [= <-]. apply Hh.
  - intros e _. cbn [select_handler]. unfold escapes.
    by destruct (is_Exception e).
Qed.

Section WithHost.
Variable host : Host.

Lemma keeps_run argv cwd :
  allowed (ARun argv cwd) → keeps Inv any (λ _, True) (run host argv cwd).
Proof.
  intros Ha w r w' Hw. unfold run.
  destruct (subprocess_run host w argv cwd) as [r1 m] eqn:Er.
  intros [= <- <-]. split; [|by destruct r1].
  apply (Inv_fs (mkWorld (fs w) (installed w) (installed_file w)
                   (ARun argv cwd :: trace w))).
  by apply Inv_action.
Qed.

Lemma keeps_run_checked argv cwd :
  allowed (ARun argv cwd) →
  keeps Inv any (λ _, True) (run_checked host argv cwd).
Proof.
  intros Ha. unfold run_checked.
  eapply keeps_bind; [by apply keeps_run|]. intros r _ _.
  destruct (returncode r =? 0); [by apply keeps_ret|by apply keeps_raise].
Qed.

Lemma keeps_chmod p :
  allowed (AChmod p) → keeps Inv any (λ _, True) (chmod host p).
Proof.
  intros Ha w r w' Hw. unfold chmod.
  destruct (chmod_error host w p) as [e|]; intros [= <- <-].
  - split; [by apply Inv_action|done].
  - split; [|done].
    apply (Inv_fs (mkWorld (fs w) (installed w) (installed_file w)
                     (AChmod p :: trace w))).
    by apply Inv_action.
Qed.

Lemma keeps_chmod_best_effort p :
  allowed (AChmod p) → keeps Inv any escapes (chmod_best_effort host p).
Proof.
  intros Ha. unfold chmod_best_effort.
  eapply keeps_try_Exception; [by apply keeps_chmod|].
  intros e. by apply keeps_ret.
Qed.

Lemma keeps_rmtree p :
  allowed (ARmtree p) → keeps Inv any (λ _, True) (rmtree host p).
Proof.
  intros Ha w r w' Hw. unfold rmtree.
  destruct (rmtree_error host w p) as [e|]; intros [= <- <-].
  - split; [by apply Inv_action|done].
  - split; [|done].
    apply (Inv_fs (mkWorld (fs w) (installed w) (installed_file w)
                     (ARmtree p :: trace w))).
    by apply Inv_action.
Qed.
End WithHost.
End Keeps.

Lemma registry_kept_refl allowed w0 : registry_kept allowed w0 w0.
Proof. repeat split. by exists []. Qed.

Lemma registry_kept_fs allowed w0 w m :
  registry_kept allowed w0 w →
  registry_kept allowed w0 (mkWorld m (installed w) (installed_file w) (trace w)).
Proof. done. Qed.

Lemma registry_kept_action allowed w0 w a :
  allowed a → registry_kept allowed w0 w →
  registry_kept allowed w0
    (mkWorld (fs w) (installed w) (installed_file w) (a :: trace w)).
Proof.
  intros Ha (H1 & H2 & new & Hnew & Hall). repeat split; [done..|].
  exists (a :: new). cbn [trace]. rewrite Hnew. split; [done|]. by constructor.
Qed.

Lemma registry_kept_weaken (P Q : action → Prop) w0 w :
  (∀ a, P a → Q a) → registry_kept P w0 w → registry_kept Q w0 w.
Proof.
  intros HPQ (H1 & H2 & new & Hnew & Hall). repeat split; [done..|].
  exists new. split; [done|]. by eapply Forall_impl.
Qed.

(** ** Hook discovery and execution keep an invariant *)

(** A step of a computation whose value is not constrained. *)
Ltac kstep := eapply (keeps_bind _ any).

Section HookFacts.
Variable Inv : World → Prop.
Variable allowed : action → Prop.
Hypothesis Inv_fs : ∀ w m,
  Inv w → Inv (mkWorld m (installed w) (installed_file w) (trace w)).
Hypothesis Inv_action : ∀ w a,
  allowed a → Inv w →
  Inv (mkWorld (fs w) (installed w) (installed_file w) (a :: trace w)).
Hypothesis allowed_print : ∀ msg, allowed (APrint msg).
Hypothesis allowed_print_err : ∀ msg, allowed (APrintErr msg).
Variable host : Host.
Variable self : Self.

Lemma find_script_keeps repo_path names :
  (∀ name, name ∈ names → allowed (AChmod (path_join repo_path name))) →
  keeps Inv (λ r _, ∀ p, r = Some p → is_hook_path repo_path names p) escapes
    (find_script host repo_path names).
Proof.
  induction names as [|name names IH]; intros Hallowed.
  - cbn [find_script]. by apply keeps_ret.
  - assert (Hrest : keeps Inv
              (λ r _, ∀ p, r = Some p → is_hook_path repo_path (name :: names) p)
              escapes (find_script host repo_path names)).
    { eapply keeps_weaken; [apply IH|..]; [|  |done].
      - intros n Hn. apply Hallowed. by apply list_elem_of_further.
      - intros r w1 Hr p Hp. destruct (Hr p Hp) as (n & Hn & ->).
        exists n. split; [by apply list_elem_of_further|done]. }
    cbn [find_script].
    eapply keeps_bind; [apply keeps_get_world|]. intros w _ _.
    destruct (path_exists w _ && path_is_file w _); [|done].
    kstep.
    { apply keeps_when. intros _.
      apply (keeps_chmod_best_effort Inv allowed); [done..|].
      apply Hallowed, list_elem_of_here. }
    intros _ _ _. eapply keeps_bind; [apply keeps_get_world|]. intros w' _ _.
    destruct (_ || _); [|done]. apply keeps_ret.
    intros _ p [= <-]. exists name. split; [apply list_elem_of_here|done].
Qed.

Lemma check_scripts_keeps repo_path :
  (∀ p, is_hook_path repo_path (all_hook_names self) p → allowed (AChmod p)) →
  keeps Inv (λ s _, scripts_ok self repo_path s) escapes
    (check_scripts host self repo_path).
Proof.
  intros Hallowed. unfold check_scripts.
  assert (Hkind : ∀ a b,
    hook_names (scope_prefix self) a b ⊆ all_hook_names self →
    keeps Inv
      (λ r _, ∀ p, r = Some p →
            is_hook_path repo_path (hook_names (scope_prefix self) a b) p)
      escapes
      (find_script host repo_path (hook_names (scope_prefix self) a b))).
  { intros a b Hsub. apply find_script_keeps. intros name Hname.
    apply Hallowed. exists name. split; [by apply Hsub|done]. }
  assert (Hall : all_hook_names self
    = hook_names (scope_prefix self) "setup" "install"
      ++ hook_names (scope_prefix self) "remove" "uninstall"
      ++ hook_names (scope_prefix self) "update" "upgrade"
      ++ hook_names (scope_prefix self) "check" "check-updates") by done.
  assert (Hsub : ∀ a b,
    (a, b) ∈ [("setup", "install"); ("remove", "uninstall");
              ("update", "upgrade"); ("check", "check-updates")] →
    hook_names (scope_prefix self) a b ⊆ all_hook_names self).
  { intros a b Hab x Hx. rewrite Hall, !elem_of_app.
    rewrite !elem_of_cons, elem_of_nil in Hab.
    destruct Hab as [[= -> ->]|[[= -> ->]|[[= -> ->]|[[= -> ->]|[]]]]]; tauto. }
  eapply keeps_bind.
  { apply Hkind, Hsub. rewrite !elem_of_cons. tauto. }
  intros s1 ? H1. eapply keeps_bind.
  { apply Hkind, Hsub. rewrite !elem_of_cons. tauto. }
  intros s2 ? H2. eapply keeps_bind.
  { apply Hkind, Hsub. rewrite !elem_of_cons. tauto. }
  intros s3 ? H3. eapply keeps_bind.
  { apply Hkind, Hsub. rewrite !elem_of_cons. tauto. }
  intros s4 ? H4. apply keeps_ret. intros _. by repeat split.
Qed.

Lemma run_script_process_keeps script_path repo_path :
  allowed (AChmod script_path) →
  allowed (ARun ["bash"; script_path] (Some repo_path)) →
  allowed (ARun [sys_executable host; script_path] (Some repo_path)) →
  keeps Inv any (λ _, True)
    (run_script_process host script_path repo_path).
Proof.
  intros Hc Hb Hp. unfold run_script_process.
  kstep.
  { apply keeps_when. intros _.
    eapply keeps_weaken;
      [by apply (keeps_chmod_best_effort Inv allowed)|done..]. }
  intros _ _ _. kstep.
  { apply (keeps_run Inv allowed); [done..|]. by destruct (String.eqb _ _). }
  intros r _ _.
  kstep; [apply keeps_when; intros _; by apply (keeps_print Inv allowed)|].
  intros _ _ _.
  kstep; [apply keeps_when; intros _; by apply (keeps_print_err Inv allowed)|].
  intros _ _ _. by apply keeps_ret.
Qed.

Lemma run_script_keeps script_path repo_path :
  allowed (AChmod script_path) →
  allowed (ARun ["bash"; script_path] (Some repo_path)) →
  allowed (ARun [sys_executable host; script_path] (Some repo_path)) →
  keeps Inv any escapes (run_script host script_path repo_path).
Proof.
  intros Hc Hb Hp. unfold run_script.
  eapply keeps_try_Exception.
  - eapply keeps_bind; [by apply run_script_process_keeps|].
    intros r _ _. by apply keeps_ret.
  - intros e. eapply keeps_bind;
      [by apply (keeps_print_err Inv allowed)|].
    intros _ _ _. by apply keeps_ret.
Qed.

Lemma run_script_exit_code_keeps script_path repo_path :
  allowed (AChmod script_path) →
  allowed (ARun ["bash"; script_path] (Some repo_path)) →
  allowed (ARun [sys_executable host; script_path] (Some repo_path)) →
  keeps Inv any escapes
    (run_script_exit_code host script_path repo_path).
Proof.
  intros Hc Hb Hp. unfold run_script_exit_code.
  eapply keeps_try_Exception.
  - eapply keeps_bind; [by apply run_script_process_keeps|].
    intros r _ _. by apply keeps_ret.
  - intros e. eapply keeps_bind;
      [by apply (keeps_print_err Inv allowed)|].
    intros _ _ _. by apply keeps_ret.
Qed.
End HookFacts.

(** ** Removing a package *)

(** C8.  For a registered name whose recorded path does not exist,
    [remove] returns [True]; the entry is deleted from the registry and
    the registry is saved; the file system is untouched and the only
    actions are the warning and the save: no hook is run and no
    directory is deleted. *)
Theorem remove_missing_path (host : Host) (self : Self) (w : World)
  (name : string) (skip_uninstall : bool) (info : InstalledRecord) :
  installed w !! name = Some info →
  path_exists w (r_path info) = false →
  ∃ w', remove host self name skip_uninstall w = (Ok true, w')
    ∧ installed w' = delete name (installed w)
    ∧ installed w' !! name = None
    ∧ installed_file w' = installed w'
    ∧ fs w' = fs w
    ∧ trace w'
      = ASaveInstalled
        :: APrint ("Warning: Installation path " +:+ r_path info
                   +:+ " does not exist")
        :: trace w.
Proof.
  intros Hinst Hpath. eexists. unfold remove, del_installed, save_installed.
  munfold. rewrite Hinst, Hpath. cbn [negb installed]. rewrite Hinst.
  split; [reflexivity|]. cbn [installed installed_file fs trace].
  by rewrite lookup_delete_eq.
Qed.

Section RemoveFacts.
Variable host : Host.
Variable self : Self.

(** The hook part of [remove] (lines 1495-1507) does not touch the
    registry, and lets only non-[Exception]s out. *)
Lemma remove_hooks_keep w0 repo_info :
  keeps (registry_kept (λ _, True) w0) any escapes
    (scripts ← check_scripts host self (r_path repo_info);
     match opt_or (script_remove scripts) (script_uninstall scripts) with
     | Some remove_script =>
         _ ← print ("Running removal script: " +:+ remove_script);
         _ ← run_script host remove_script (r_path repo_info);
         mret ()
     | None =>
         if opt_truthy (r_remove_script repo_info) then
           let remove_script := default "" (r_remove_script repo_info) in
           w' ← get_world;
           when (path_exists w' remove_script)
             (_ ← print ("Running removal script: " +:+ remove_script);
              _ ← run_script host remove_script (r_path repo_info);
              mret ())
         else mret ()
     end).
Proof.
  pose proof (registry_kept_fs (λ _, True) w0) as Hfs.
  pose proof (registry_kept_action (λ _, True) w0) as Hact.
  assert (Hrun : ∀ p, keeps (registry_kept (λ _, True) w0) any escapes
            (_ ← print ("Running removal script: " +:+ p);
             _ ← run_script host p (r_path repo_info);
             mret ())).
  { intros p. kstep; [by apply (keeps_print _ (λ _, True))|]. intros _ _ _.
    kstep; [by apply (run_script_keeps _ (λ _, True))|]. intros _ _ _.
    by apply keeps_ret. }
  eapply keeps_bind.
  { by apply (check_scripts_keeps _ (λ _, True)). }
  intros scripts _ _.
  destruct (opt_or _ _); [apply Hrun|].
  destruct (opt_truthy _); [|by apply keeps_ret].
  kstep; [apply keeps_get_world|]. intros w' _ _.
  apply keeps_when. intros _. apply Hrun.
Qed.

(** C10.  For a registered package whose path exists: when deleting
    the directory tree raises, [remove] returns [False] after
    reporting the error, and the registry, in memory and on disk, is
    what it was.  (The one other outcome is an interrupt that escapes
    from a hook before the deletion is tried; the registry is
    unchanged then too.) *)
Theorem remove_rmtree_failure (w : World) (name : string)
  (skip_uninstall : bool) (info : InstalledRecord)
  (r : result bool) (w' : World) :
  installed w !! name = Some info →
  path_exists w (r_path info) = true →
  (∀ w1, ∃ e, rmtree_error host w1 (r_path info) = Some e
              ∧ is_Exception e = true) →
  remove host self name skip_uninstall w = (r, w') →
  installed w' = installed w
  ∧ installed_file w' = installed_file w
  ∧ installed w' !! name = Some info
  ∧ ((r = Ok false
      ∧ ∃ msg rest,
          trace w' = APrintErr ("Error removing directory: " +:+ msg)
                     :: ARmtree (r_path info) :: rest)
     ∨ (∃ e, r = Raise e ∧ escapes e)).
Proof.
  intros Hinst Hpath Hfail. unfold remove.
  unfold mbind at 1. unfold M_bind at 1. unfold get_world at 1.
  rewrite Hinst, Hpath. cbn [negb].
  unfold mbind at 1. unfold M_bind at 1.
  destruct (when (negb skip_uninstall) _ w) as [[[]|e] w1] eqn:Ehooks.
  - (* the hooks are done; the deletion fails *)
    assert (Hkept : registry_kept (λ _, True) w w1).
    { destruct skip_uninstall; cbn [negb when] in Ehooks.
      - injection Ehooks as <-. apply registry_kept_refl.
      - by destruct (remove_hooks_keep w info w _ w1
                       (registry_kept_refl _ w) Ehooks). }
    destruct Hkept as (Hi & Hf & _).
    destruct (Hfail w1) as (e & He & Hexc).
    unfold try_except, try_excepts, rmtree. munfold. rewrite He.
    cbn [select_handler]. rewrite Hexc. intros [= <- <-].
    cbn [installed installed_file trace]. rewrite Hi, Hf.
    split; [done|]. split; [done|]. split; [done|]. left.
    split; [done|]. by eexists _, _.
  - (* an interrupt escapes from a hook *)
    intros [= <- <-].
    assert (Hkept : registry_kept (λ _, True) w w1 ∧ escapes e).
    { destruct skip_uninstall; cbn [negb when] in Ehooks; [done|].
      by destruct (remove_hooks_keep w info w _ w1
                     (registry_kept_refl _ w) Ehooks). }
    destruct Hkept as [(Hi & Hf & _) Hesc]. rewrite Hi, Hf.
    split; [done|]. split; [done|]. split; [done|]. right.
    by exists e.
Qed.
End RemoveFacts.

(** ** Updating with check-only *)

Section UpdateFacts.
Variable host : Host.
Variable self : Self.

Lemma keeps_get_world_inv (Inv : World → Prop) E :
  keeps Inv (λ w _, Inv w) E get_world.
Proof. by intros w r w' Hw [= <- <-]. Qed.

(** Printing a message and returning. *)
Lemma keeps_print_ret {A} (Inv : World → Prop) (allowed : action → Prop)
  (Q : A → World → Prop) E msg (a : A) :
  (∀ w a, allowed a → Inv w →
     Inv (mkWorld (fs w) (installed w) (installed_file w) (a :: trace w))) →
  allowed (APrint msg) →
  (∀ w, trace w = APrint msg :: tail (trace w) → Q a w) →
  keeps Inv Q E (_ ← print msg; mret a).
Proof.
  intros Hact Hmsg HQ w r w' Hw. munfold. intros [= <- <-].
  split; [by apply Hact|]. by apply HQ.
Qed.

Lemma keeps_print_err_ret {A} (Inv : World → Prop) (allowed : action → Prop)
  (Q : A → World → Prop) E msg (a : A) :
  (∀ w a, allowed a → Inv w →
     Inv (mkWorld (fs w) (installed w) (installed_file w) (a :: trace w))) →
  allowed (APrintErr msg) →
  (∀ w, trace w = APrintErr msg :: tail (trace w) → Q a w) →
  keeps Inv Q E (_ ← print_err msg; mret a).
Proof.
  intros Hact Hmsg HQ w r w' Hw. munfold. intros [= <- <-].
  split; [by apply Hact|]. by apply HQ.
Qed.

Lemma check_names_all p repo_path :
  is_hook_path repo_path
    (hook_names (if self_system self then "system" else "user")
       "check" "check-updates") p →
  is_hook_path repo_path (all_hook_names self) p.
Proof.
  intros (name & Hname & ->). exists name. split; [|done].
  unfold all_hook_names. rewrite !elem_of_app. tauto.
Qed.

(** A check-only update of one package keeps the registry and does
    only what [check_only_action] allows. *)
Lemma update_one_check_only_keeps w0 name info :
  installed w0 !! name = Some info →
  keeps (registry_kept (check_only_action host self (r_path info)) w0)
    (check_only_answer name) (λ _, True)
    (update_one host self name true).
Proof.
  intros Hinst.
  set (repo_path := r_path info).
  set (allowed := check_only_action host self repo_path).
  set (Inv := registry_kept allowed w0).
  pose proof (registry_kept_fs allowed w0) as Hfs.
  pose proof (registry_kept_action allowed w0) as Hact.
  assert (Hp : ∀ msg, allowed (APrint msg)) by done.
  assert (Hpe : ∀ msg, allowed (APrintErr msg)) by done.
  assert (Hgit : ∀ args,
    args = ["fetch"; "origin"] ∨ (∃ ref, args = ["rev-parse"; ref]) →
    allowed (ARun ("git" :: args) (Some repo_path))).
  { intros args Hargs. split; [done|].
    destruct Hargs as [-> | [ref ->]]; [by left|]. right. left. by exists ref. }
  assert (Hfalse : ∀ msg, keeps Inv (check_only_answer name) (λ _, True)
            (_ ← print msg; mret false)).
  { intros msg. apply (keeps_print_ret Inv allowed); [done..|].
    intros w Hw. by exists msg, (tail (trace w)); left. }
  unfold update_one.
  eapply keeps_bind; [apply keeps_get_world_inv|]. intros w ? Hw.
  assert (installed w !! name = Some info) as ->.
  { destruct Hw as [-> _]. done. }
  fold repo_path. destruct (negb (path_exists w repo_path)); [apply Hfalse|].
  kstep; [by apply (keeps_print Inv allowed)|]. intros _ _ _.
  unfold try_except.
  apply (keeps_try_excepts Inv _ (λ _, True) (λ _, True)); [| |done].
  2:{ intros e h _. cbn [select_handler]. destruct (has_kind _ e); [|done].
      intros [= <-]. apply (keeps_print_err_ret Inv allowed); [done..|].
      intros ? Hlast. by eexists _, _; right. }
  unfold git_checked, git.
  kstep; [apply (keeps_run_checked Inv allowed); [done..|]; apply Hgit; by left|].
  intros _ _ _.
  kstep; [apply (keeps_run Inv allowed); [done..|]; apply Hgit; right;
          by eexists|].
  intros head _ _.
  kstep; [apply (keeps_run Inv allowed); [done..|]; apply Hgit; right;
          by eexists|].
  intros remote _ _.
  eapply (keeps_bind _ (λ s _, scripts_ok self repo_path s)).
  { eapply keeps_weaken.
    - apply (check_scripts_keeps Inv allowed); try done.
    - intros a ? H. exact H.
    - done. }
  intros scripts ? Hscripts. cbv beta.
  kstep.
  { destruct (script_check scripts) as [check|] eqn:Hcheck;
      [|by apply keeps_ret].
    destruct Hscripts as (_ & _ & _ & Hc & _). specialize (Hc check Hcheck).
    kstep; [by apply (keeps_print Inv allowed)|]. intros _ _ _.
    kstep.
    { eapply keeps_weaken.
      - apply (run_script_exit_code_keeps Inv allowed); try done.
        + by apply check_names_all.
        + split; [done|]. right. right. exists check. split; [done|]. by left.
        + split; [done|]. right. right. exists check. split; [done|]. by right.
      - intros a ? H. exact H.
      - done. }
    intros code _ _.
    destruct (code =? 1); [by apply keeps_ret|].
    destruct (code =? 0); [by apply keeps_ret|].
    kstep; [by apply (keeps_print_err Inv allowed)|]. intros _ _ _.
    by apply keeps_ret. }
  intros updates_available _ _. cbv beta iota.
  destruct (negb updates_available).
  - apply (keeps_print_ret Inv allowed); [done..|].
    intros ? Hlast. eexists. by left.
  - apply (keeps_print_ret Inv allowed); [done..|].
    intros ? Hlast. eexists. by right.
Qed.
End UpdateFacts.

(** ** What a check-only update reports *)

Lemma bind_Ok {A B} (m : M A) (k : A → M B) w b w' :
  (m ≫= k) w = (Ok b, w') →
  ∃ a w1, m w = (Ok a, w1) ∧ k a w1 = (Ok b, w').
Proof.
  unfold mbind, M_bind. destruct (m w) as [[a|e] w1]; [|done].
  intros H. by exists a, w1.
Qed.

Lemma print_after msg w : print msg w = (Ok (), after_actions [APrint msg] w).
Proof. reflexivity. Qed.

Section CheckOnlyReport.
Variable host : Host.
Variable self : Self.

(** The part of [update] that decides whether an update is
    available (lines 1365-1381). *)
Lemma decide_updates_available repo_path scripts differ w ua w' :
  match script_check scripts with
  | Some check =>
      _ ← print ("Running check script: " +:+ check);
      check_exit_code ← run_script_exit_code host check repo_path;
      if check_exit_code =? 1 then mret true
      else if check_exit_code =? 0 then mret false
      else
        _ ← print_err ("Warning: Check script returned error code "
                       +:+ py_str host (JNum check_exit_code));
        mret differ
  | None => mret differ
  end w = (Ok ua, w') →
  ∃ code,
    match script_check scripts with
    | Some check =>
        ∃ exit_code w5,
          run_script_exit_code host check repo_path
            (after_actions [APrint ("Running check script: " +:+ check)] w)
          = (Ok exit_code, w5)
          ∧ code = Some exit_code
    | None => code = None
    end
    ∧ ua = match code with
           | Some code =>
               if code =? 1 then true
               else if code =? 0 then false else differ
           | None => differ
           end.
Proof.
  destruct (script_check scripts) as [check|].
  - intros (u & w1 & Hprint & H)%bind_Ok. rewrite print_after in Hprint.
    assert (w1 = after_actions
                   [APrint ("Running check script: " +:+ check)] w)
      as -> by congruence.
    clear u Hprint.
    apply bind_Ok in H as (c & w5 & Hcode & H).
    exists (Some c). split; [by exists c, w5|].
    destruct (c =? 1); [by injection H as <-|].
    destruct (c =? 0); [by injection H as <-|].
    apply bind_Ok in H as (_ & w6 & _ & H). by injection H as <-.
  - intros [= <- <-]. by exists None.
Qed.

(** What a check-only update of a registered package answers. *)
Lemma update_one_check_only_report name info w r w' :
  installed w !! name = Some info →
  update_one host self name true w = (r, w') →
  match r with
  | Ok true =>
      ∃ head remote code,
        check_only_run host self name info w head remote code
        ∧ ∃ rest,
            trace w'
            = APrint (availability_message name
                        (updates_available code (str_strip (stdout head))
                           (str_strip (stdout remote)))) :: rest
  | Ok false => check_only_error name w w'
  | Raise _ => True
  end.
Proof.
  intros Hinst. unfold update_one.
  unfold mbind at 1. unfold M_bind at 1. unfold get_world at 1.
  rewrite Hinst.
  destruct (path_exists w (r_path info)) eqn:Hpath; cbn [negb].
  2:{ munfold. intros [= <- <-]. right. left. by exists info. }
  unfold mbind at 1. unfold M_bind at 1. rewrite print_after.
  unfold try_except, try_excepts.
  match goal with
  | |- context [match ?body ?w0 with _ => _ end] =>
      destruct (body w0) as [[b|e] wb] eqn:Hbody
  end.
  2:{ cbn [select_handler]. destruct (has_kind CalledProcessError e) eqn:He.
      - munfold. intros [= <- <-]. right. right. exists e, (trace wb).
        split; [|done]. by apply bool_decide_eq_true_1 in He.
      - by intros [= <- <-]. }
  intros [= <- <-].
  unfold git_checked, git, run_checked in Hbody.
  apply bind_Ok in Hbody as (fetch0 & w1 & Hfetch & Hbody).
  apply bind_Ok in Hfetch as (fetch & w1' & Hfetch & Hrc).
  destruct (returncode fetch =? 0) eqn:Hzero; [|done].
  injection Hrc as <- <-. apply Z.eqb_eq in Hzero.
  apply bind_Ok in Hbody as (head & w2 & Hhead & Hbody).
  apply bind_Ok in Hbody as (remote & w3 & Hremote & Hbody).
  apply bind_Ok in Hbody as (scripts & w4 & Hscripts & Hbody).
  apply bind_Ok in Hbody as (ua & w5 & Hua & Hbody).
  apply decide_updates_available in Hua as (code & Hcode & ->).
  assert (Hrest : b = true ∧ ∃ rest,
            trace wb
            = APrint (availability_message name
                        (updates_available code (str_strip (stdout head))
                           (str_strip (stdout remote)))) :: rest).
  { unfold updates_available, availability_message.
    destruct code as [c|]; [destruct (c =? 1); [|destruct (c =? 0)]|];
      cbn [negb] in Hbody |- *;
      try destruct (negb (String.eqb _ _));
      cbn [negb] in Hbody; munfold; injection Hbody as <- <-;
      (split; [done|]); by eexists. }
  destruct Hrest as [-> Hrest].
  exists head, remote, code. split; [|done].
  by exists fetch, w1', w2, w3, scripts, w4.
Qed.
End CheckOnlyReport.

(** C5 (amended).  A check-only update of a named package leaves the
    registry, in memory and on disk, as it was, and with it the hook
    paths it records.  All it does to its surroundings is print, run
    [git fetch origin] and [git rev-parse] in the installation
    directory, mark hook candidates executable and run the check hook;
    no checkout, reset, clean or pull, and no update or set-up hook.
    When it answers [True], the fetch has succeeded and the last thing
    it printed is the report: an update is available when the check
    hook exited with status 1, the package is up to date when it exited
    with status 0, and without a check hook, or when it exited with
    another status, an update is available exactly when the commits
    printed by [git rev-parse HEAD] and by [git rev-parse] of the remote
    reference differ.  When it answers [False] it printed an error: the
    package is not installed, its path does not exist, or a [git]
    command failed. *)
Theorem update_check_only (host : Host) (self : Self) (depth : nat)
  (name : string) (w : World) (r : result bool) (w' : World) :
  str_truthy name = true →
  update host self (S depth) (Some name) true w = (r, w') →
  installed w' = installed w
  ∧ installed_file w' = installed_file w
  ∧ (∃ new, trace w' = new ++ trace w
       ∧ Forall (check_only_action host self (recorded_path w name)) new)
  ∧ (∀ b, r = Ok b → check_only_answer name b w')
  ∧ (r = Ok true →
     ∃ info head remote code,
       installed w !! name = Some info
       ∧ check_only_run host self name info w head remote code
       ∧ ∃ rest,
           trace w'
           = APrint (availability_message name
                       (updates_available code (str_strip (stdout head))
                          (str_strip (stdout remote)))) :: rest)
  ∧ (r = Ok false → check_only_error name w w').
Proof.
  intros Hname. cbn [update opt_truthy]. rewrite Hname.
  change (default "" (Some name)) with name.
  destruct (installed w !! name) as [info|] eqn:Hinst.
  - intros Hrun.
    destruct (update_one_check_only_keeps host self w name info Hinst w r w'
                (registry_kept_refl _ w) Hrun) as [(Hi & Hf & Hnew) Hr].
    pose proof (update_one_check_only_report host self name info w r w'
                  Hinst Hrun) as Hreport.
    unfold recorded_path. rewrite Hinst. cbn [from_option].
    split; [done|]. split; [done|]. split; [done|].
    split; [by intros b ->|].
    split; intros ->; [|done].
    destruct Hreport as (head & remote & code & Hchain & Hlast).
    by exists info, head, remote, code.
  - unfold update_one. munfold. rewrite Hinst. intros [= <- <-].
    cbn [installed installed_file trace].
    split; [done|]. split; [done|].
    split; [eexists [_]; split; [reflexivity|]; by repeat constructor|].
    split; [intros b [= <-]; by eexists _, _; left|].
    split; [done|]. intros _. by left.
Qed.

Lemma update_check_only_witness :
  str_truthy "tool" = true
  ∧ installed (update quiet_host user_self 1 (Some "tool") true
                 installed_world).2
    = installed installed_world.
Proof.
  split; [reflexivity|].
  apply (update_check_only quiet_host user_self 0 "tool" installed_world
           (update quiet_host user_self 1 (Some "tool") true installed_world).1
           (update quiet_host user_self 1 (Some "tool") true installed_world).2
           eq_refl (surjective_pairing _)).
Defined.

(** A check-only update changes the working tree: it succeeds on
    [installed_world], where the set-up hook was not executable, and
    the hook is executable afterwards. *)
Lemma update_check_only_counterexample :
  (update quiet_host user_self 1 (Some "tool") true installed_world).1
  = Ok true
  ∧ fs installed_world !! path_join tool_path "setup.sh"
    = Some (File false (Malformed "not JSON"))
  ∧ fs (update quiet_host user_self 1 (Some "tool") true installed_world).2
      !! path_join tool_path "setup.sh"
    = Some (File true (Malformed "not JSON"))
  ∧ fs (update quiet_host user_self 1 (Some "tool") true installed_world).2
    ≠ fs installed_world.
Proof.
  assert (H1 : fs installed_world !! path_join tool_path "setup.sh"
               = Some (File false (Malformed "not JSON")))
    by (vm_compute; reflexivity).
  assert (H2 : fs (update quiet_host user_self 1 (Some "tool") true
                     installed_world).2 !! path_join tool_path "setup.sh"
               = Some (File true (Malformed "not JSON")))
    by (vm_compute; reflexivity).
  split; [vm_compute; reflexivity|]. split; [exact H1|]. split; [exact H2|].
  intros Heq. rewrite Heq in H2. rewrite H1 in H2. discriminate.
Qed.

(** Updating every package takes no notice of check-only (line 1473
    calls [update] without it): where the remote has a new commit, the
    package is pulled. *)
Lemma update_all_ignores_check_only :
  existsb is_git_pull
    (trace (update busy_host user_self 2 None true installed_world).2)
  = true.
Proof. vm_compute. reflexivity. Qed.

(** ** Installing and cleaning up *)

Lemma clone_cleaned_mono n m repo_path w :
  (n ≤ m)%nat → clone_cleaned n repo_path w → clone_cleaned m repo_path w.
Proof.
  intros Hnm [Habsent | (pre & rest & Htrace & Hlen)]; [by left|].
  right. exists pre, rest. split; [done|lia].
Qed.

Lemma path_exists_remove_tree w p q m :
  m = remove_tree p (fs w) →
  path_exists w q = false →
  path_exists (mkWorld m (installed w) (installed_file w) (trace w)) q = false.
Proof.
  intros -> Hq. unfold path_exists in *. cbn [fs].
  apply bool_decide_eq_false_2. intros [n Hn].
  apply bool_decide_eq_false_1 in Hq. apply Hq. exists n.
  unfold remove_tree in Hn. by apply map_lookup_filter_Some in Hn as [? _].
Qed.

Section CleanupFacts.
Variable host : Host.
Variable self : Self.

(** What a computation ends with, whatever it starts from. *)
#[local] Abbreviation ends Q m := (keeps (λ _, True) Q (λ _, True) m).

Lemma ends_any {A} (m : M A) : ends any m.
Proof. intros w r w' _ _. split; [done|]. by destruct r. Qed.

Lemma ends_try_finally {A} (Q1 Q : A → World → Prop) (body : M A) cleanup :
  ends Q1 body →
  (∀ a w1 w2, Q1 a w1 → cleanup w1 = (Ok (), w2) → Q a w2) →
  ends Q (try_finally body cleanup).
Proof.
  intros Hbody Hcleanup w r w' _. unfold try_finally.
  destruct (body w) as [r1 w1] eqn:Eb.
  destruct (cleanup w1) as [[[]|e] w2] eqn:Ec; intros [= <- <-];
    (split; [done|]); [|done].
  destruct r1 as [a|e]; [|done].
  eapply Hcleanup; [|done]. by destruct (Hbody _ _ _ I Eb).
Qed.

Lemma ends_run {A} (Q : A → World → Prop) (m : M A) w r w' :
  ends Q m → m w = (r, w') →
  match r with Ok a => Q a w' | Raise _ => True end.
Proof. intros Hm Hrun. by destruct (Hm w r w' I Hrun). Qed.

(** Sequencing, when what follows depends on the world reached. *)
Lemma ends_bind {A B} (Q1 : A → World → Prop) (Q : B → World → Prop)
  (m : M A) (k : A → M B) :
  ends Q1 m →
  (∀ a w1 r w', Q1 a w1 → k a w1 = (r, w') →
     match r with Ok b => Q b w' | Raise _ => True end) →
  ends Q (m ≫= k).
Proof.
  intros Hm Hk w r w' _. unfold mbind, M_bind.
  destruct (m w) as [[a|e] w1] eqn:Em.
  - intros Hrun. split; [done|]. eapply Hk; [|done].
    by destruct (Hm _ _ _ I Em).
  - by intros [= <- <-].
Qed.

(** A computation followed by [return b]. *)
Lemma ends_then_ret {A B} (P : World → Prop) (m : M A) (b : B) :
  ends (λ _, P) m → ends (λ _, P) (_ ← m; mret b).
Proof.
  intros Hm w r w' _. munfold. destruct (m w) as [[a|e] w1] eqn:Em;
    intros [= <- <-]; (split; [done|]); [|done].
  by destruct (Hm _ _ _ I Em).
Qed.

(** Deleting some tree, errors dropped, moves the deletion of the
    clone one action back. *)
Lemma rmtree_ignore_errors_cleaned n repo_path p w1 w2 :
  clone_cleaned n repo_path w1 →
  rmtree_ignore_errors host p w1 = (Ok (), w2) →
  clone_cleaned (S n) repo_path w2.
Proof.
  intros Hc. unfold rmtree_ignore_errors, try_except, try_excepts, rmtree.
  destruct (rmtree_error host w1 p) as [e|];
    [cbn [select_handler]; destruct (is_OSError e); [|done]|];
    intros [= <-].
  - destruct Hc as [Habsent | (pre & rest & Htrace & Hlen)]; [by left|].
    right. exists (ARmtree p :: pre), rest. cbn [trace length].
    rewrite Htrace. split; [done|lia].
  - destruct Hc as [Habsent | (pre & rest & Htrace & Hlen)].
    + left. by apply (path_exists_remove_tree w1 p).
    + right. exists (ARmtree p :: pre), rest. cbn [trace length].
      rewrite Htrace. split; [done|lia].
Qed.

(** The clean-up of the paths that report a failure. *)
Lemma cleanup_clone_cleans repo_path :
  ends (λ _, clone_cleaned 1 repo_path) (cleanup_clone host true repo_path).
Proof.
  intros w r w' _. unfold cleanup_clone. munfold. cbn [andb].
  destruct (path_exists w repo_path) eqn:Hpath.
  - unfold try_except, try_excepts, rmtree. munfold.
    destruct (rmtree_error host w repo_path) as [e|].
    + cbn [select_handler]. destruct (is_Exception e); intros [= <- <-];
        (split; [done|]); [|done].
      right. eexists [_], _. split; [reflexivity|cbn [length]; lia].
    + intros [= <- <-]. split; [done|].
      right. eexists [_], _. split; [reflexivity|cbn [length]; lia].
  - intros [= <- <-]. split; [done|]. by left.
Qed.

(** The clean-up of the path that does not. *)
Lemma cleanup_clone_ignoring_errors_cleans repo_path :
  ends (λ _, clone_cleaned 1 repo_path)
    (cleanup_clone_ignoring_errors host true repo_path).
Proof.
  intros w r w' _. unfold cleanup_clone_ignoring_errors. munfold.
  cbn [andb]. destruct (path_exists w repo_path) eqn:Hpath.
  - unfold rmtree_ignore_errors, try_except, try_excepts, rmtree. munfold.
    destruct (rmtree_error host w repo_path) as [e|].
    + cbn [select_handler]. destruct (is_OSError e); intros [= <- <-];
        (split; [done|]); [|done].
      right. eexists [_], _. split; [reflexivity|cbn [length]; lia].
    + intros [= <- <-]. split; [done|].
      right. eexists [_], _. split; [reflexivity|cbn [length]; lia].
  - intros [= <- <-]. split; [done|]. by left.
Qed.

Lemma dependency_scope_abort_cleans repo_path dep_name dep_url dep_branch :
  ends (λ abort w, abort = true → clone_cleaned 2 repo_path w)
    (dependency_scope_abort host self true repo_path dep_name dep_url
       dep_branch).
Proof.
  unfold dependency_scope_abort.
  eapply keeps_bind; [apply ends_any|]. intros [is_compatible msg] _ _.
  destruct is_compatible; [|by apply keeps_ret].
  eapply keeps_bind; [apply ends_any|]. intros temp_dir _ _.
  apply (ends_try_finally
           (λ abort w, abort = true → clone_cleaned 1 repo_path w)).
  2:{ intros abort w1 w2 Hq Hclean ->.
      apply (rmtree_ignore_errors_cleaned 1 repo_path temp_dir w1); auto. }
  eapply keeps_bind; [apply ends_any|]. intros _ _ _.
  eapply keeps_bind; [apply ends_any|]. intros _ _ _.
  eapply keeps_bind; [apply ends_any|]. intros w _ _.
  destruct (load_gitpm_json w _) as [dep_json err].
  eapply keeps_bind; [apply ends_any|]. intros system_only _ _.
  destruct (_ && _ && _); [|by apply keeps_ret].
  eapply keeps_bind; [apply ends_any|]. intros _ _ _.
  eapply keeps_bind; [apply ends_any|]. intros _ _ _.
  eapply keeps_bind; [apply ends_any|]. intros _ _ _.
  eapply keeps_weaken;
    [apply (ends_then_ret (clone_cleaned 1 repo_path)),
       cleanup_clone_ignoring_errors_cleans| |done].
  by intros.
Qed.

Section AfterCloneFacts.
Variable install_dependency : string → M bool.
Variable repo_url user repo_name install_name repo_path : string.
Variable branch : option string.

(** What the failing paths end with. *)
#[local] Abbreviation cleaned_if_false :=
  (λ (b : bool) w, b = false → clone_cleaned 2 repo_path w).

Lemma fail_after_cleanup :
  ends cleaned_if_false (_ ← cleanup_clone host cloned repo_path; mret false).
Proof.
  eapply keeps_weaken;
    [apply (ends_then_ret (clone_cleaned 1 repo_path)),
       cleanup_clone_cleans| |done].
  intros b w Hc _. apply (clone_cleaned_mono 1); [lia|done].
Qed.

Lemma install_peer_dependencies_cleans deps :
  ends cleaned_if_false
    (install_peer_dependencies host self install_dependency repo_path deps).
Proof.
  induction deps as [|dep rest IH]; [by apply keeps_ret|].
  cbn [install_peer_dependencies].
  apply (ends_bind (λ chosen w, chosen = None → clone_cleaned 2 repo_path w)).
  { destruct (dep_alternatives dep) as [[|alt alts]|];
      [by apply keeps_ret| |by apply keeps_ret].
    eapply keeps_bind; [apply ends_any|]. intros options _ _.
    eapply keeps_bind; [apply ends_any|]. intros selected _ _.
    destruct selected; [by apply keeps_ret|].
    eapply keeps_bind; [apply ends_any|]. intros _ _ _.
    eapply keeps_weaken;
      [apply (ends_then_ret (clone_cleaned 1 repo_path)),
         cleanup_clone_cleans| |done].
    intros b w Hc _. apply (clone_cleaned_mono 1); [lia|done]. }
  intros [[[name url] dbranch]|] w1 r w' Hchosen Hrun.
  2:{ injection Hrun as <- <-. intros _. by apply Hchosen. }
  refine (ends_run cleaned_if_false _ _ _ _ _ Hrun); clear Hrun.
  apply (ends_bind (λ abort w, abort = true → clone_cleaned 2 repo_path w));
    [apply dependency_scope_abort_cleans|].
  intros [] w2 r2 w2' Habort Hrun.
  { injection Hrun as <- <-. intros _. by apply Habort. }
  refine (ends_run cleaned_if_false _ _ _ _ _ Hrun); clear Hrun.
  eapply keeps_bind; [apply ends_any|]. intros _ _ _.
  eapply keeps_bind; [apply ends_any|]. intros [] _ _; [apply IH|].
  eapply keeps_bind; [apply ends_any|]. intros _ _ _.
  apply fail_after_cleanup.
Qed.

Lemma resolve_missing_cleans report :
  ends cleaned_if_false
    (resolve_missing host self install_dependency repo_path report).
Proof.
  unfold resolve_missing.
  eapply keeps_bind; [apply ends_any|]. intros _ _ _.
  eapply keeps_bind; [apply ends_any|]. intros _ _ _.
  eapply keeps_bind; [apply ends_any|]. intros _ _ _.
  eapply keeps_bind; [apply ends_any|]. intros _ _ _.
  apply (ends_bind (λ after w, after = None → clone_cleaned 2 repo_path w)).
  { destruct (_ && _); [|by apply keeps_ret].
    eapply keeps_bind; [apply ends_any|]. intros _ _ _.
    apply (ends_bind cleaned_if_false);
      [apply install_peer_dependencies_cleans|].
    intros [] w1 r w' Hdone Hrun.
    - refine (ends_run (λ after w, after = None → clone_cleaned 2 repo_path w)
                _ _ _ _ _ Hrun); clear Hrun.
      eapply keeps_bind; [apply ends_any|]. intros again _ _.
      by apply keeps_ret.
    - injection Hrun as <- <-. intros _. by apply Hdone. }
  intros [[deps_satisfied still_missing]|] w1 r w' Hafter Hrun.
  2:{ injection Hrun as <- <-. intros _. by apply Hafter. }
  refine (ends_run cleaned_if_false _ _ _ _ _ Hrun); clear Hrun.
  destruct (negb deps_satisfied); [|by apply keeps_ret].
  destruct (_ && _).
  - eapply keeps_bind; [apply ends_any|]. intros _ _ _.
    eapply keeps_bind; [apply ends_any|]. intros _ _ _.
    eapply keeps_bind; [apply ends_any|]. intros _ _ _.
    apply fail_after_cleanup.
  - destruct (negb _); [|by apply keeps_ret].
    eapply keeps_bind; [apply ends_any|]. intros _ _ _.
    apply fail_after_cleanup.
Qed.

(** Once it gets to the hooks, [install] does not fail. *)
Lemma register_installation_true :
  ends cleaned_if_false
    (register_installation host self repo_url user repo_name install_name
       repo_path branch).
Proof.
  unfold register_installation.
  eapply keeps_bind; [apply ends_any|]. intros scripts _ _.
  eapply keeps_bind; [apply ends_any|]. intros _ _ _.
  eapply keeps_bind; [apply ends_any|]. intros w _ _.
  eapply keeps_bind; [apply ends_any|]. intros _ _ _.
  eapply keeps_bind; [apply ends_any|]. intros _ _ _.
  eapply keeps_bind; [apply ends_any|]. intros _ _ _.
  by apply keeps_ret.
Qed.

(** Every way [install] returns [False] after the clone goes
    through the clean-up: when it returns, the clone is gone or its
    deletion is one of the last three actions. *)
Lemma install_after_clone_cleans skip_dependency_check :
  ends cleaned_if_false
    (install_after_clone host self install_dependency repo_url user
       repo_name install_name repo_path branch skip_dependency_check).
Proof.
  unfold install_after_clone.
  destruct skip_dependency_check; [apply register_installation_true|].
  eapply keeps_bind; [apply ends_any|]. intros _ _ _.
  eapply keeps_bind; [apply ends_any|]. intros report _ _.
  destruct (opt_truthy (json_error report)).
  { eapply keeps_bind; [apply ends_any|]. intros _ _ _.
    apply fail_after_cleanup. }
  apply (ends_bind cleaned_if_false).
  { destruct (negb _); [apply resolve_missing_cleans|by apply keeps_ret]. }
  intros [] w1 r w' Hproceed Hrun.
  - refine (ends_run cleaned_if_false _ _ _ _ _ Hrun); clear Hrun.
    eapply keeps_bind; [apply ends_any|]. intros _ _ _.
    apply register_installation_true.
  - injection Hrun as <- <-. intros _. by apply Hproceed.
Qed.
End AfterCloneFacts.
End CleanupFacts.

(** X22.  Whenever [install] returns [False] after the clone, the
    clone is gone or its deletion is one of the last three actions. *)
Lemma install_after_clone_failure_cleans_up (host : Host) (self : Self)
  (install_dependency : string → M bool)
  (repo_url user repo_name install_name repo_path : string)
  (branch : option string) (skip_dependency_check : bool) (w w' : World) :
  install_after_clone host self install_dependency repo_url user repo_name
    install_name repo_path branch skip_dependency_check w = (Ok false, w') →
  clone_cleaned 2 repo_path w'.
Proof.
  intros Hrun.
  by apply (ends_run _ _ _ _ _ (install_after_clone_cleans host self
    install_dependency repo_url user repo_name install_name repo_path branch
    skip_dependency_check) Hrun).
Qed.

(** C2.  Installing [tool] on [stubborn_host] fails on a peer
    dependency that needs the system scope; [install] returns [False],
    says it cleaned up the clone, reports no failure of the clean-up,
    and the clone is still there. *)
Theorem install_cleanup_failure_unreported :
  (install stubborn_host user_self 2 "tool" false false empty_world).1
  = Ok false
  ∧ path_exists empty_world tool_path = false
  ∧ path_exists
      (install stubborn_host user_self 2 "tool" false false empty_world).2
      tool_path = true
  ∧ printed_err ("Cleaned up cloned directory: " +:+ tool_path)
      (install stubborn_host user_self 2 "tool" false false empty_world).2
    = true
  ∧ cleanup_failure_reported
      (install stubborn_host user_self 2 "tool" false false empty_world).2
    = false.
Proof. repeat split; vm_compute; reflexivity. Qed.

(** ** The theorems at work *)


Lemma load_gitpm_json_order_witness :
  fs system_only_world !! path_join tool_path "gitpm.json"
  = Some (File false (Loaded system_only_manifest))
  ∧ load_gitpm_json system_only_world tool_path
    = manifest_answer "gitpm.json" (Loaded system_only_manifest).
Proof.
  assert (Hfile : fs system_only_world !! path_join tool_path "gitpm.json"
                  = Some (File false (Loaded system_only_manifest)))
    by (vm_compute; reflexivity).
  split; [exact Hfile|].
  exact (proj1 (load_gitpm_json_order system_only_world tool_path)
           false (Loaded system_only_manifest) Hfile).
Defined.

Lemma verify_repo_branch_witness :
  Forall wf_ref remote_refs
  ∧ "refs/heads/main" ∈ remote_refs.*2
  ∧ (verify_repo remote_host "https://example.com/acme/tool.git"
       (Some "main") empty_world).1 = Ok (true, "").
Proof.
  assert (Hwf : Forall wf_ref remote_refs).
  { repeat constructor; try discriminate. }
  assert (Hin : "refs/heads/main" ∈ remote_refs.*2) by (by left).
  split; [exact Hwf|]. split; [exact Hin|].
  exact (proj1 (proj2 (verify_repo_branch remote_host empty_world
    "https://example.com/acme/tool.git" "main" remote_refs
    (mkCompleted 0 (ls_remote_output remote_refs) "") (fs empty_world)
    eq_refl eq_refl eq_refl Hwf ltac:(discriminate))) Hin).
Defined.

Lemma remove_missing_path_witness :
  installed stale_world !! "tool" = Some tool_record
  ∧ path_exists stale_world (r_path tool_record) = false
  ∧ ∃ w', remove quiet_host user_self "tool" false stale_world = (Ok true, w')
      ∧ installed w' !! "tool" = None
      ∧ fs w' = fs stale_world.
Proof.
  assert (Hinst : installed stale_world !! "tool" = Some tool_record)
    by (vm_compute; reflexivity).
  assert (Hpath : path_exists stale_world (r_path tool_record) = false)
    by (vm_compute; reflexivity).
  split; [exact Hinst|]. split; [exact Hpath|].
  destruct (remove_missing_path quiet_host user_self stale_world "tool" false
              tool_record Hinst Hpath) as (w' & Hrun & _ & Hgone & _ & Hfs & _).
  exists w'. split; [exact Hrun|]. split; [exact Hgone|exact Hfs].
Defined.

Lemma remove_rmtree_failure_witness :
  installed installed_world !! "tool" = Some tool_record
  ∧ path_exists installed_world (r_path tool_record) = true
  ∧ installed (remove stubborn_host user_self "tool" false installed_world).2
    = installed installed_world.
Proof.
  assert (Hinst : installed installed_world !! "tool" = Some tool_record)
    by (vm_compute; reflexivity).
  assert (Hpath : path_exists installed_world (r_path tool_record) = true)
    by (vm_compute; reflexivity).
  split; [exact Hinst|]. split; [exact Hpath|].
  refine (proj1 (remove_rmtree_failure stubborn_host user_self installed_world
    "tool" false tool_record _ _ Hinst Hpath _ (surjective_pairing _))).
  intros w1. exists (Exn OSError "Permission denied"). split; reflexivity.
Defined.

(** * More of [gitpm.py] *)

(** ** What a successful [remove] leaves behind *)

Lemma path_exists_removed w p m :
  m = remove_tree p (fs w) →
  path_exists (mkWorld m (installed w) (installed_file w) (trace w)) p = false.
Proof.
  intros ->. unfold path_exists. cbn [fs].
  apply bool_decide_eq_false_2. intros [n Hn].
  unfold remove_tree in Hn. apply map_lookup_filter_Some in Hn as [_ Hunder].
  cbn [fst] in Hunder. unfold path_under in Hunder.
  by rewrite String.eqb_refl in Hunder.
Qed.

(** X1.  When [remove] returns [True], the name was registered, its
    entry is gone from the registry, the registry file holds what the
    registry holds and the installation path does not exist.  When it
    returns [False], the registry, in memory and on disk, is what it
    was.  And whatever [remove] does, also when it raises, the entries
    of the other packages stay as they are. *)
Theorem remove_outcome (host : Host) (self : Self)
  (name : string) (skip_uninstall : bool) (w : World) (r : result bool)
  (w' : World) :
  remove host self name skip_uninstall w = (r, w') →
  (r = Ok true →
   ∃ info, installed w !! name = Some info
     ∧ installed w' = delete name (installed w)
     ∧ installed w' !! name = None
     ∧ installed_file w' = installed w'
     ∧ path_exists w' (r_path info) = false)
  ∧ (r = Ok false →
     installed w' = installed w ∧ installed_file w' = installed_file w)
  ∧ (∀ other, other ≠ name → installed w' !! other = installed w !! other).
Proof.
  unfold remove.
  unfold mbind at 1. unfold M_bind at 1. unfold get_world at 1.
  destruct (installed w !! name) as [info|] eqn:Hinst.
  2:{ munfold. by intros [= <- <-]. }
  destruct (path_exists w (r_path info)) eqn:Hpath; cbn [negb].
  2:{ unfold del_installed, save_installed. munfold. cbn [installed].
      rewrite Hinst. intros [= <- <-]. cbn [installed installed_file].
      split; [|split; [done|]].
      - intros _. exists info. rewrite lookup_delete_eq.
        repeat split; try done.
      - intros other Hother. by rewrite lookup_delete_ne. }
  unfold mbind at 1. unfold M_bind at 1.
  destruct (when (negb skip_uninstall) _ w) as [[[]|e] w1] eqn:Ehooks.
  2:{ intros [= <- <-].
      destruct skip_uninstall; cbn [negb when] in Ehooks; [done|].
      destruct (remove_hooks_keep host self w info w _ w1
                  (registry_kept_refl _ w) Ehooks) as [(Hi & Hf & _) _].
      split; [done|]. split; [done|]. intros other _. by rewrite Hi. }
  assert (Hkept : registry_kept (λ _, True) w w1).
  { destruct skip_uninstall; cbn [negb when] in Ehooks.
    - injection Ehooks as <-. apply registry_kept_refl.
    - by destruct (remove_hooks_keep host self w info w _ w1
                     (registry_kept_refl _ w) Ehooks). }
  destruct Hkept as (Hi & Hf & _).
  unfold try_except, try_excepts, rmtree, del_installed, save_installed.
  munfold.
  destruct (rmtree_error host w1 (r_path info)) as [e|].
  { cbn [select_handler].
    destruct (is_Exception e); intros [= <- <-]; cbn [installed installed_file];
      (split; [done|]); (split; [done|]); intros other _; by rewrite Hi. }
  cbn [installed]. rewrite Hi, Hinst. intros [= <- <-].
  cbn [installed installed_file].
  split; [|split; [done|]].
  - intros _. exists info. rewrite lookup_delete_eq.
    repeat split; try done. by apply (path_exists_removed w1).
  - intros other Hother. by rewrite lookup_delete_ne.
Qed.

Lemma remove_outcome_witness :
  (remove quiet_host user_self "tool" false installed_world).1 = Ok true
  ∧ installed (remove quiet_host user_self "tool" false installed_world).2
      !! "tool" = None.
Proof.
  assert (Hr : (remove quiet_host user_self "tool" false installed_world).1
               = Ok true) by (vm_compute; reflexivity).
  split; [exact Hr|].
  destruct (remove_outcome quiet_host user_self "tool" false
              installed_world _ _ (surjective_pairing _)) as [H _].
  destruct (H Hr) as (info & _ & _ & Hgone & _). exact Hgone.
Defined.

(** ** Looking a name up in the catalog *)

Section LookupFacts.
Variable host : Host.
Variable self : Self.

Lemma candidate_of_parse e :
  candidate_of host e
  = match parse_repo_url (bracketed_host_ok host) (entry_url e) with
    | Ok (_, user, repo_name) =>
        Ok (mkCandidate (entry_url e) user (display_name_of e repo_name)
              repo_name (entry_branch e))
    | Raise err => Raise err
    end.
Proof.
  unfold candidate_of.
  by destruct (parse_repo_url _ (entry_url e)) as [[[full user] repo_name]|err].
Qed.

(** The loop of [find_repos_by_name] adds, in order, the candidates
    of the entries that go by [name]; it stops at the first URL that
    cannot be parsed. *)
Lemma find_repos_loop name repos acc w :
  for_each repos (λ repo_entry matches,
    '(_, user, repo_name) ← lift_result
      (parse_repo_url (bracketed_host_ok host) (entry_url repo_entry));
    let display_name :=
      match entry_name repo_entry with
      | Some n => if str_truthy n then n else repo_name
      | None => repo_name
      end in
    if String.eqb (str_lower display_name) (str_lower name)
    then mret (matches ++ [mkCandidate (entry_url repo_entry) user display_name
                             repo_name (entry_branch repo_entry)])
    else mret matches) acc w
  = match mapM (candidate_of host) repos with
    | Ok cands => (Ok (acc ++ List.filter (named name) cands), w)
    | Raise e => (Raise e, w)
    end.
Proof.
  revert acc. induction repos as [|e repos IH]; intros acc.
  { cbn. by rewrite app_nil_r. }
  cbn [for_each mapM]. unfold mbind at 1. unfold M_bind at 1.
  unfold mbind at 1. unfold M_bind at 1. unfold lift_result at 1.
  rewrite candidate_of_parse.
  destruct (parse_repo_url _ (entry_url e)) as [[[full user] repo_name]|err];
    [|done].
  cbn [mbind result_bind]. fold (display_name_of e repo_name).
  destruct (String.eqb (str_lower (display_name_of e repo_name))
              (str_lower name)) eqn:Hname.
  - unfold mret at 1. unfold M_ret at 1. rewrite IH.
    destruct (mapM (candidate_of host) repos) as [cands|err]; [|done].
    cbn [mbind result_bind mret result_ret List.filter]. unfold named at 2.
    cbn [cand_name]. rewrite Hname. by rewrite <- app_assoc.
  - unfold mret at 1. unfold M_ret at 1. rewrite IH.
    destruct (mapM (candidate_of host) repos) as [cands|err]; [|done].
    cbn [mbind result_bind mret result_ret List.filter]. unfold named at 2.
    cbn [cand_name]. by rewrite Hname.
Qed.

Lemma after_actions_nil w : after_actions [] w = w.
Proof. by destruct w. Qed.

(** The loop of [load_config] collects the entries of the files in
    order and prints one warning for each file it cannot read. *)
Lemma read_config_files view files acc w :
  for_each files (read_config_file view) acc w
  = (Ok (acc ++ files ≫= load_config_file view),
     after_actions (reverse (omap (read_warning view) files)) w).
Proof.
  revert acc w. induction files as [|file files IH]; intros acc w.
  { cbn. by rewrite app_nil_r, after_actions_nil. }
  cbn [for_each omap list_omap mbind list_bind]. unfold mbind at 1.
  unfold M_bind at 1.
  unfold read_config_file at 1, load_config_file at 1, read_warning at 1.
  destruct (cat_lines view file) as [lines|].
  - unfold mret at 1. unfold M_ret at 1. rewrite IH.
    by rewrite <- app_assoc.
  - unfold mbind at 1. unfold M_bind at 1. unfold print_err, record_action.
    unfold mret at 1. unfold M_ret at 1. rewrite IH.
    rewrite reverse_cons. unfold after_actions. cbn [fs installed
      installed_file trace app]. by rewrite <- app_assoc.
Qed.

(** [load_config] when a catalog file is found. *)
Lemma load_config_found w :
  config_files_of host self w ≠ [] →
  load_config host self w
  = (Ok (config_files_of host self w
         ≫= load_config_file (catalog_view host w)),
     after_actions
       (reverse (omap (read_warning (catalog_view host w))
                   (config_files_of host self w))) w).
Proof.
  unfold load_config, config_files_of. intros Hfiles.
  unfold mbind at 1. unfold M_bind at 1. unfold get_world at 1.
  destruct (find_config_files _ _ _) as [|file files]; [done|].
  by rewrite read_config_files.
Qed.

(** What [find_repos_by_name] returns goes by the name asked for. *)
Lemma find_repos_by_name_named name :
  keeps (λ _, True)
    (λ matches _, Forall (λ c, named name c = true) matches) (λ _, True)
    (find_repos_by_name host self name).
Proof.
  intros w r w' _. unfold find_repos_by_name.
  unfold mbind at 1. unfold M_bind at 1.
  destruct (load_config host self w) as [[repos|err] w1];
    [|by intros [= <- <-]].
  rewrite find_repos_loop.
  destruct (mapM (candidate_of host) repos) as [cands|err];
    intros [= <- <-]; (split; [done|]); [|done].
  cbn [app]. apply Forall_forall. intros c Hc.
  apply list_elem_of_In, filter_In in Hc. by destruct Hc.
Qed.

Lemma prompt_round_choice options :
  keeps (λ _, True)
    (λ r _, ∀ sel, r = Some (Some sel) → sel ∈ options) (λ _, True)
    (prompt_round host options).
Proof.
  unfold prompt_round, try_except.
  apply (keeps_try_excepts _ _ (λ _, True) (λ _, True)); [| |done].
  - eapply keeps_bind; [apply ends_any|]. intros answer _ _.
    destruct (py_int host (str_strip answer)) as [n|]; [|by apply keeps_raise].
    destruct (_ && _).
    + apply keeps_ret. intros _ sel [= Hsel].
      by apply list_elem_of_lookup_2 in Hsel.
    + eapply keeps_bind; [apply ends_any|]. intros _ _ _.
      by apply keeps_ret.
  - intros e h _. cbn [select_handler]. destruct (_ || _); [|done].
    intros [= <-]. eapply keeps_bind; [apply ends_any|]. intros _ _ _.
    by apply keeps_ret.
Qed.

Lemma prompt_loop_choice rounds options :
  keeps (λ _, True)
    (λ selected _, ∀ sel, selected = Some sel → sel ∈ options) (λ _, True)
    (prompt_loop host rounds options).
Proof.
  induction rounds as [|rounds IH]; cbn [prompt_loop];
    [by apply keeps_raise|].
  eapply keeps_bind; [apply prompt_round_choice|].
  intros [selected|] _ Hr; [|apply IH].
  apply keeps_ret. intros _ sel ->. by apply Hr.
Qed.

Lemma prompt_selection_in options prompt_text :
  keeps (λ _, True)
    (λ selected _, ∀ sel, selected = Some sel → sel ∈ options) (λ _, True)
    (prompt_selection host options prompt_text).
Proof.
  destruct options as [|o [|o' options]]; cbn [prompt_selection].
  - by apply keeps_ret.
  - apply keeps_ret. intros _ sel [= <-]. by left.
  - eapply keeps_bind; [apply ends_any|]. intros _ _ _.
    eapply keeps_bind; [apply ends_any|]. intros _ _ _.
    eapply keeps_bind; [apply ends_any|]. intros _ _ _.
    eapply keeps_bind; [apply ends_any|]. intros _ _ _.
    apply prompt_loop_choice.
Qed.
End LookupFacts.



(** X3.  [prompt_selection] answers [None] when there is nothing to
    choose from and the only option when there is one, without
    printing or asking; and whatever it answers is one of the options. *)
Theorem prompt_selection_choice (host : Host) (options : list Candidate)
  (prompt_text : string) (w : World) (r : result (option Candidate))
  (w' : World) :
  prompt_selection host options prompt_text w = (r, w') →
  (options = [] → r = Ok None ∧ w' = w)
  ∧ (∀ only, options = [only] → r = Ok (Some only) ∧ w' = w)
  ∧ (∀ sel, r = Ok (Some sel) → sel ∈ options).
Proof.
  intros Hrun. split; [|split].
  - intros ->. by injection Hrun as <- <-.
  - intros only ->. by injection Hrun as <- <-.
  - intros sel ->.
    by apply (ends_run _ _ _ _ _ (prompt_selection_in host options prompt_text)
                Hrun sel).
Qed.

Lemma prompt_selection_choice_witness :
  prompt_selection quiet_host [tool_candidate] "Choose one:" empty_world
  = (Ok (Some tool_candidate), empty_world).
Proof.
  destruct (proj1 (proj2 (prompt_selection_choice quiet_host [tool_candidate]
    "Choose one:" empty_world _ _ (surjective_pairing _))) tool_candidate
    eq_refl) as [Hr Hw].
  rewrite (surjective_pairing (prompt_selection _ _ _ _)).
  by rewrite Hr, Hw.
Defined.

(** ** What a successful [install] leaves behind *)

Section InstallFacts.
Variable host : Host.
Variable self : Self.

#[local] Abbreviation ends Q m := (keeps (λ _, True) Q (λ _, True) m).

Lemma register_installation_registers repo_url user repo_name install_name
  branch :
  ends (λ b w, b = true → registered self install_name w)
    (register_installation host self repo_url user repo_name install_name
       (path_join (self_apps_dir self) install_name) branch).
Proof.
  unfold register_installation.
  eapply keeps_bind; [apply ends_any|]. intros scripts _ _.
  eapply keeps_bind; [apply ends_any|]. intros _ _ _.
  intros w r w' _. unfold save_installed. munfold. intros [= <- <-].
  split; [done|]. intros _. eexists. cbn [installed installed_file trace].
  rewrite lookup_insert_eq. split; [reflexivity|].
  cbn [r_name r_path r_branch]. repeat split. by eexists.
Qed.

Lemma install_after_clone_registers install_dependency repo_url user
  repo_name install_name branch skip_dependency_check :
  ends (λ b w, b = true → registered self install_name w)
    (install_after_clone host self install_dependency repo_url user repo_name
       install_name (path_join (self_apps_dir self) install_name) branch
       skip_dependency_check).
Proof.
  unfold install_after_clone.
  destruct skip_dependency_check; [apply register_installation_registers|].
  eapply keeps_bind; [apply ends_any|]. intros _ _ _.
  eapply keeps_bind; [apply ends_any|]. intros report _ _.
  destruct (opt_truthy (json_error report)).
  { eapply keeps_bind; [apply ends_any|]. intros _ _ _.
    eapply keeps_bind; [apply ends_any|]. intros _ _ _.
    by apply keeps_ret. }
  eapply keeps_bind; [apply ends_any|]. intros [] _ _; [|by apply keeps_ret].
  eapply keeps_bind; [apply ends_any|]. intros _ _ _.
  apply register_installation_registers.
Qed.

Lemma install_registers depth name skip_compatibility_check
  skip_dependency_check :
  ends (λ b w, b = true →
          ∃ install_name,
            str_lower install_name = str_lower name
            ∧ registered self install_name w)
    (install host self depth name skip_compatibility_check
       skip_dependency_check).
Proof.
  destruct depth as [|depth]; cbn [install]; [by apply keeps_raise|].
  eapply keeps_bind; [apply find_repos_by_name_named|].
  intros matches ? Hmatches. cbv beta in Hmatches.
  destruct (is_nil matches).
  { eapply keeps_bind; [apply ends_any|]. intros _ _ _. by apply keeps_ret. }
  eapply keeps_bind; [apply prompt_selection_in|].
  intros [sel|] ? Hsel; cbv beta in Hsel.
  2:{ eapply keeps_bind; [apply ends_any|]. intros _ _ _. by apply keeps_ret. }
  assert (Hname : str_lower (cand_name sel) = str_lower name).
  { specialize (Hsel sel eq_refl).
    rewrite Forall_forall in Hmatches. specialize (Hmatches sel Hsel).
    by apply String.eqb_eq in Hmatches. }
  eapply keeps_bind; [apply ends_any|]. intros [[full user] repo_name] _ _.
  eapply keeps_bind; [apply ends_any|]. intros w2 _ _.
  eapply keeps_bind; [apply ends_any|]. intros go_on _ _.
  destruct (negb go_on); [by apply keeps_ret|].
  eapply keeps_bind; [apply ends_any|]. intros _ _ _.
  eapply keeps_bind; [apply ends_any|]. intros [is_valid error_msg] _ _.
  destruct (negb is_valid).
  { eapply keeps_bind; [apply ends_any|]. intros _ _ _. by apply keeps_ret. }
  eapply keeps_bind; [apply ends_any|]. intros _ _ _.
  eapply keeps_bind; [apply ends_any|]. intros compatible _ _.
  destruct (negb compatible); [by apply keeps_ret|].
  eapply keeps_bind; [apply ends_any|]. intros _ _ _.
  eapply keeps_bind; [apply ends_any|]. intros clone _ _.
  destruct (negb (returncode clone =? 0)).
  { eapply keeps_bind; [apply ends_any|]. intros _ _ _.
    eapply keeps_bind; [apply ends_any|]. intros _ _ _. by apply keeps_ret. }
  eapply keeps_bind; [apply ends_any|]. intros _ _ _.
  eapply keeps_weaken; [apply install_after_clone_registers| |done].
  intros b w Hb ->. exists (cand_name sel). split; [done|]. by apply Hb.
Qed.
End InstallFacts.

(** X4.  [install] returns [True] only when the package is registered:
    under a name that is the name asked for up to case, with the path
    that [pathlib] gives for [self.apps_dir / name] (the name itself
    when it is absolute), the registry saved, and the success message
    printed last. *)
Theorem install_true_postcondition (host : Host) (self : Self) (depth : nat)
  (name : string) (skip_compatibility_check skip_dependency_check : bool)
  (w w' : World) :
  install host self depth name skip_compatibility_check skip_dependency_check w
  = (Ok true, w') →
  ∃ install_name,
    str_lower install_name = str_lower name
    ∧ registered self install_name w'.
Proof.
  intros Hrun.
  by apply (ends_run _ _ _ _ _ (install_registers host self depth name
              skip_compatibility_check skip_dependency_check) Hrun).
Qed.

Lemma install_true_postcondition_witness :
  (install stubborn_host user_self 1 "Tool" false true empty_world).1 = Ok true
  ∧ ∃ install_name,
      str_lower install_name = str_lower "Tool"
      ∧ registered user_self install_name
          (install stubborn_host user_self 1 "Tool" false true empty_world).2.
Proof.
  assert (Hrun : install stubborn_host user_self 1 "Tool" false true empty_world
                 = (Ok true,
                    (install stubborn_host user_self 1 "Tool" false true
                       empty_world).2)).
  { rewrite (surjective_pairing (install _ _ _ _ _ _ _)) at 1.
    f_equal; vm_compute; reflexivity. }
  split; [by rewrite Hrun|].
  exact (install_true_postcondition stubborn_host user_self 1 "Tool" false true
           empty_world _ Hrun).
Defined.

(** ** What [update] keeps of the registry *)

Section UpdateAllFacts.
Variable host : Host.
Variable self : Self.
Variable w0 : World.

#[local] Abbreviation Inv := (same_packages w0).
#[local] Abbreviation allowed := (λ _ : action, True).

Lemma same_packages_fs w m :
  Inv w → Inv (mkWorld m (installed w) (installed_file w) (trace w)).
Proof. done. Qed.

Lemma same_packages_action w (a : action) :
  allowed a → Inv w →
  Inv (mkWorld (fs w) (installed w) (installed_file w) (a :: trace w)).
Proof. done. Qed.

Lemma keeps_for_each {A S} (E : exn → Prop) (l : list A)
  (body : A → S → M S) (s : S) :
  (∀ x s, keeps Inv any E (body x s)) → keeps Inv any E (for_each l body s).
Proof.
  intros Hbody. revert s. induction l as [|x l IH]; intros s;
    cbn [for_each]; [by apply keeps_ret|].
  eapply keeps_bind; [apply Hbody|]. intros s' _ _. apply IH.
Qed.

Lemma refresh_hook_paths_keeps name scripts :
  keeps Inv any (λ _, True) (refresh_hook_paths name scripts).
Proof.
  intros w r w' Hw. unfold refresh_hook_paths, save_installed. munfold.
  destruct (installed w !! name) as [rec|] eqn:Hrec; [|by intros [= <- <-]].
  destruct (_ || _); intros [= <- <-]; (split; [|done]); [|done].
  intros n. cbn [installed]. destruct (decide (n = name)) as [->|Hne].
  - rewrite lookup_insert_eq, <- Hw, Hrec.
    by repeat case_bool_decide.
  - by rewrite lookup_insert_ne.
Qed.

Lemma update_one_keeps name check_only :
  keeps Inv any (λ _, True) (update_one host self name check_only).
Proof.
  pose proof same_packages_fs as Hfs.
  pose proof same_packages_action as Hact.
  assert (Hgit : ∀ args p, keeps Inv any (λ _, True) (git host args p)).
  { intros args p. by apply (keeps_run Inv allowed). }
  assert (Hgitc : ∀ args p,
    keeps Inv any (λ _, True) (git_checked host args p)).
  { intros args p. by apply (keeps_run_checked Inv allowed). }
  assert (Hprint : ∀ msg, keeps Inv any (λ _, True) (print msg)).
  { intros msg. by apply (keeps_print Inv allowed). }
  assert (Hprinterr : ∀ msg, keeps Inv any (λ _, True) (print_err msg)).
  { intros msg. by apply (keeps_print_err Inv allowed). }
  assert (Hscripts : ∀ p,
    keeps Inv any (λ _, True) (check_scripts host self p)).
  { intros p. eapply keeps_weaken;
      [by apply (check_scripts_keeps Inv allowed)|done..]. }
  assert (Hrun : ∀ s p, keeps Inv any (λ _, True) (run_script host s p)).
  { intros s p. eapply keeps_weaken;
      [by apply (run_script_keeps Inv allowed)|done..]. }
  unfold update_one.
  kstep; [apply keeps_get_world|]. intros w _ _.
  destruct (installed w !! name) as [repo_info|].
  2:{ kstep; [apply Hprint|]. intros _ _ _. by apply keeps_ret. }
  destruct (negb (path_exists w (r_path repo_info))).
  { kstep; [apply Hprint|]. intros _ _ _. by apply keeps_ret. }
  kstep; [apply Hprint|]. intros _ _ _. unfold try_except.
  apply (keeps_try_excepts Inv _ (λ _, True) (λ _, True)); [| |done].
  2:{ intros e h _. cbn [select_handler]. destruct (has_kind _ e); [|done].
      intros [= <-]. kstep; [apply Hprinterr|]. intros _ _ _.
      by apply keeps_ret. }
  kstep; [apply Hgitc|]. intros _ _ _.
  kstep; [apply Hgit|]. intros head _ _.
  kstep; [apply Hgit|]. intros remote _ _.
  kstep; [apply Hscripts|]. intros scripts _ _.
  kstep.
  { destruct (script_check scripts) as [check|]; [|by apply keeps_ret].
    kstep; [apply Hprint|]. intros _ _ _.
    kstep.
    { eapply keeps_weaken;
        [by apply (run_script_exit_code_keeps Inv allowed)|done..]. }
    intros code _ _.
    destruct (code =? 1); [by apply keeps_ret|].
    destruct (code =? 0); [by apply keeps_ret|].
    kstep; [apply Hprinterr|]. intros _ _ _. by apply keeps_ret. }
  intros updates_available _ _. cbv beta iota.
  destruct (negb updates_available).
  { kstep; [apply Hprint|]. intros _ _ _. by apply keeps_ret. }
  destruct check_only.
  { kstep; [apply Hprint|]. intros _ _ _. by apply keeps_ret. }
  kstep.
  { apply keeps_when. intros _. kstep; [apply Hgitc|]. intros _ _ _.
    by apply keeps_ret. }
  intros _ _ _. kstep; [apply Hgit|]. intros status_result _ _.
  kstep.
  { destruct (str_truthy _).
    - kstep; [apply Hprint|]. intros _ _ _.
      kstep; [apply Hgitc|]. intros _ _ _.
      kstep; [apply Hgitc|]. intros _ _ _. by apply keeps_ret.
    - kstep; [apply Hgitc|]. intros _ _ _. by apply keeps_ret. }
  intros _ _ _. kstep; [apply Hscripts|]. intros scripts' _ _.
  kstep.
  { destruct (script_update scripts') as [upd|].
    - kstep; [apply Hprint|]. intros _ _ _.
      kstep; [apply Hrun|]. intros ok _ _.
      apply keeps_when. intros _. apply Hprint.
    - destruct (script_setup scripts') as [setup|]; [|by apply keeps_ret].
      kstep; [apply Hprint|]. intros _ _ _.
      kstep; [apply Hrun|]. intros _ _ _. by apply keeps_ret. }
  intros _ _ _. kstep; [apply refresh_hook_paths_keeps|]. intros _ _ _.
  kstep; [apply Hprint|]. intros _ _ _. by apply keeps_ret.
Qed.

Lemma update_keeps depth name check_only :
  keeps Inv any (λ _, True) (update host self depth name check_only).
Proof.
  revert name check_only.
  induction depth as [|depth IH]; intros name check_only; cbn [update];
    [by apply keeps_raise|].
  destruct (opt_truthy name); [apply update_one_keeps|].
  kstep; [apply keeps_get_world|]. intros w _ _.
  destruct (bool_decide _).
  { kstep; [by apply (keeps_print Inv allowed)|]. intros _ _ _.
    by apply keeps_ret. }
  kstep; [by apply (keeps_print Inv allowed)|]. intros _ _ _.
  apply keeps_for_each. intros n success.
  kstep; [apply IH|]. intros ok _ _. by apply keeps_ret.
Qed.
End UpdateAllFacts.

(** X5.  [update], of one package or of all, with or without
    check-only, never adds or removes a package and never changes the
    URL, owner, name, repository name, branch or path of one: all it can
    change in a record are the hook paths. *)
Theorem update_keeps_packages (host : Host) (self : Self) (depth : nat)
  (name : option string) (check_only : bool) (w : World)
  (r : result bool) (w' : World) :
  update host self depth name check_only w = (r, w') →
  same_packages w w'.
Proof.
  intros Hrun.
  by destruct (update_keeps host self w depth name check_only w r w'
                 (λ _, eq_refl) Hrun).
Qed.

Lemma update_keeps_packages_witness :
  record_identity
    <$> installed (update busy_host user_self 2 None false installed_world).2
          !! "tool"
  = record_identity <$> installed installed_world !! "tool".
Proof.
  exact (update_keeps_packages busy_host user_self 2 None false installed_world
           _ _ (surjective_pairing _) "tool").
Defined.

(** ** What hook discovery finds *)

Lemma files_kept_refl w : files_kept w w.
Proof. done. Qed.

Lemma files_kept_trans w1 w2 w3 :
  files_kept w1 w2 → files_kept w2 w3 → files_kept w1 w3.
Proof.
  intros H12 H23 p. destruct (H12 p) as [? ?], (H23 p) as [? ?]. split; auto.
Qed.

Lemma files_kept_found w w' repo_path names p :
  files_kept w w' → found_script w repo_path names p →
  found_script w' repo_path names p.
Proof.
  intros Hk (name & Hin & -> & Hfile & Hrun). exists name.
  destruct (Hk (path_join repo_path name)) as [Hf Hx].
  split; [done|]. split; [done|]. split; [auto|].
  destruct Hrun; [by left|right; auto].
Qed.

Lemma found_script_mono w repo_path names names' p :
  (∀ n, n ∈ names → n ∈ names') →
  found_script w repo_path names p → found_script w repo_path names' p.
Proof. intros Hsub (name & Hin & H). exists name. split; [auto|done]. Qed.

(** [os.chmod(p, 0o755)] keeps every regular file and every
    executable bit. *)
Lemma files_kept_set_executable w q :
  files_kept w
    (mkWorld (set_executable q (fs w)) (installed w) (installed_file w)
       (AChmod q :: trace w)).
Proof.
  intros p. unfold path_is_file, path_executable, set_executable. cbn [fs].
  destruct (fs w !! q) as [[|x c]|] eqn:Hq; [done| |done].
  destruct (decide (p = q)) as [->|Hne].
  - rewrite lookup_insert_eq, Hq. done.
  - by rewrite lookup_insert_ne.
Qed.

Section DiscoveryFacts.
Variable host : Host.
Variable self : Self.

Lemma chmod_best_effort_kept p w w' :
  chmod_best_effort host p w = (Ok (), w') → files_kept w w'.
Proof.
  unfold chmod_best_effort, try_except, try_excepts, chmod. munfold.
  destruct (chmod_error host w p) as [e|].
  - cbn [select_handler]. destruct (is_Exception e); [|done].
    by intros [= <-].
  - intros [= <-]. apply files_kept_set_executable.
Qed.

Lemma find_script_found repo_path names w r w' :
  find_script host repo_path names w = (Ok r, w') →
  files_kept w w'
  ∧ ∀ p, r = Some p → found_script w' repo_path names p.
Proof.
  revert w. induction names as [|name names IH]; intros w.
  { intros [= <- <-]. by split. }
  assert (Hrest : find_script host repo_path names w = (Ok r, w') →
    files_kept w w'
    ∧ ∀ p, r = Some p → found_script w' repo_path (name :: names) p).
  { intros Hrun. destruct (IH _ Hrun) as [Hk Hp]. split; [done|].
    intros p Hr. eapply found_script_mono; [|by apply Hp].
    intros n Hn. by right. }
  cbn [find_script]. unfold mbind at 1. unfold M_bind at 1.
  unfold get_world at 1.
  destruct (path_exists w (path_join repo_path name)
            && path_is_file w (path_join repo_path name)) eqn:Hfile;
    [|done].
  apply andb_true_iff in Hfile as [_ Hfile].
  unfold mbind at 1. unfold M_bind at 1.
  destruct (when _ _ w) as [[[]|e] w1] eqn:Hchmod; [|done].
  assert (Hk1 : files_kept w w1).
  { destruct (is_shell_suffix (path_suffix name)); cbn [when] in Hchmod.
    - by apply chmod_best_effort_kept in Hchmod.
    - by injection Hchmod as <-. }
  unfold mbind at 1. unfold M_bind at 1. unfold get_world at 1.
  destruct (String.eqb (path_suffix name) ".py"
            || path_executable w1 (path_join repo_path name)) eqn:Hrun.
  - intros [= <- <-]. split; [done|]. intros p [= <-].
    exists name. split; [by left|]. split; [done|].
    split; [by apply Hk1|].
    apply orb_true_iff in Hrun as [Hpy|Hx]; [left|by right].
    by apply String.eqb_eq in Hpy.
  - intros Hrun'. destruct (IH _ Hrun') as [Hk Hp]. split.
    + by eapply files_kept_trans.
    + intros p Hr. eapply found_script_mono; [|by apply Hp].
      intros n Hn. by right.
Qed.
End DiscoveryFacts.

(** X6.  Every hook [check_scripts] returns is, when it returns, a
    candidate file of its kind in the repository that is a regular file
    and is a Python script or executable; no [uninstall] hook is ever
    returned; and discovery loses no regular file and no executable
    bit. *)
Theorem check_scripts_found (host : Host) (self : Self) (repo_path : string)
  (w : World) (s : Scripts) (w' : World) :
  check_scripts host self repo_path w = (Ok s, w') →
  files_kept w w'
  ∧ (∀ p, script_setup s = Some p →
       found_script w' repo_path (hook_names (scope_prefix self) "setup" "install") p)
  ∧ (∀ p, script_remove s = Some p →
       found_script w' repo_path (hook_names (scope_prefix self) "remove" "uninstall") p)
  ∧ (∀ p, script_update s = Some p →
       found_script w' repo_path (hook_names (scope_prefix self) "update" "upgrade") p)
  ∧ (∀ p, script_check s = Some p →
       found_script w' repo_path (hook_names (scope_prefix self) "check" "check-updates") p)
  ∧ script_uninstall s = None.
Proof.
  unfold check_scripts.
  unfold mbind at 1. unfold M_bind at 1.
  destruct (find_script host repo_path _ w) as [[s1|e] w1] eqn:H1; [|done].
  unfold mbind at 1. unfold M_bind at 1.
  destruct (find_script host repo_path _ w1) as [[s2|e] w2] eqn:H2; [|done].
  unfold mbind at 1. unfold M_bind at 1.
  destruct (find_script host repo_path _ w2) as [[s3|e] w3] eqn:H3; [|done].
  unfold mbind at 1. unfold M_bind at 1.
  destruct (find_script host repo_path _ w3) as [[s4|e] w4] eqn:H4; [|done].
  intros [= <- <-]. cbn [script_setup script_remove script_update script_check
                         script_uninstall].
  apply find_script_found in H1 as [K1 F1], H2 as [K2 F2], H3 as [K3 F3],
    H4 as [K4 F4].
  assert (K24 : files_kept w1 w4).
  { eapply files_kept_trans; [done|]. by eapply files_kept_trans. }
  assert (K34 : files_kept w2 w4) by (by eapply files_kept_trans).
  split; [by eapply files_kept_trans|].
  split; [intros p Hp; by eapply files_kept_found; [|apply F1]|].
  split; [intros p Hp; by eapply files_kept_found; [|apply F2]|].
  split; [intros p Hp; by eapply files_kept_found; [|apply F3]|].
  split; [intros p Hp; by apply F4|done].
Qed.

Lemma check_scripts_found_witness :
  (check_scripts quiet_host user_self tool_path installed_world).1
  = Ok (mkScripts (Some (path_join tool_path "setup.sh")) None None None None)
  ∧ found_script
      (check_scripts quiet_host user_self tool_path installed_world).2
      tool_path (hook_names "user" "setup" "install")
      (path_join tool_path "setup.sh").
Proof.
  assert (Hrun : check_scripts quiet_host user_self tool_path installed_world
    = (Ok (mkScripts (Some (path_join tool_path "setup.sh")) None None None
             None),
       (check_scripts quiet_host user_self tool_path installed_world).2)).
  { rewrite (surjective_pairing (check_scripts _ _ _ _)) at 1.
    f_equal; vm_compute; reflexivity. }
  split; [by rewrite Hrun|].
  exact (proj1 (proj2 (check_scripts_found quiet_host user_self tool_path
    installed_world _ _ Hrun)) _ eq_refl).
Defined.

Section PriorityFacts.
Variable host : Host.
Variable self : Self.
Hypothesis chmod_works : ∀ w p, chmod_error host w p = None.

(** A shell script that is a regular file and comes first among the
    candidates is the one found. *)
Lemma find_script_first repo_path name rest w r w' :
  is_shell_suffix (path_suffix name) = true →
  path_is_file w (path_join repo_path name) = true →
  find_script host repo_path (name :: rest) w = (Ok r, w') →
  r = Some (path_join repo_path name).
Proof.
  intros Hsh Hfile. cbn [find_script]. rewrite Hsh. cbn [when].
  unfold mbind at 1. unfold M_bind at 1. unfold get_world at 1.
  assert (path_exists w (path_join repo_path name) = true) as ->.
  { unfold path_exists, path_is_file in *. apply bool_decide_eq_true_2.
    by destruct (fs w !! path_join repo_path name). }
  rewrite Hfile. cbn [andb].
  unfold chmod_best_effort, try_except, try_excepts, chmod. munfold.
  rewrite chmod_works. cbn [fs].
  match goal with
  | |- context [path_executable ?w1 ?p] =>
      assert (path_executable w1 p = true) as ->
  end.
  { unfold path_executable, path_is_file, set_executable in *. cbn [fs].
    destruct (fs w !! path_join repo_path name) as [[|x c]|] eqn:Hp;
      [done| |done].
    by rewrite lookup_insert_eq. }
  rewrite orb_true_r. by intros [= <- <-].
Qed.

Lemma scope_script_shell a :
  a = "setup" ∨ a = "remove" ∨ a = "update" ∨ a = "check" →
  is_shell_suffix (path_suffix (a +:+ "-" +:+ scope_prefix self +:+ ".sh"))
  = true.
Proof.
  unfold scope_prefix.
  intros [-> | [-> | [-> | ->]]]; by destruct (self_system self).
Qed.
End PriorityFacts.



(** ** Running a hook *)

Section RunScriptFacts.
Variable host : Host.

(** When the process of a hook completes, it is the process of
    [script_command]. *)
Lemma run_script_process_completed script_path repo_path w cp w' :
  run_script_process host script_path repo_path w = (Ok cp, w') →
  ∃ w1 m,
    subprocess_run host w1 (script_command host script_path) (Some repo_path)
    = (Ok cp, m).
Proof.
  unfold run_script_process. fold (script_command host script_path).
  unfold mbind at 1. unfold M_bind at 1.
  destruct (when _ _ w) as [[[]|e] w1]; [|done].
  unfold mbind at 1. unfold M_bind at 1. unfold run at 1.
  destruct (subprocess_run host w1 (script_command host script_path)
              (Some repo_path)) as [[cp1|e] m] eqn:Hrun; [|done].
  unfold mbind at 1. unfold M_bind at 1.
  destruct (when (str_truthy (stdout cp1)) _ _) as [[[]|e] w2] eqn:H2.
  2:{ by destruct (str_truthy (stdout cp1)). }
  unfold mbind at 1. unfold M_bind at 1.
  destruct (when (_ && _) _ w2) as [[[]|e] w3] eqn:H3.
  2:{ by destruct (_ && _). }
  intros [= <- <-]. by exists w1, m.
Qed.
End RunScriptFacts.

(** X8.  [run_script] lets no [Exception] out, leaves the registry
    alone, and does nothing but print, make the script executable and
    run it.  When it returns, either the process of the script, run by
    Python for a [.py] script and by [bash] for any other, has
    completed and the answer says whether its exit status was 0; or an
    exception was met, the answer is [False] and the last thing printed
    is the error. *)
Theorem run_script_outcome (host : Host) (script_path repo_path : string)
  (w : World) (r : result bool) (w' : World) :
  run_script host script_path repo_path w = (r, w') →
  registry_kept (hook_run_action host script_path repo_path) w w'
  ∧ match r with
    | Raise e => is_Exception e = false
    | Ok b =>
        (∃ w1 cp m,
           subprocess_run host w1 (script_command host script_path)
             (Some repo_path) = (Ok cp, m)
           ∧ b = (returncode cp =? 0))
        ∨ (b = false
           ∧ ∃ e rest,
               is_Exception e = true
               ∧ trace w'
                 = APrintErr ("Error running script " +:+ script_path +:+ ": "
                              +:+ exn_str e) :: rest)
    end.
Proof.
  intros Hrun.
  set (A := hook_run_action host script_path repo_path).
  assert (K : keeps (registry_kept A w) any escapes
                (run_script host script_path repo_path)).
  { apply (run_script_keeps (registry_kept A w) A); try done.
    - apply registry_kept_action.
    - split; [done|]. by left.
    - split; [done|]. by right. }
  destruct (K w r w' (registry_kept_refl _ w) Hrun) as [Hkept Hr].
  split; [done|].
  destruct r as [b|e]; [|exact Hr].
  revert Hrun. unfold run_script, try_except, try_excepts.
  unfold mbind at 1. unfold M_bind at 1.
  destruct (run_script_process host script_path repo_path w)
    as [[cp|e] w1] eqn:Hproc.
  - intros [= <- <-]. left.
    destruct (run_script_process_completed _ _ _ _ _ _ Hproc) as (w0 & m & H).
    by exists w0, cp, m.
  - cbn [select_handler]. destruct (is_Exception e) eqn:He; [|done].
    unfold script_error. munfold. intros [= <- <-]. right.
    split; [done|]. by exists e, (trace w1).
Qed.

Lemma run_script_outcome_witness :
  installed
    (run_script quiet_host (path_join tool_path "setup.sh") tool_path
       installed_world).2
  = installed installed_world.
Proof.
  exact (proj1 (proj1 (run_script_outcome quiet_host
    (path_join tool_path "setup.sh") tool_path installed_world _ _
    (surjective_pairing _)))).
Defined.

(** ** Probing for system packages *)

Section ProbeFacts.
Variable host : Host.
Variable w0 : World.
Variable allowed : action → Prop.

#[local] Abbreviation Inv := (registry_kept allowed w0).

Lemma which_keeps p :
  allowed (ARun ["which"; p] None) →
  keeps Inv any (λ _, True) (which host p).
Proof.
  intros Ha. unfold which. kstep.
  { apply (keeps_run Inv allowed); [apply registry_kept_fs|
      apply registry_kept_action|done]. }
  intros r _ _. by apply keeps_ret.
Qed.

Lemma check_system_package_keeps package :
  (∀ p, package = JStr p →
     allowed (ARun [p; "-v"] None) ∧ allowed (ARun ["which"; p] None)) →
  keeps Inv any escapes (check_system_package host package).
Proof.
  intros Ha. unfold check_system_package.
  destruct package as [| | |p| |]; try by apply keeps_ret.
  destruct (Ha p eq_refl) as [Hv Hw].
  apply (keeps_try_excepts Inv _ (λ _, True) escapes).
  - kstep.
    { apply (keeps_run Inv allowed); [apply registry_kept_fs|
        apply registry_kept_action|done]. }
    intros r _ _. destruct (returncode r =? 0); [by apply keeps_ret|].
    destruct (_ && _); [by apply keeps_ret|].
    by apply which_keeps.
  - intros e h _. cbn [select_handler]. destruct (_ || _).
    + intros [= <-]. apply (keeps_try_Exception Inv _ (λ _, True)).
      * by apply which_keeps.
      * intros _. by apply keeps_ret.
    + destruct (is_Exception e); [|done]. intros [= <-]. by apply keeps_ret.
  - intros e _. cbn [select_handler]. destruct (_ || _); [done|].
    unfold escapes. by destruct (is_Exception e).
Qed.

Lemma check_alternatives_loop_keeps alternatives :
  (∀ p, JStr p ∈ alternatives →
     allowed (ARun [p; "-v"] None) ∧ allowed (ARun ["which"; p] None)) →
  keeps Inv
    (λ '(found, package) _,
       if found : bool then package ∈ alternatives else package = JNull)
    escapes (check_alternatives_loop host alternatives).
Proof.
  induction alternatives as [|package rest IH]; intros Ha;
    cbn [check_alternatives_loop]; [by apply keeps_ret|].
  kstep.
  { apply check_system_package_keeps. intros p ->. apply Ha. by left. }
  intros [] _ _.
  - apply keeps_ret. intros _. by left.
  - eapply keeps_weaken; [apply IH| |done].
    + intros p Hp. apply Ha. by right.
    + intros [[] package'] _; [by right|done].
Qed.
End ProbeFacts.

(** X9.  [check_system_package] runs nothing but [<package> -v] and
    [which <package>], leaves the registry alone and lets no
    [Exception] out; it answers [True] as soon as [<package> -v] exits
    with status 0; and for a package name that is not a string it
    answers [False] without running anything. *)
Theorem check_system_package_probe (host : Host) (package : json)
  (w : World) (r : result bool) (w' : World) :
  check_system_package host package w = (r, w') →
  (∀ p, package = JStr p → registry_kept (probe_action p) w w')
  ∧ (∀ e, r = Raise e → is_Exception e = false)
  ∧ (∀ p cp m,
       package = JStr p →
       subprocess_run host w [p; "-v"] None = (Ok cp, m) →
       returncode cp = 0 → r = Ok true)
  ∧ ((∀ p, package ≠ JStr p) → r = Ok false ∧ w' = w).
Proof.
  intros Hrun. split; [|split; [|split]].
  - intros p ->.
    refine (proj1 (check_system_package_keeps host w (probe_action p) (JStr p)
                     _ w r w' (registry_kept_refl _ w) Hrun)).
    intros ? [= <-]. split; [by left|by right].
  - intros e ->.
    refine (proj2 (check_system_package_keeps host w (λ _, True) package
                     _ w _ w' (registry_kept_refl _ w) Hrun)).
    done.
  - intros p cp m -> Hv Hrc. revert Hrun.
    unfold check_system_package, try_excepts, run. munfold.
    rewrite Hv. cbn [returncode]. rewrite Hrc. by intros [= <- _].
  - intros Hns. revert Hrun. unfold check_system_package.
    destruct package as [| | |p| |]; try by intros [= <- <-].
    by destruct (Hns p).
Qed.

Lemma check_system_package_probe_witness :
  (check_system_package quiet_host (JStr "git") empty_world).1 = Ok true.
Proof.
  exact (proj1 (proj2 (proj2 (check_system_package_probe quiet_host (JStr "git")
    empty_world _ _ (surjective_pairing _)))) "git" _ _ eq_refl eq_refl
    eq_refl).
Defined.

(** X10.  [check_package_alternatives] probes the alternatives in
    order with nothing but their two probe commands; when it answers
    [True] the package it names is one of the alternatives, and when it
    answers [False] it names none; no [Exception] gets out of the
    probing. *)
Theorem check_package_alternatives_found (host : Host)
  (alternatives : list json) (w : World) (r : result (bool * json))
  (w' : World) :
  check_package_alternatives host (JArr alternatives) w = (r, w') →
  registry_kept (probes_of alternatives) w w'
  ∧ match r with
    | Ok (true, package) => package ∈ alternatives
    | Ok (false, package) => package = JNull
    | Raise e => is_Exception e = false
    end.
Proof.
  unfold check_package_alternatives. cbn [py_iter]. munfold. intros Hrun.
  destruct (check_alternatives_loop_keeps host w (probes_of alternatives)
              alternatives) with (w := w) (r := r) (w' := w')
    as [Hkept Hr]; [|apply registry_kept_refl|exact Hrun|].
  - intros p Hp. split; exists p; (split; [done|]); [by left|by right].
  - split; [done|]. by destruct r as [[[] package]|e].
Qed.

Lemma check_package_alternatives_found_witness :
  match (check_package_alternatives quiet_host
           (JArr [JStr "docker"; JStr "podman"]) empty_world).1 with
  | Ok (true, package) => package ∈ [JStr "docker"; JStr "podman"]
  | Ok (false, package) => package = JNull
  | Raise e => is_Exception e = false
  end.
Proof.
  exact (proj2 (check_package_alternatives_found quiet_host
    [JStr "docker"; JStr "podman"] empty_world _ _ (surjective_pairing _))).
Defined.

(** X11.  A [system] section that has no [check_commands] and no entry
    for the distro asks nothing of this machine:
    [check_system_dependencies] reports all satisfied and nothing
    missing, without running a command, whatever the section lists for
    other distros.  The install method it reports is the global
    [method] when there is one, else the distro's own. *)
Theorem check_system_dependencies_other_distro (host : Host) (self : Self)
  (items : list (string * json)) (w : World) :
  assoc "check_commands" items = None →
  assoc (self_distro self) items = None →
  check_system_dependencies host self (JObj items) w
  = (Ok (true, [], install_method_of self items), w).
Proof.
  intros Hcc Hdistro. unfold check_system_dependencies, install_method_of.
  unfold py_in, py_getitem, py_index, py_get. munfold.
  rewrite Hcc, Hdistro. cbn [default truthy andb is_nil].
  rewrite (bool_decide_eq_false_2 (is_Some None)) by (by intros []).
  destruct (assoc "method" items) as [m|].
  - by rewrite bool_decide_eq_true_2 by done.
  - rewrite (bool_decide_eq_false_2 (is_Some None)) by (by intros []).
    destruct (assoc (self_distro self +:+ "_method") items) as [m|].
    + by rewrite bool_decide_eq_true_2 by done.
    + by rewrite (bool_decide_eq_false_2 (is_Some None)) by (by intros []).
Qed.

Lemma check_system_dependencies_other_distro_witness :
  check_system_dependencies quiet_host user_self
    (JObj [("Arch", JArr [JStr "docker"]);
           ("Arch_method", JStr "sudo pacman -S --noconfirm")]) empty_world
  = (Ok (true, [], JStr ""), empty_world).
Proof.
  exact (check_system_dependencies_other_distro quiet_host user_self
    [("Arch", JArr [JStr "docker"]);
     ("Arch_method", JStr "sudo pacman -S --noconfirm")] empty_world
    eq_refl eq_refl).
Defined.

(** ** The remote checks *)

Lemma verify_completed_true cp branch msg :
  verify_completed cp branch = (true, msg) → msg = "" ∧ returncode cp = 0.
Proof.
  unfold verify_completed, verify_branch.
  destruct (returncode cp =? 0) eqn:Hrc; cbn [negb].
  - apply Z.eqb_eq in Hrc. intros H. split; [|done].
    repeat case_match; congruence.
  - intros H. repeat case_match; congruence.
Qed.

Lemma verify_completed_false cp branch :
  returncode cp ≠ 0 → ∃ msg, verify_completed cp branch = (false, msg).
Proof.
  intros Hrc. unfold verify_completed. apply Z.eqb_neq in Hrc. rewrite Hrc.
  cbn [negb]. repeat case_match; by eexists.
Qed.

(** X12.  [verify_repo] runs [git ls-remote --heads --tags <url>] and
    nothing else, and lets no [Exception] out.  It answers valid only
    when that command completed with exit status 0, and then with an
    empty message; when the command exits with another status, or
    raises an [Exception], the answer is invalid. *)
Theorem verify_repo_sound (host : Host) (repo_url : string)
  (branch : option string) (w : World) (r : result (bool * string))
  (w' : World) :
  verify_repo host repo_url branch w = (r, w') →
  let ls_remote := ["git"; "ls-remote"; "--heads"; "--tags"; repo_url] in
  installed w' = installed w
  ∧ installed_file w' = installed_file w
  ∧ trace w' = ARun ls_remote None :: trace w
  ∧ (∀ e, r = Raise e → is_Exception e = false)
  ∧ (∀ msg, r = Ok (true, msg) →
       msg = ""
       ∧ ∃ cp m, subprocess_run host w ls_remote None = (Ok cp, m)
                 ∧ returncode cp = 0)
  ∧ (∀ cp m, subprocess_run host w ls_remote None = (Ok cp, m) →
       returncode cp ≠ 0 → ∃ msg, r = Ok (false, msg))
  ∧ (∀ e m, subprocess_run host w ls_remote None = (Raise e, m) →
       is_Exception e = true → ∃ msg, r = Ok (false, msg)).
Proof.
  unfold verify_repo, try_excepts, run. munfold.
  destruct (subprocess_run host w _ None) as [[cp|e] m] eqn:Hrun.
  - intros [= <- <-]. cbn [installed installed_file trace].
    split; [done|]. split; [done|]. split; [done|]. split; [done|].
    split; [|split; [|done]].
    + intros msg [= Hv]. apply verify_completed_true in Hv as [-> Hrc].
      split; [done|]. by exists cp, m.
    + intros cp' m' [= ? ?] Hrc. subst.
      destruct (verify_completed_false _ branch Hrc) as [msg ->].
      by exists msg.
  - cbn [select_handler].
    destruct (has_kind TimeoutExpired e) eqn:Ht;
      [|destruct (has_kind FileNotFoundError e) eqn:Hf;
        [|destruct (is_Exception e) eqn:He]];
      intros [= <- <-]; cbn [installed installed_file trace];
      (split; [done|]); (split; [done|]); (split; [done|]).
    + split; [done|]. split; [done|]. split; [done|]. intros; by eexists.
    + split; [done|]. split; [done|]. split; [done|]. intros; by eexists.
    + split; [done|]. split; [done|]. split; [done|]. intros; by eexists.
    + split; [by intros e' [= <-]|]. split; [done|]. split; [done|].
      intros e' m' [= ? ?] He'. subst. congruence.
Qed.

Lemma verify_repo_sound_witness :
  (verify_repo remote_host "https://example.com/acme/tool.git" None
     empty_world).1 = Ok (true, "")
  ∧ ∃ cp m,
      subprocess_run remote_host empty_world
        ["git"; "ls-remote"; "--heads"; "--tags";
         "https://example.com/acme/tool.git"] None = (Ok cp, m)
      ∧ returncode cp = 0.
Proof.
  assert (Hr : (verify_repo remote_host "https://example.com/acme/tool.git"
                  None empty_world).1 = Ok (true, ""))
    by (vm_compute; reflexivity).
  split; [exact Hr|].
  exact (proj2 (proj1 (proj2 (proj2 (proj2 (proj2 (verify_repo_sound remote_host
    "https://example.com/acme/tool.git" None empty_world _ _
    (surjective_pairing _)))))) "" Hr)).
Defined.

Section CompatibilityFacts.
Variable host : Host.
Variable w0 : World.

#[local] Abbreviation Inv := (registry_kept (λ _, True) w0).

Lemma keeps_try_finally {A} (P : A → Prop) (E : exn → Prop) (body : M A)
  cleanup :
  keeps Inv (λ a _, P a) E body → keeps Inv any E cleanup →
  keeps Inv (λ a _, P a) E (try_finally body cleanup).
Proof.
  intros Hbody Hcleanup w r w' Hw. unfold try_finally.
  destruct (body w) as [r1 w1] eqn:Eb.
  destruct (Hbody _ _ _ Hw Eb) as [Hw1 Hr1].
  destruct (cleanup w1) as [[[]|e] w2] eqn:Ec; intros [= <- <-];
    destruct (Hcleanup _ _ _ Hw1 Ec) as [Hw2 Hr2]; by split.
Qed.

Lemma make_temp_dir_keeps prefix :
  keeps Inv any (λ _, True) (make_temp_dir host prefix).
Proof.
  intros w r w' Hw [= <- <-]. split; [|done].
  apply (registry_kept_fs _ w0
           (mkWorld (fs w) (installed w) (installed_file w)
              (AMkdtemp (mkdtemp host w prefix) :: trace w))).
  by apply registry_kept_action.
Qed.

Lemma check_repo_compatibility_keeps repo_url branch :
  keeps Inv (λ a _, ∀ msg, a = (true, msg) → msg = "") escapes
    (check_repo_compatibility host repo_url branch).
Proof.
  assert (Hrun : ∀ argv cwd, keeps Inv any (λ _, True) (run host argv cwd)).
  { intros. apply (keeps_run Inv (λ _, True)); [apply registry_kept_fs|
      apply registry_kept_action|done]. }
  intros w. unfold check_repo_compatibility.
  apply (keeps_try_finally (λ a, ∀ msg, a = (true, msg) → msg = "")).
  - apply (keeps_try_excepts Inv _ (λ _, True) escapes).
    + kstep; [apply make_temp_dir_keeps|]. intros temp_dir _ _.
      kstep; [apply Hrun|]. intros clone_result _ _.
      kstep.
      { destruct (_ && _); [apply Hrun|by apply keeps_ret]. }
      intros clone_result' _ _.
      destruct (negb _); [by apply keeps_ret|].
      kstep; [apply Hrun|]. intros _ _ _.
      kstep; [apply keeps_get_world|]. intros w1 _ _.
      destruct (_ && _); apply keeps_ret; intros _ msg [= ]; done.
    + intros e h _. cbn [select_handler].
      destruct (has_kind TimeoutExpired e).
      { intros [= <-]. by apply keeps_ret. }
      destruct (is_Exception e); [|done].
      intros [= <-]. by apply keeps_ret.
    + intros e _. cbn [select_handler].
      destruct (has_kind TimeoutExpired e); [done|].
      unfold escapes. by destruct (is_Exception e).
  - kstep; [apply keeps_get_world|]. intros w1 _ _.
    destruct (path_exists w1 _); [|by apply keeps_ret].
    apply (keeps_try_Exception Inv _ (λ _, True)).
    + apply (keeps_rmtree Inv (λ _, True)); [apply registry_kept_fs|
        apply registry_kept_action|done].
    + intros e. by apply keeps_ret.
Qed.
End CompatibilityFacts.

(** X13.  [check_repo_compatibility] leaves the registry alone and lets
    no [Exception] out; an answer of compatible comes with an empty
    message; and where deleting the temporary directory does not fail,
    the directory [mkdtemp] made does not exist when the check
    returns, whatever the outcome. *)
Theorem check_repo_compatibility_cleans (host : Host) (repo_url : string)
  (branch : option string) (w : World) (r : result (bool * string))
  (w' : World) :
  check_repo_compatibility host repo_url branch w = (r, w') →
  installed w' = installed w
  ∧ installed_file w' = installed_file w
  ∧ (∀ e, r = Raise e → is_Exception e = false)
  ∧ (∀ msg, r = Ok (true, msg) → msg = "")
  ∧ ((∀ w1, rmtree_error host w1 (mkdtemp host w "gitpm_check_") = None) →
     path_exists w' (mkdtemp host w "gitpm_check_") = false).
Proof.
  intros Hrun.
  destruct (check_repo_compatibility_keeps host w repo_url branch w r w'
              (registry_kept_refl _ w) Hrun) as [(Hi & Hf & _) Hr].
  split; [done|]. split; [done|].
  split; [by intros e ->|]. split; [by intros msg ->; apply Hr|].
  intros Hrm. revert Hrun. unfold check_repo_compatibility, try_finally.
  match goal with
  | |- context [try_excepts ?body ?clauses w] =>
      destruct (try_excepts body clauses w) as [r1 w1]
  end.
  unfold try_except, try_excepts, rmtree. munfold.
  destruct (path_exists w1 (mkdtemp host w "gitpm_check_")) eqn:Hpath.
  - rewrite Hrm. intros [= <- <-]. by apply (path_exists_removed w1).
  - by intros [= <- <-].
Qed.

Lemma check_repo_compatibility_cleans_witness :
  path_exists
    (check_repo_compatibility stubborn_host "https://example.com/acme/dep.git"
       None empty_world).2
    (mkdtemp stubborn_host empty_world "gitpm_check_") = false.
Proof.
  refine (proj2 (proj2 (proj2 (proj2 (check_repo_compatibility_cleans
    stubborn_host "https://example.com/acme/dep.git" None empty_world _ _
    (surjective_pairing _))))) _).
  intros w1. reflexivity.
Defined.

(** ** The clean-up and the scope check at work *)

Lemma install_after_clone_failure_cleans_up_witness :
  (install_after_clone quiet_host user_self (λ _, mret true)
     "https://example.com/acme/tool.git" "acme" "tool" "tool" tool_path None
     false broken_manifest_world).1 = Ok false
  ∧ clone_cleaned 2 tool_path
      (install_after_clone quiet_host user_self (λ _, mret true)
         "https://example.com/acme/tool.git" "acme" "tool" "tool" tool_path
         None false broken_manifest_world).2.
Proof.
  assert (Hrun : install_after_clone quiet_host user_self (λ _, mret true)
     "https://example.com/acme/tool.git" "acme" "tool" "tool" tool_path None
     false broken_manifest_world
     = (Ok false,
        (install_after_clone quiet_host user_self (λ _, mret true)
           "https://example.com/acme/tool.git" "acme" "tool" "tool" tool_path
           None false broken_manifest_world).2)).
  { rewrite (surjective_pairing (install_after_clone _ _ _ _ _ _ _ _ _ _ _)) at 1.
    f_equal; vm_compute; reflexivity. }
  split; [by rewrite Hrun|].
  exact (install_after_clone_failure_cleans_up _ _ _ _ _ _ _ _ _ _ _ _ Hrun).
Defined.

Lemma check_dependencies_system_scope_witness :
  self_system system_self = true
  ∧ check_dependencies quiet_host system_self tool_path scoped_world
    = (Ok (mkDepReport true [] [] false [] None), scoped_world)
  ∧ (json_error (mkDepReport true [] [] false [] None) = None
     ∨ (json_error (mkDepReport true [] [] false [] None)
        = (load_gitpm_json scoped_world tool_path).2
        ∧ opt_truthy (load_gitpm_json scoped_world tool_path).2 = true)).
Proof.
  assert (Hrun : check_dependencies quiet_host system_self tool_path scoped_world
                 = (Ok (mkDepReport true [] [] false [] None), scoped_world))
    by (vm_compute; reflexivity).
  split; [reflexivity|]. split; [exact Hrun|].
  exact (check_dependencies_system_scope quiet_host system_self tool_path
           scoped_world _ _ eq_refl Hrun).
Defined.

Lemma check_dependencies_user_scope_witness :
  check_dependencies quiet_host user_self tool_path scoped_world
  = (Ok (fatal_report scope_error), scoped_world).
Proof.
  assert (Hrun : check_dependencies quiet_host user_self tool_path scoped_world
                 = ((check_dependencies quiet_host user_self tool_path
                       scoped_world).1, scoped_world)).
  { rewrite (surjective_pairing (check_dependencies _ _ _ _)) at 1.
    f_equal; vm_compute; reflexivity. }
  revert Hrun.
  destruct (check_dependencies quiet_host user_self tool_path scoped_world).1
    as [report|e] eqn:Hr; [|by vm_compute in Hr].
  intros Hrun. rewrite Hrun.
  by rewrite (check_dependencies_user_scope quiet_host user_self
                [("dependencies", JObj []); ("system_only", JBool true)]
                (JObj []) tool_path scoped_world report scoped_world
                eq_refl eq_refl eq_refl eq_refl Hrun).
Defined.

(** ** Detecting the distribution *)

Lemma rstrip_by_all p t : str_all p t = true → rstrip_by p t = "".
Proof.
  induction t as [|c t IH]; [done|]. cbn [str_all].
  intros [Hc Ht]%andb_true_iff. rewrite rstrip_by_cons, IH by done.
  by rewrite Hc.
Qed.

Lemma rstrip_by_suffix p v t :
  v ≠ "" → str_all (λ c, negb (p c)) v = true → str_all p t = true →
  rstrip_by p (v +:+ t) = v.
Proof.
  intros Hne Hv Ht. induction v as [|c v IH]; [done|].
  cbn [str_all] in Hv. apply andb_true_iff in Hv as [Hc Hv].
  apply negb_true_iff in Hc. rewrite app_cons, rstrip_by_cons.
  destruct v as [|c' v'].
  - rewrite app_empty_l, rstrip_by_all by done. by rewrite Hc.
  - rewrite IH by done. done.
Qed.

Lemma lstrip_by_prefix p a s :
  str_all p a = true → lstrip_by p (a +:+ s) = lstrip_by p s.
Proof.
  induction a as [|c a IH]; [done|]. cbn [str_all].
  intros [Hc Ha]%andb_true_iff. rewrite app_cons. cbn [lstrip_by].
  rewrite Hc. by apply IH.
Qed.

(** Stripping what surrounds a core that has none of the stripped
    characters. *)
Lemma strip_by_wrapped p a v b :
  v ≠ "" → str_all (λ c, negb (p c)) v = true →
  str_all p a = true → str_all p b = true →
  strip_by p (a +:+ v +:+ b) = v.
Proof.
  intros Hne Hv Ha Hb. unfold strip_by. rewrite lstrip_by_prefix by done.
  destruct v as [|c v]; [done|]. cbn [str_all] in Hv.
  pose proof Hv as Hv'. apply andb_true_iff in Hv as [Hc _].
  apply negb_true_iff in Hc. rewrite app_cons, lstrip_by_id by done.
  rewrite <- app_cons. by apply rstrip_by_suffix.
Qed.

Lemma release_word_parts v :
  release_word v →
  v ≠ ""
  ∧ str_all (λ c, negb (is_space c)) v = true
  ∧ str_all (λ c, negb (Ascii.eqb double_quote c)) v = true
  ∧ str_all (λ c, negb (Ascii.eqb single_quote c)) v = true.
Proof.
  intros [Hne Hall]. split; [done|].
  repeat split; (eapply str_all_impl; [|exact Hall]); intros c Hc; cbv beta in Hc;
    apply andb_true_iff in Hc as [Hc H3];
    apply andb_true_iff in Hc as [H1 H2]; done.
Qed.

(** The value of a line [KEY=value], with the value bare or between
    double or single quotes. *)
Lemma os_release_value_strips v q rest :
  release_word v →
  q = "" ∨ q = String double_quote "" ∨ q = String single_quote "" →
  str_strip rest = q +:+ v +:+ q →
  strip_by (Ascii.eqb single_quote)
    (strip_by (Ascii.eqb double_quote) (str_strip rest)) = v.
Proof.
  intros (Hne & Hsp & Hdq & Hsq)%release_word_parts Hq ->.
  destruct Hq as [-> | [-> | ->]].
  - rewrite app_empty_l, app_empty_r.
    rewrite (strip_by_id (Ascii.eqb double_quote)) by done.
    by rewrite strip_by_id.
  - rewrite (strip_by_wrapped _ (String double_quote "") v
               (String double_quote "")) by done.
    by rewrite strip_by_id.
  - rewrite (strip_by_id (Ascii.eqb double_quote)).
    + by rewrite (strip_by_wrapped _ (String single_quote "") v
                    (String single_quote "")).
    + rewrite !str_all_app, Hdq. done.
Qed.

Lemma str_strip_line q v :
  release_word v →
  q = "" ∨ q = String double_quote "" ∨ q = String single_quote "" →
  str_strip (q +:+ v +:+ q +:+ String newline "") = q +:+ v +:+ q.
Proof.
  intros (Hne & Hsp & Hdq & Hsq)%release_word_parts Hq.
  unfold str_strip.
  replace (q +:+ v +:+ q +:+ String newline "")
    with ("" +:+ (q +:+ v +:+ q) +:+ String newline "")
    by (by rewrite app_empty_l, !app_assoc_str).
  apply strip_by_wrapped; [| |done..].
  - destruct Hq as [-> | [-> | ->]]; by destruct v.
  - rewrite !str_all_app, Hsp. by destruct Hq as [-> | [-> | ->]].
Qed.

Lemma no_space_no_blank v :
  str_all (λ c, negb (is_space c)) v = true → str_contains " " v = false.
Proof.
  intros Hsp. apply str_contains_char_false.
  eapply str_all_impl; [|exact Hsp]. intros c Hc. cbv beta in *.
  destruct (Ascii.eqb c " ") eqn:E; [|done].
  apply Ascii.eqb_eq in E as ->. done.
Qed.

Lemma prefix_app_self p s : String.prefix p (p +:+ s) = true.
Proof.
  induction p as [|c p IH]; [apply prefix_empty|].
  rewrite app_cons. cbn [String.prefix]. by destruct (ascii_dec c c).
Qed.

Lemma os_release_step_like q v st :
  release_word v →
  q = "" ∨ q = String double_quote "" ∨ q = String single_quote "" →
  os_release_step ("ID_LIKE=" +:+ q +:+ v +:+ q +:+ String newline "") st
  = Ok (st.1, Some v).
Proof.
  intros Hv Hq. destruct st as [distro_id distro_id_like].
  unfold os_release_step, os_release_value, str_split_once, str_startswith.
  rewrite prefix_app_self.
  replace ("ID_LIKE=" +:+ q +:+ v +:+ q +:+ String newline "")
    with ("ID_LIKE" +:+ String "=" (q +:+ v +:+ q +:+ String newline ""))
    by reflexivity.
  rewrite break_at_app by done. cbn [lookup list_lookup].
  rewrite (os_release_value_strips v q) by (by try apply str_strip_line).
  cbn [mbind result_bind].
  rewrite no_space_no_blank; [done|].
  by apply release_word_parts in Hv as (_ & Hsp & _).
Qed.

Lemma os_release_value_id line :
  str_startswith "ID=" line = true → ∃ v, os_release_value line = Ok v.
Proof.
  unfold str_startswith. destruct line as [|c1 [|c2 [|c3 rest]]]; try done;
    cbn [String.prefix]; repeat (destruct (ascii_dec _ _); [subst|done]);
    try done.
  intros _. unfold os_release_value, str_split_once.
  cbn [break_at Ascii.eqb Bool.eqb]. cbn [lookup list_lookup]. by eexists.
Qed.

(** Lines that are not [ID_LIKE] lines leave [distro_id_like] as it
    is, and raise nothing. *)
Lemma os_release_scan_ids lines distro_id distro_id_like :
  Forall (λ l, str_startswith "ID_LIKE=" l = false) lines →
  ∃ distro_id',
    os_release_scan lines (distro_id, distro_id_like)
    = Ok (distro_id', distro_id_like).
Proof.
  intros Hlines. revert distro_id.
  induction Hlines as [|line lines Hline _ IH]; intros distro_id;
    [by eexists|].
  cbn [os_release_scan os_release_step]. rewrite Hline.
  destruct (str_startswith "ID=" line) eqn:Hid.
  - destruct (os_release_value_id line Hid) as [v ->].
    cbn [mbind result_bind]. apply IH.
  - cbn [mbind result_bind]. apply IH.
Qed.

Lemma os_release_scan_app a b st :
  os_release_scan (a ++ b) st
  = (st' ← os_release_scan a st; os_release_scan b st').
Proof.
  revert st. induction a as [|line a IH]; intros st; [done|].
  cbn [app os_release_scan].
  destruct (os_release_step line st) as [st'|e]; [|done].
  cbn [mbind result_bind]. apply IH.
Qed.

(** X14.  When [/etc/os-release] has one [ID_LIKE] line and it names a
    distribution, bare or in quotes, that name decides: [detect_distro]
    answers [distro_map] at the name in lower case, or the capitalized
    name when the map does not have it, whatever the [ID] lines say.
    So a derivative of Arch is detected as [Arch]. *)
Theorem detect_distro_prefers_id_like (capitalize : string → string)
  (view : DistroView) (before after : list string) (q v : string) :
  os_release view
  = Some (Ok (before
              ++ ("ID_LIKE=" +:+ q +:+ v +:+ q +:+ String newline "")
                 :: after)) →
  Forall (λ l, str_startswith "ID_LIKE=" l = false) (before ++ after) →
  release_word v →
  q = "" ∨ q = String double_quote "" ∨ q = String single_quote "" →
  detect_distro capitalize view = Ok (distro_name capitalize v)
  ∧ (str_lower v = "arch" → detect_distro capitalize view = Ok "Arch").
Proof.
  intros Hfile Hothers Hv Hq.
  apply Forall_app in Hothers as [Hbefore Hafter].
  assert (Hdetect : detect_distro capitalize view
                    = Ok (distro_name capitalize v)).
  { unfold detect_distro. rewrite Hfile. cbn [mbind result_bind].
    rewrite os_release_scan_app.
    destruct (os_release_scan_ids before None None Hbefore) as [id1 ->].
    cbn [mbind result_bind os_release_scan].
    rewrite os_release_step_like by done. cbn [mbind result_bind fst].
    destruct (os_release_scan_ids after id1 (Some v) Hafter) as [id2 ->].
    cbn [opt_truthy default].
    destruct Hv as [Hne _]. by destruct v. }
  split; [done|]. intros Harch. rewrite Hdetect.
  unfold distro_name. by rewrite Harch.
Qed.

Lemma detect_distro_prefers_id_like_witness :
  release_word "arch"
  ∧ detect_distro (λ s, s) (mkDistroView (Some (Ok garuda_release)) (λ _, false))
    = Ok "Arch".
Proof.
  assert (Hword : release_word "arch") by (split; [discriminate|reflexivity]).
  split; [exact Hword|].
  refine (proj2 (detect_distro_prefers_id_like (λ s, s)
    (mkDistroView (Some (Ok garuda_release)) (λ _, false))
    [ "NAME=" +:+ String double_quote
        ("Garuda Linux" +:+ String double_quote (String newline ""));
      "ID=garuda" +:+ String newline "" ]
    [ "BUILD_ID=rolling" +:+ String newline "" ] "" "arch"
    eq_refl _ Hword (or_introl eq_refl)) eq_refl).
  repeat constructor.
Defined.

Lemma os_release_scan_other lines st :
  Forall (λ l, str_startswith "ID_LIKE=" l = false
               ∧ str_startswith "ID=" l = false) lines →
  os_release_scan lines st = Ok st.
Proof.
  induction 1 as [|line lines [Hlike Hid] _ IH]; [done|].
  cbn [os_release_scan]. unfold os_release_step. destruct st as [a b].
  by rewrite Hlike, Hid.
Qed.

(** X15.  Without [/etc/os-release], or when none of its lines is an
    [ID] or [ID_LIKE] line, [detect_distro] goes by the release files,
    and answers [Unknown] when there is none.  When reading
    [/etc/os-release] raises an [Exception] the answer is [Unknown],
    whatever release files exist.  No [Exception] gets out. *)
Theorem detect_distro_fallback (capitalize : string → string)
  (view : DistroView) :
  (os_release view = None →
   detect_distro capitalize view = Ok (distro_fallback view))
  ∧ (∀ lines,
       os_release view = Some (Ok lines) →
       Forall (λ l, str_startswith "ID_LIKE=" l = false
                    ∧ str_startswith "ID=" l = false) lines →
       detect_distro capitalize view = Ok (distro_fallback view))
  ∧ ((∀ name, release_file_exists view name = false) →
     distro_fallback view = "Unknown")
  ∧ (∀ e, os_release view = Some (Raise e) → is_Exception e = true →
       detect_distro capitalize view = Ok "Unknown")
  ∧ (∀ e, detect_distro capitalize view = Raise e → is_Exception e = false).
Proof.
  unfold detect_distro. split; [|split; [|split; [|split]]].
  - by intros ->.
  - intros lines -> Hlines. cbn [mbind result_bind].
    by rewrite os_release_scan_other.
  - intros Hnone. unfold distro_fallback. by rewrite !Hnone.
  - intros e -> He. cbn [mbind result_bind]. by rewrite He.
  - intros e.
    match goal with
    | |- context [match ?body with Ok _ => _ | Raise _ => _ end] =>
        destruct body as [name|e']; [done|]
    end.
    destruct (is_Exception e') eqn:He; [done|]. by intros [= <-].
Qed.

Lemma detect_distro_fallback_witness :
  detect_distro id bare_view = Ok "Unknown".
Proof.
  destruct (detect_distro_fallback id bare_view) as (Hnone & _ & Hfiles & _).
  rewrite (Hnone eq_refl). by rewrite Hfiles.
Defined.

(** ** The catalog as a whole *)

(** X16.  Every entry [load_config] returns comes from a line of one
    of the catalog files it found and could read, carries the label of
    that file, and has valid fields: a URL that is not empty, is
    stripped and does not start a comment, and a branch and a name
    that, when present, are not empty. *)
Theorem load_config_entries (host : Host) (self : Self) (w : World)
  (repos : list RepoEntry) (w' : World) (e : RepoEntry) :
  load_config host self w = (Ok repos, w') → e ∈ repos →
  ∃ file lines line,
    file ∈ find_config_files (catalog_view host w) (self_system self)
             (home_dir host)
    ∧ cat_lines (catalog_view host w) file = Some lines
    ∧ line ∈ lines
    ∧ parse_config_line (source_label_of file) line = Some e
    ∧ entry_source_file e = source_label_of file
    ∧ valid_fields (entry_url e) (entry_branch e) (entry_name e).
Proof.
  unfold load_config. unfold mbind at 1. unfold M_bind at 1.
  unfold get_world at 1.
  destruct (find_config_files _ _ _) as [|file0 files] eqn:Hfiles.
  { unfold no_config_files. munfold. by intros [=]. }
  rewrite read_config_files. intros Hrun He.
  assert (repos = (file0 :: files) ≫= load_config_file (catalog_view host w))
    as -> by (by injection Hrun as <- _).
  apply list_elem_of_bind in He as (file & He & Hfile).
  unfold load_config_file in He.
  destruct (cat_lines (catalog_view host w) file) as [lines|] eqn:Hlines;
    [|by apply elem_of_nil in He].
  apply list_elem_of_omap in He as (line & Hline & Hparse).
  exists file, lines, line.
  destruct (parse_config_line_valid _ _ _ Hparse)
    as (_ & _ & _ & Hlabel & Hvalid).
  repeat (split; [done|]). exact Hvalid.
Qed.

Lemma load_config_entries_witness :
  load_config stubborn_host user_self empty_world
  = (Ok [mkRepoEntry "https://example.com/acme/tool.git" None None "repos.conf"],
     empty_world)
  ∧ ∃ file lines line,
      file ∈ find_config_files tool_catalog false "/home/user"
      ∧ cat_lines tool_catalog file = Some lines
      ∧ line ∈ lines
      ∧ parse_config_line (source_label_of file) line
        = Some (mkRepoEntry "https://example.com/acme/tool.git" None None
                  "repos.conf")
      ∧ "repos.conf" = source_label_of file
      ∧ valid_fields "https://example.com/acme/tool.git" None None.
Proof.
  assert (Hrepos : load_config stubborn_host user_self empty_world
    = (Ok [mkRepoEntry "https://example.com/acme/tool.git" None None
             "repos.conf"], empty_world)) by (vm_compute; reflexivity).
  split; [exact Hrepos|].
  apply (load_config_entries stubborn_host user_self empty_world _ _
           (mkRepoEntry "https://example.com/acme/tool.git" None None
              "repos.conf") Hrepos).
  by left.
Defined.

(** ** Peer dependencies given one by one *)

Section PlainPeerFacts.
Variable host : Host.
Variable self : Self.

Lemma check_gitpm_entry_plain w dep name st st' :
  is_str dep = true → resolved_name host dep = Ok name →
  check_gitpm_entry host self w dep st = Ok st' →
  peer_missing st' = peer_missing st ++ not_installed w [name]
  ∧ dep_name <$> peer_dep_info st'
    = (dep_name <$> peer_dep_info st) ++ not_installed w [name]
  ∧ (Forall (λ i, dep_alternatives i = None) (peer_dep_info st) →
     Forall (λ i, dep_alternatives i = None) (peer_dep_info st'))
  ∧ (self_system self = true → peer_system_only st' = peer_system_only st).
Proof.
  destruct dep as [| | |s| |]; try done. intros _.
  unfold resolved_name, check_gitpm_entry.
  destruct (dep_parts (JStr s)) as [parts|e]; [|done].
  cbn [mbind result_bind].
  destruct (resolve_dep host parts) as [[[n url] branch]|e]; [|done].
  cbn [mbind result_bind]. intros [= ->].
  unfold not_installed, is_installed. cbn [List.filter].
  destruct (bool_decide (is_Some (installed w !! name))) eqn:Hinst;
    cbn [negb].
  - unfold scope_violation.
    destruct (self_system self) eqn:Hsys; cbn [negb mbind result_bind].
    + intros [= <-]. cbn. rewrite !app_nil_r. done.
    + destruct (scope_violation self w name) as [violations|e] eqn:Hv;
        unfold scope_violation in Hv; rewrite Hsys in Hv; cbn [negb] in Hv;
        rewrite Hv; cbn [mbind result_bind]; [|done].
      intros [= <-]. cbn. rewrite !app_nil_r. done.
  - intros [= <-]. cbn [peer_missing peer_dep_info peer_system_only].
    rewrite fmap_app. split; [done|]. split; [done|]. split; [|done].
    intros Hall. apply Forall_app. split; [done|]. by repeat constructor.
Qed.

Lemma check_gitpm_entries_plain w deps names st st' :
  resolve_plain host deps names →
  check_gitpm_entries host self w deps st = Ok st' →
  peer_missing st' = peer_missing st ++ not_installed w names
  ∧ dep_name <$> peer_dep_info st'
    = (dep_name <$> peer_dep_info st) ++ not_installed w names
  ∧ (Forall (λ i, dep_alternatives i = None) (peer_dep_info st) →
     Forall (λ i, dep_alternatives i = None) (peer_dep_info st'))
  ∧ (self_system self = true → peer_system_only st' = peer_system_only st).
Proof.
  intros Hdeps. revert st.
  induction Hdeps as [|dep name deps names [Hstr Hname] _ IH]; intros st.
  { intros [= <-]. cbn. by rewrite !app_nil_r. }
  cbn [check_gitpm_entries].
  destruct (check_gitpm_entry host self w dep st) as [st1|e] eqn:H1; [|done].
  cbn [mbind result_bind]. intros Hrest.
  destruct (check_gitpm_entry_plain _ _ _ _ _ Hstr Hname H1)
    as (M1 & I1 & A1 & S1).
  destruct (IH _ Hrest) as (M2 & I2 & A2 & S2).
  assert (Hcons : not_installed w (name :: names)
                  = not_installed w [name] ++ not_installed w names).
  { unfold not_installed. cbn [List.filter].
    by destruct (negb (is_installed w name)). }
  rewrite Hcons, M2, M1, I2, I1, !app_assoc.
  split; [done|]. split; [done|]. split; [auto|].
  intros Hsys. by rewrite S2, S1.
Qed.
End PlainPeerFacts.

Lemma not_installed_nil w names :
  (∀ n, n ∈ names → is_Some (installed w !! n)) → not_installed w names = [].
Proof.
  induction names as [|n names IH]; intros Hall; [done|].
  unfold not_installed. cbn [List.filter]. unfold is_installed at 1.
  rewrite bool_decide_eq_true_2 by (apply Hall; by left).
  cbn [negb]. apply IH. intros n' Hn'. apply Hall. by right.
Qed.

(** X17.  For dependencies given one by one (plain descriptors, no
    alternative groups) whose names resolve: the missing list of
    [check_gitpm_dependencies] is, in order, the names that are not
    keys of the registry; the answer is satisfied exactly when that
    list is empty; the dependency info has one entry per missing name,
    without alternatives; and in system scope no scope violation is
    recorded. *)
Theorem check_gitpm_dependencies_plain (host : Host) (self : Self)
  (w : World) (deps : list json) (names : list string)
  (satisfied : bool) (missing : list string) (info : list DepInfo)
  (system_only : list string) :
  resolve_plain host deps names →
  check_gitpm_dependencies host self w (JArr deps)
  = Ok (satisfied, missing, info, system_only) →
  missing = not_installed w names
  ∧ satisfied = is_nil missing
  ∧ (satisfied = true ↔ ∀ n, n ∈ names → is_Some (installed w !! n))
  ∧ dep_name <$> info = missing
  ∧ Forall (λ i, dep_alternatives i = None) info
  ∧ (self_system self = true → system_only = []).
Proof.
  intros Hdeps. unfold check_gitpm_dependencies. cbn [py_iter mbind result_bind].
  destruct (check_gitpm_entries host self w deps _) as [st|e] eqn:Hrun; [|done].
  cbn [mbind result_bind]. intros [= <- <- <- <-].
  destruct (check_gitpm_entries_plain _ _ _ _ _ _ _ Hdeps Hrun)
    as (HM & HI & HA & HS).
  cbn [peer_missing peer_dep_info peer_system_only app fmap list_fmap] in *.
  split; [done|]. split; [done|]. split.
  { rewrite HM. unfold not_installed. split.
    - intros Hnil n Hn. apply list_elem_of_In in Hn.
      destruct (is_installed w n) eqn:Hinst;
        [by apply bool_decide_eq_true_1 in Hinst|].
      assert (In n (List.filter (λ n, negb (is_installed w n)) names)) as Hin.
      { apply filter_In. by rewrite Hinst. }
      by destruct (List.filter _ names).
    - intros Hall. fold (not_installed w names).
      by rewrite not_installed_nil. }
  split; [by rewrite HI, HM|]. split; [by apply HA|done].
Qed.

Lemma check_gitpm_dependencies_plain_witness :
  resolve_plain quiet_host tool_or_other ["tool"; "other"]
  ∧ check_gitpm_dependencies quiet_host user_self installed_world
      (JArr tool_or_other)
    = Ok (false, ["other"],
          [mkDepInfo "other" "https://example.com/acme/other.git" None None],
          [])
  ∧ ["other"] = not_installed installed_world ["tool"; "other"].
Proof.
  assert (Hdeps : resolve_plain quiet_host tool_or_other ["tool"; "other"])
    by (repeat constructor).
  assert (Hrun : check_gitpm_dependencies quiet_host user_self installed_world
                   (JArr tool_or_other)
    = Ok (false, ["other"],
          [mkDepInfo "other" "https://example.com/acme/other.git" None None],
          [])) by (vm_compute; reflexivity).
  split; [exact Hdeps|]. split; [exact Hrun|].
  exact (proj1 (check_gitpm_dependencies_plain quiet_host user_self
    installed_world tool_or_other ["tool"; "other"] _ _ _ _ Hdeps Hrun)).
Defined.

(** ** The dependency check and the manifest *)

(** X18.  Without a manifest, [check_dependencies] reports everything
    satisfied; so it does for a manifest that is empty.  A manifest
    that is not JSON gives the report that carries the parse error and
    is not satisfied.  In all three cases nothing is probed: the world
    is as it was. *)
Theorem check_dependencies_manifest_edges (host : Host) (self : Self)
  (repo_path : string) (w : World) :
  (¬ is_file_node (fs w !! path_join repo_path "gitpm.json") →
   ¬ is_file_node (fs w !! path_join repo_path ".gitpm.json") →
   check_dependencies host self repo_path w = (Ok empty_report, w))
  ∧ (∀ x v,
       fs w !! path_join repo_path "gitpm.json" = Some (File x (Loaded v)) →
       truthy v = false →
       check_dependencies host self repo_path w = (Ok empty_report, w))
  ∧ (∀ x msg,
       fs w !! path_join repo_path "gitpm.json"
       = Some (File x (Malformed msg)) →
       check_dependencies host self repo_path w
       = (Ok (fatal_report ("Invalid JSON in gitpm.json: " +:+ msg)), w)).
Proof.
  unfold check_dependencies, load_gitpm_json, marker_files.
  cbn [load_gitpm_json_from]. munfold. split; [|split].
  - intros H1 H2.
    destruct (fs w !! path_join repo_path "gitpm.json") as [[|? ?]|];
      [|by destruct H1|];
      by destruct (fs w !! path_join repo_path ".gitpm.json") as [[|? ?]|];
        [|by destruct H2|].
  - intros x v -> Hv. cbn [opt_truthy]. by rewrite Hv.
  - by intros x msg ->.
Qed.

Lemma check_dependencies_manifest_edges_witness :
  check_dependencies quiet_host user_self tool_path empty_world
  = (Ok empty_report, empty_world).
Proof.
  destruct (check_dependencies_manifest_edges quiet_host user_self tool_path
              empty_world) as (Hnone & _).
  apply Hnone; vm_compute; tauto.
Defined.

(** ** What the dependency check does to its surroundings *)

Section DependencyFrame.
Variable host : Host.
Variable self : Self.
Variable w0 : World.

#[local] Abbreviation Inv := (registry_kept dependency_probe w0).
#[local] Abbreviation all := (λ _ : exn, True).

Lemma keeps_each {A S} (l : list A) (body : A → S → M S) (s : S) :
  (∀ x s, keeps Inv any all (body x s)) → keeps Inv any all (for_each l body s).
Proof.
  intros Hbody. revert s. induction l as [|x l IH]; intros s;
    cbn [for_each]; [by apply keeps_ret|].
  eapply keeps_bind; [apply Hbody|]. intros s' _ _. apply IH.
Qed.

Lemma lifted {A} (r : result A) : keeps Inv any all (lift_result r).
Proof. apply keeps_lift_result. Qed.

Lemma probe_keeps package :
  keeps Inv any all (check_system_package host package).
Proof.
  eapply keeps_weaken; [apply check_system_package_keeps| |done].
  - intros p _. split; right; exists p; [by left|by right].
  - done.
Qed.

Lemma alternatives_keep alternatives :
  keeps Inv any all (check_package_alternatives host alternatives).
Proof.
  unfold check_package_alternatives.
  kstep; [apply lifted|]. intros l _ _.
  eapply keeps_weaken; [apply check_alternatives_loop_keeps| |done].
  - intros p _. split; right; exists p; [by left|by right].
  - done.
Qed.

Lemma sudo_keeps :
  keeps Inv any all (run host ["sudo"; "-n"; "true"] None).
Proof.
  apply (keeps_run Inv dependency_probe);
    [apply registry_kept_fs|apply registry_kept_action|by left].
Qed.

Lemma check_system_dependencies_keeps dependencies :
  keeps Inv any all (check_system_dependencies host self dependencies).
Proof.
  unfold check_system_dependencies.
  kstep; [apply lifted|]. intros has_method _ _.
  kstep.
  { destruct has_method; [apply lifted|].
    kstep; [apply lifted|]. intros [] _ _; [apply lifted|by apply keeps_ret]. }
  intros install_method _ _.
  kstep; [apply lifted|]. intros check_commands _ _.
  kstep; [apply lifted|]. intros distro_packages _ _.
  kstep.
  { destruct (_ && _ && _).
    { kstep; [apply lifted|]. intros entries _ _.
      apply keeps_each. intros command_entry missing.
      destruct (is_list command_entry).
      - kstep; [apply alternatives_keep|]. intros [[] ?] _ _;
          [by apply keeps_ret|].
        kstep; [apply lifted|]. intros primary _ _.
        kstep; [apply lifted|]. intros pkg _ _. by apply keeps_ret.
      - destruct (is_str command_entry); [|by apply keeps_ret].
        kstep; [apply probe_keeps|]. intros [] _ _; [by apply keeps_ret|].
        kstep; [apply lifted|]. intros pkg _ _. by apply keeps_ret. }
    destruct (_ && _).
    { destruct check_commands as [| | | | |items]; try by apply keeps_ret.
      apply keeps_each. intros [command package_names] missing.
      kstep; [apply probe_keeps|]. intros [] _ _; [by apply keeps_ret|].
      destruct package_names as [| | | |names|].
      5:{ kstep; [apply lifted|]. intros distro_pkg _ _.
          destruct (truthy distro_pkg); [by apply keeps_ret|].
          kstep; [apply lifted|]. intros first _ _. by apply keeps_ret. }
      all: kstep; [apply lifted|]; intros [] _ _; [|by apply keeps_ret];
        kstep; [apply lifted|]; intros pkg _ _; by apply keeps_ret. }
    kstep; [apply lifted|]. intros [] _ _; [|by apply keeps_ret].
    kstep; [apply lifted|]. intros distro_deps _ _.
    destruct distro_deps as [| | | |deps|items]; try by apply keeps_ret.
    - apply keeps_each. intros dep_entry missing.
      destruct dep_entry as [| | |s|alts|]; try by apply keeps_ret.
      + kstep; [apply probe_keeps|]. intros [] _ _; by apply keeps_ret.
      + kstep; [apply alternatives_keep|]. intros [[] ?] _ _;
          [by apply keeps_ret|].
        kstep; [apply lifted|]. intros names _ _. by apply keeps_ret.
    - apply keeps_each. intros [k pkg_value] missing.
      destruct (is_str pkg_value); [|by apply keeps_ret].
      kstep; [apply probe_keeps|]. intros [] _ _; by apply keeps_ret. }
  intros missing _ _.
  kstep.
  { destruct (is_nil missing); [by apply keeps_ret|].
    kstep; [apply sudo_keeps|]. intros _ _ _. by apply keeps_ret. }
  intros _ _ _. by apply keeps_ret.
Qed.

Lemma check_dependencies_keeps repo_path :
  keeps Inv any all (check_dependencies host self repo_path).
Proof.
  unfold check_dependencies.
  kstep; [apply keeps_get_world|]. intros w _ _.
  destruct (load_gitpm_json w repo_path) as [gitpm_json json_err].
  destruct (opt_truthy json_err); [by apply keeps_ret|].
  destruct (negb (truthy gitpm_json)); [by apply keeps_ret|].
  kstep; [apply lifted|]. intros has_deps _ _.
  destruct (negb has_deps); [by apply keeps_ret|].
  kstep; [apply lifted|]. intros deps _ _.
  kstep; [apply lifted|]. intros has_system _ _.
  kstep.
  { destruct has_system; [|by apply keeps_ret].
    kstep; [apply lifted|]. intros system_deps _ _.
    kstep; [apply check_system_dependencies_keeps|].
    intros [[? missing] ?] _ _.
    destruct (_ && _); [by apply keeps_ret|].
    destruct (_ && _); [|by apply keeps_ret].
    kstep; [apply sudo_keeps|]. intros sudo_check _ _. by apply keeps_ret. }
  intros [missing_sys can_install] _ _.
  kstep; [apply lifted|]. intros has_gitpm _ _.
  kstep.
  { destruct has_gitpm; [|by apply keeps_ret].
    kstep; [apply lifted|]. intros gitpm_deps _ _.
    kstep; [apply keeps_get_world|]. intros w' _ _.
    kstep; [apply lifted|]. intros [[[? missing] info] system_only] _ _.
    by apply keeps_ret. }
  intros [[missing_peer dep_info] system_only_deps] _ _.
  kstep; [apply lifted|]. intros system_only _ _.
  destruct (_ && _); [by apply keeps_ret|].
  destruct (_ && _); by apply keeps_ret.
Qed.
End DependencyFrame.

(** X19.  [check_dependencies] leaves the registry alone, in memory
    and on disk, prints nothing, deletes nothing, and runs nothing but
    probes of commands ([<command> -v] and [which <command>]) and
    [sudo -n true]: it installs no package. *)
Theorem check_dependencies_only_probes (host : Host) (self : Self)
  (repo_path : string) (w : World) (r : result DepReport) (w' : World) :
  check_dependencies host self repo_path w = (r, w') →
  registry_kept dependency_probe w w'.
Proof.
  intros Hrun.
  by destruct (check_dependencies_keeps host self w repo_path w r w'
                 (registry_kept_refl _ w) Hrun).
Qed.

Lemma check_dependencies_only_probes_witness :
  trace (check_dependencies quiet_host user_self tool_path probing_world).2
  = [ARun ["git"; "-v"] None]
  ∧ registry_kept dependency_probe probing_world
      (check_dependencies quiet_host user_self tool_path probing_world).2.
Proof.
  split; [vm_compute; reflexivity|].
  exact (check_dependencies_only_probes quiet_host user_self tool_path
           probing_world _ _ (surjective_pairing _)).
Defined.
